(** * Ternary stack: the base-81 big-integer kernel and the opcode surface

    A shallow embedding of the arithmetic kernel of
    [TritJS-CISA-Optimized.c] (module [TritJS]) and of the balanced-trit
    integers and the discrete opcode codec of [tritsys-1.0.c] (module
    [TritSys]), followed by the properties of the specification that
    concern them and by further properties read off the code.

    Conventions of the embedding.
    - A C [int] is a [Z]; [/] and [%] are C99 truncating division, that is
      [Z.quot] and [Z.rem].  The intermediate values of the kernel (a byte
      times a byte, or a byte times a small multiplier, plus carries) stay
      far inside the range of a 32-bit [int], so its wrap-around is not
      written out.
    - An [unsigned char] is a [Z] in [0, 256); every store into a digit
      array goes through [u8], the conversion to [unsigned char].
    - A digit array is a [list Z], least significant limb first; the field
      [len] of the C struct is the length of the list.  An access outside
      an array is undefined in C: the model drops such a store and reads
      the default of [nth]; no operation on well-formed operands gets
      there.
    - [calloc] and the zero-filled mapping of [allocate_digits] both return
      zeroed storage; allocation never fails in the model, and pointers are
      never [NULL]. *)

From Stdlib Require Import ZArith List String Ascii Bool Lia.
Import ListNotations.
Local Open Scope Z_scope.

(** ** C conventions shared by both programs *)

Module Cint.

(** [(unsigned char) z] *)
Definition u8 (z : Z) : Z := z mod 256.
Arguments u8 : simpl never.

(** [(signed char) b] for a byte [b] *)
Definition s8 (b : Z) : Z := if b <? 128 then b else b - 256.

(** the code of a character, as [str[i]] promoted to [int] *)
Definition code (c : ascii) : Z := Z.of_N (N_of_ascii c).
Arguments code : simpl never.

Definition chars (s : string) : list Z := map code (list_ascii_of_string s).

Definition char_of (z : Z) : ascii := ascii_of_N (Z.to_N z).

Definition text (cs : list Z) : string :=
  string_of_list_ascii (map char_of cs).

(** [a[i] = v]; a store outside the array is dropped *)
Fixpoint upd {A : Type} (l : list A) (i : nat) (v : A) : list A :=
  match l, i with
  | [], _ => []
  | _ :: tl, O => v :: tl
  | x :: tl, S j => x :: upd tl j v
  end.

(** [for (i = 0; i < n; i++) s = body i s] *)
Fixpoint for_up {St : Type} (n : nat) (body : nat -> St -> St) (s : St) : St :=
  match n with
  | O => s
  | S m => body m (for_up m body s)
  end.

End Cint.

Import Cint.

(** ** TritJS-CISA-Optimized.c *)

Module TritJS.

Definition BASE_81 : Z := 81.

(** [typedef int TritError]: 0 is success, the other codes are errors. *)
Inductive outcome (A : Type) : Type :=
| Ok : A -> outcome A
| Err : Z -> outcome A.
Arguments Ok {A} _.
Arguments Err {A} _.

Definition MemAlloc : Z := 1.
Definition InvalidInput : Z := 2.
Definition DivZero : Z := 3.
Definition Overflow : Z := 4.
Definition Negative : Z := 6.

(** [T81BigInt]: [sign] is 0 for positive and 1 for negative; [digits]
    holds the base-81 digits, little-endian. *)
Record T81BigInt : Type := mkBig { sign : Z; digits : list Z }.

Definition len (x : T81BigInt) : nat := List.length (digits x).

Definition digit (x : T81BigInt) (i : nat) : Z := nth i (digits x) 0.

(** [allocate_digits]: fresh zeroed storage of the requested length; the
    previous contents of [x->digits] are not carried over. *)
Definition allocate_digits (x : T81BigInt) (lengthNeeded : nat) : T81BigInt :=
  mkBig (sign x) (repeat 0 lengthNeeded).

(** [while (x->len > 1 && x->digits[x->len - 1] == 0) x->len--;] *)
Fixpoint strip_rev (r : list Z) : list Z :=
  match r with
  | d :: ((_ :: _) as tl) => if d =? 0 then strip_rev tl else r
  | _ => r
  end.

Definition strip (ds : list Z) : list Z := rev (strip_rev (rev ds)).

(** *** Ternary logical operations *)

Definition ternary_and (a b : Z) : Z := if a <? b then a else b.
Definition ternary_or (a b : Z) : Z := if a >? b then a else b.
Definition ternary_not (a : Z) : Z := 2 - a.
Definition ternary_xor (a b : Z) : Z := Z.rem (a + b) 3.

(** the common loop of the binary operations:
    [for (i = 0; i < len; i++) result[i] = (unsigned char) f(a_i, b_i)]
    with [a_i], [b_i] read as 0 beyond the operand's length *)
Definition logical_binary (f : Z -> Z -> Z) (A B : T81BigInt) : T81BigInt :=
  let n := Nat.max (len A) (len B) in
  mkBig 0 (map (fun i => u8 (f (digit A i) (digit B i))) (seq 0 n)).

Definition tritjs_logical_and (A B : T81BigInt) : outcome T81BigInt :=
  Ok (logical_binary ternary_and A B).

Definition tritjs_logical_or (A B : T81BigInt) : outcome T81BigInt :=
  Ok (logical_binary ternary_or A B).

Definition tritjs_logical_xor (A B : T81BigInt) : outcome T81BigInt :=
  Ok (logical_binary ternary_xor A B).

Definition tritjs_logical_not (A : T81BigInt) : outcome T81BigInt :=
  Ok (mkBig 0 (map (fun d => u8 (ternary_not d)) (digits A))).

(** *** Base conversion and parsing *)

(** [for (j = 0; j < out->len; j++) { val = out->digits[j] * m + carry;
      out->digits[j] = val % BASE_81; carry = val / BASE_81; }]
    returns the new digits and the carry that leaves the loop *)
Fixpoint scale_add (m : Z) (ds : list Z) (carry : Z) : list Z * Z :=
  match ds with
  | [] => ([], carry)
  | d :: tl =>
      let val := d * m + carry in
      let '(tl', c) := scale_add m tl (Z.quot val BASE_81) in
      (u8 (Z.rem val BASE_81) :: tl', c)
  end.

(** [while (carry) { old_len = out->len; allocate_digits(out, out->len + 1);
      out->digits[old_len] = carry % BASE_81; carry /= BASE_81; }]
    [allocate_digits] hands out zeroed storage, so the digits below
    [old_len] are 0 afterwards.  The carry strictly decreases, hence
    [Z.to_nat carry] rounds are enough. *)
Fixpoint grow_carry (fuel : nat) (out : T81BigInt) (carry : Z) : T81BigInt :=
  match fuel with
  | O => out
  | S f =>
      if carry =? 0 then out
      else
        let old_len := len out in
        let out1 := allocate_digits out (old_len + 1) in
        let out2 := mkBig (sign out1)
                          (upd (digits out1) old_len (u8 (Z.rem carry BASE_81))) in
        grow_carry f out2 (Z.quot carry BASE_81)
  end.

(** one round of either loop of the parser: multiply by [m], add [d] *)
Definition push (m : Z) (out : T81BigInt) (d : Z) : T81BigInt :=
  let '(ds, carry) := scale_add m (digits out) d in
  grow_carry (Z.to_nat carry) (mkBig (sign out) ds) carry.

Definition is_trit_char (c : Z) : bool := (code "0" <=? c) && (c <=? code "2").

(** the first loop: the leading [total_len % 4] characters, one at a time *)
Fixpoint parse_head (cs : list Z) (out : T81BigInt) : outcome T81BigInt :=
  match cs with
  | [] => Ok out
  | c :: tl =>
      let d := c - code "0" in
      if (d <? 0) || (d >? 2) then Err InvalidInput
      else parse_head tl (push 3 out d)
  end.

(** the second loop: groups of four characters; a group that runs into
    the terminating NUL fails the range test *)
Fixpoint parse_groups (cs : list Z) (out : T81BigInt) : outcome T81BigInt :=
  match cs with
  | [] => Ok out
  | c0 :: c1 :: c2 :: c3 :: tl =>
      if is_trit_char c0 && is_trit_char c1 && is_trit_char c2 && is_trit_char c3
      then
        let groupVal :=
          (((0 * 3 + (c0 - code "0")) * 3 + (c1 - code "0")) * 3
           + (c2 - code "0")) * 3 + (c3 - code "0") in
        parse_groups tl (push 81 out groupVal)
      else Err InvalidInput
  | _ => Err InvalidInput
  end.

Definition bind {A B : Type} (r : outcome A) (k : A -> outcome B) : outcome B :=
  match r with
  | Ok a => k a
  | Err e => Err e
  end.

(** [parse_trit_string_base81_optimized].  The second alternative of the
    sign test compares a [char] with a multi-byte character constant and
    never holds, so only ['-'] is a sign. *)
Definition parse_trit_string_base81_optimized (str : string) : outcome T81BigInt :=
  match chars str with
  | [] => Err InvalidInput
  | (c0 :: _) as cs =>
      let '(sgn, pos) := if c0 =? code "-" then (1, 1%nat) else (0, 0%nat) in
      let body := skipn pos cs in
      let total_len := List.length body in
      let remainder := (total_len mod 4)%nat in
      let out := mkBig sgn [0] in
      bind (parse_head (firstn remainder body) out) (fun out1 =>
      bind (parse_groups (skipn remainder body) out1) (fun out2 =>
      Ok (mkBig (sign out2) (strip (digits out2)))))
  end.

Definition parse_trit_string (s : string) : outcome T81BigInt :=
  parse_trit_string_base81_optimized s.

(** one pass of the division by 3, from the most significant digit down:
    [val = digits[i] + carry * BASE_81; digits[i] = val / 3; carry = val % 3] *)
Fixpoint div3 (ds : list Z) : list Z * Z :=
  match ds with
  | [] => ([], 0)
  | d :: tl =>
      let '(tl', carry) := div3 tl in
      let val := d + carry * BASE_81 in
      (u8 (Z.quot val 3) :: tl', Z.rem val 3)
  end.

Definition all_zero (ds : list Z) : bool := forallb (fun d => d =? 0) ds.

(** the [while (1)] loop of [t81bigint_to_trit_string]; [buf] is kept in
    the order of the stores, least significant trit first.  [room] counts
    the bytes of [buf] still free: a store beyond the [capacity] bytes
    that were allocated has no defined result. *)
Fixpoint trit_loop (room : nat) (ds : list Z) (buf : list Z) : option (list Z) :=
  if all_zero ds then
    match buf, room with
    | [], S _ => Some [code "0"]
    | [], O => None
    | _ :: _, _ => Some buf
    end
  else
    match room with
    | O => None
    | S room' =>
        let '(q, carry) := div3 ds in
        trit_loop room' q (buf ++ [code "0" + carry])
    end.

(** [t81bigint_to_trit_string]; [None] stands for a write past [buf].
    The sign and the terminating NUL need a free byte each; the swaps of
    the last loop reverse [buf]. *)
Definition t81bigint_to_trit_string (x : T81BigInt) : option string :=
  if (len x =? 1)%nat && (digit x 0 =? 0) then Some "0"%string
  else
    let capacity := (len x * 4 + 2)%nat in
    match trit_loop capacity (digits x) [] with
    | None => None
    | Some buf =>
        let buf1 := if sign x =? 0 then buf else buf ++ [code "-"] in
        if (List.length buf1 <? capacity)%nat
        then Some (text (rev buf1))
        else None
    end.

(** [int val] to base-3 digits, least significant first:
    [while (val > 0) { b3[idx++] = '0' + val % 3; val /= 3; }] *)
Fixpoint b3_digits (fuel : nat) (val : Z) : list Z :=
  match fuel with
  | O => []
  | S f => if val >? 0
           then (code "0" + Z.rem val 3) :: b3_digits f (Z.quot val 3)
           else []
  end.

(** [binary_to_trit]: a machine integer through its base-3 text.  A
    32-bit value has at most 21 trits. *)
Definition binary_to_trit (num : Z) : outcome T81BigInt :=
  let sgn := num <? 0 in
  let val := if num <? 0 then - num else num in
  let b3 := if val =? 0 then [code "0"] else b3_digits 32 val in
  let b3' := if sgn then b3 ++ [code "-"] else b3 in
  parse_trit_string (text (rev b3')).

(** *** Balanced ternary parsing *)

(** the character map of [parse_balanced_trit_string]; as in the parser,
    the comparison with the multi-byte constant never holds *)
Definition unbalance (c : Z) : option Z :=
  if c =? code "-" then Some (code "0")
  else if c =? code "0" then Some (code "1")
  else if c =? code "+" then Some (code "2")
  else None.

Fixpoint unbalance_all (cs : list Z) : option (list Z) :=
  match cs with
  | [] => Some []
  | c :: tl =>
      match unbalance c with
      | None => None
      | Some u =>
          match unbalance_all tl with
          | None => None
          | Some us => Some (u :: us)
          end
      end
  end.

Definition parse_balanced_trit_string (s : string) : outcome T81BigInt :=
  match unbalance_all (chars s) with
  | None => Err InvalidInput
  | Some unb => parse_trit_string (text unb)
  end.

(** *** Addition and subtraction *)

(** the last loop of [cmp_base81], [i = m - 1] down to 0 *)
Fixpoint cmp_low (a b : list Z) : Z :=
  match a, b with
  | x :: a', y :: b' =>
      let c := cmp_low a' b' in
      if c =? 0 then (if x <? y then -1 else if x >? y then 1 else 0) else c
  | _, _ => 0
  end.

Definition cmp_base81 (a b : list Z) : Z :=
  let a_len := List.length a in
  let b_len := List.length b in
  if (b_len <? a_len)%nat && negb (all_zero (skipn b_len a)) then 1
  else if (a_len <? b_len)%nat && negb (all_zero (skipn a_len b)) then -1
  else cmp_low a b.

(** [while (carry && cpos < len) { val = r[cpos] + carry;
      r[cpos] = val % BASE_81; carry = val / BASE_81; cpos++; }] *)
Fixpoint ripple (fuel : nat) (r : list Z) (cpos : nat) (carry : Z) : list Z :=
  match fuel with
  | O => r
  | S f =>
      if (carry =? 0) || negb (cpos <? List.length r)%nat then r
      else
        let val := nth cpos r 0 + carry in
        ripple f (upd r cpos (u8 (Z.rem val BASE_81))) (S cpos) (Z.quot val BASE_81)
  end.

(** the borrow of the subtraction branch:
    [while (1) { r[j]--; if (r[j] < 255) break; r[j] += BASE_81; j++;
                 if (j >= len) break; }]
    The index moves up at every round and the loop leaves at [len], so
    [len + 1] rounds are enough. *)
Fixpoint borrow (fuel : nat) (r : list Z) (j : nat) : list Z :=
  match fuel with
  | O => r
  | S f =>
      let r1 := upd r j (u8 (nth j r 0 - 1)) in
      if nth j r1 255 <? 255 then r1
      else
        let r2 := upd r1 j (u8 (nth j r1 0 + BASE_81)) in
        if (List.length r <=? S j)%nat then r2 else borrow f r2 (S j)
  end.

Definition add_same_sign (A B : T81BigInt) : T81BigInt :=
  let n := (Nat.max (len A) (len B) + 1)%nat in
  let r0 := digits A ++ repeat 0 (n - len A) in
  let r := for_up (len B) (fun i r =>
             let val := nth i r 0 + digit B i in
             let r1 := upd r i (u8 (Z.rem val BASE_81)) in
             ripple n r1 (S i) (Z.quot val BASE_81)) r0 in
  mkBig (sign A) (strip r).

Definition sub_magnitudes (larger smaller : T81BigInt) (largerSign : Z) : T81BigInt :=
  let r := for_up (len smaller) (fun i r =>
             let diff := nth i r 0 - digit smaller i in
             if diff <? 0
             then upd (borrow (S (List.length r)) r (S i)) i (u8 (diff + BASE_81))
             else upd r i (u8 diff)) (digits larger) in
  mkBig largerSign (strip r).

Definition tritjs_add_big (A B : T81BigInt) : outcome T81BigInt :=
  if sign A =? sign B then Ok (add_same_sign A B)
  else
    let c := cmp_base81 (digits A) (digits B) in
    if c >? 0 then Ok (sub_magnitudes A B (sign A))
    else if c <? 0 then Ok (sub_magnitudes B A (sign B))
    else Ok (mkBig 0 [0]).

Definition tritjs_subtract_big (A B : T81BigInt) : outcome T81BigInt :=
  let oldsign := sign B in
  let tmp := mkBig (if oldsign =? 0 then 1 else 0) (digits B) in
  tritjs_add_big A tmp.

(** *** Multiplication *)

(** the inner loop of [naive_mul] at row [i]:
    [for (j = 0; j < blen; j++) { pos = i + j;
       val = out[pos] + A[i] * B[j] + carry;
       out[pos] = val % BASE_81; carry = val / BASE_81; }] *)
Definition naive_mul_row (A B : list Z) (blen i : nat) (out : list Z) : list Z * Z :=
  for_up blen (fun j st =>
    let '(o, carry) := st in
    let pos := (i + j)%nat in
    let val := nth pos o 0 + nth i A 0 * nth j B 0 + carry in
    (upd o pos (u8 (Z.rem val BASE_81)), Z.quot val BASE_81)) (out, 0).

Definition naive_mul (A : list Z) (alen : nat) (B : list Z) (blen : nat) : list Z :=
  for_up alen (fun i out =>
    let '(out1, carry) := naive_mul_row A B blen i out in
    upd out1 (i + blen) (u8 (nth (i + blen) out1 0 + carry)))
  (repeat 0 (alen + blen)).

(** [add_shifted]; the [break] of the first loop leaves every later
    index out of range as well, so the rounds after it do nothing *)
Definition add_shifted (dest : list Z) (src : list Z) (slen shift : nat) : list Z :=
  let dlen := List.length dest in
  let '(d1, carry) :=
    for_up slen (fun i st =>
      let '(d, carry) := st in
      let idx := (i + shift)%nat in
      if (dlen <=? idx)%nat then st
      else
        let sum := nth idx d 0 + nth i src 0 + carry in
        (upd d idx (u8 (Z.rem sum BASE_81)), Z.quot sum BASE_81)) (dest, 0) in
  ripple dlen d1 (slen + shift) carry.

Definition sub_inplace (out src : list Z) (length : nat) : list Z :=
  fst (for_up length (fun i st =>
    let '(o, b) := st in
    let diff := nth i o 0 - nth i src 0 - b in
    if diff <? 0 then (upd o i (u8 (diff + BASE_81)), 1)
    else (upd o i (u8 diff), 0)) (out, 0)).

(** [sumA = A1; for (i = 0; i < half; i++) { s = sumA[i] + A0[i];
      sumA[i] = s % BASE_81; c = s / BASE_81;
      if (c && i + 1 < r) sumA[i + 1] += c; }] *)
Definition half_sum (A0 A1 : list Z) (half r : nat) : list Z :=
  for_up half (fun i sumA =>
    let s := nth i sumA 0 + nth i A0 0 in
    let sumA1 := upd sumA i (u8 (Z.rem s BASE_81)) in
    let c := Z.quot s BASE_81 in
    if negb (c =? 0) && (S i <? r)%nat
    then upd sumA1 (S i) (u8 (nth (S i) sumA1 0 + c))
    else sumA1) (firstn r A1).

(** [karatsuba]; the three products live in buffers of [2 * n] bytes.
    [n] halves at each level, so [n] levels of recursion are enough: at
    depth 0 the length is 0 and the schoolbook branch is the one taken. *)
Fixpoint karatsuba_rec (depth : nat) (A B : list Z) (n : nat) : list Z :=
  match depth with
  | O => naive_mul A n B n
  | S depth' =>
      if (n <=? 16)%nat then naive_mul A n B n
      else
        let half := (n / 2)%nat in
        let r := (n - half)%nat in
        let A0 := A in let A1 := skipn half A in
        let B0 := B in let B1 := skipn half B in
        let len2 := (2 * n)%nat in
        let pad p := p ++ repeat 0 (len2 - List.length p) in
        let p1 := pad (karatsuba_rec depth' A0 B0 half) in
        let p2 := pad (karatsuba_rec depth' A1 B1 r) in
        let sumA := half_sum A0 A1 half r in
        let sumB := half_sum B0 B1 half r in
        let p3 := pad (karatsuba_rec depth' sumA sumB r) in
        let p3' := sub_inplace (sub_inplace p3 p1 len2) p2 len2 in
        let out := repeat 0 len2 in
        let out1 := add_shifted out p1 len2 0 in
        let out2 := add_shifted out1 p3' len2 half in
        add_shifted out2 p2 len2 (2 * half)
  end.

Definition karatsuba (A B : list Z) (n : nat) : list Z := karatsuba_rec n A B n.

Definition is_zero1 (x : T81BigInt) : bool := (len x =? 1)%nat && (digit x 0 =? 0).

Definition t81bigint_karatsuba_multiply (a b : T81BigInt) : T81BigInt :=
  if is_zero1 a || is_zero1 b then mkBig 0 [0]
  else
    let n := Nat.max (len a) (len b) in
    let A := digits a ++ repeat 0 (n - len a) in
    let B := digits b ++ repeat 0 (n - len b) in
    let prod := karatsuba A B n in
    mkBig (if sign a =? sign b then 0 else 1) (strip prod).

(** *** The multiplication cache *)

Definition MUL_CACHE_SIZE : nat := 8.

(** [MulCacheEntry]; [key] is the NUL-terminated text held in
    [char key[128]] *)
Record MulCacheEntry : Type :=
  mkEntry { key : string; result : T81BigInt; used : bool }.

Definition MulCache : Type := list MulCacheEntry.

(** [static MulCacheEntry mul_cache[MUL_CACHE_SIZE] = {{0}}] *)
Definition mul_cache_init : MulCache :=
  repeat (mkEntry EmptyString (mkBig 0 []) false) MUL_CACHE_SIZE.

(** [mul_cache_lookup]: the first used entry whose key compares equal;
    the caller receives a copy of its result *)
Fixpoint mul_cache_lookup (cache : MulCache) (k : string) : option T81BigInt :=
  match cache with
  | [] => None
  | e :: tl =>
      if used e && String.eqb (key e) k
      then Some (mkBig (sign (result e)) (digits (result e)))
      else mul_cache_lookup tl k
  end.

Fixpoint first_unused (cache : MulCache) : option nat :=
  match cache with
  | [] => None
  | e :: tl =>
      if used e then option_map S (first_unused tl) else Some O
  end.

(** [mul_cache_store]: the first unused slot, slot 0 when all are used;
    [strncpy] and the forced terminator keep 127 characters of the key *)
Definition mul_cache_store (cache : MulCache) (k : string) (val : T81BigInt) : MulCache :=
  let slot := match first_unused cache with Some i => i | None => O end in
  upd cache slot (mkEntry (substring 0 127 k) (mkBig (sign val) (digits val)) true).

(** [snprintf(key, sizeof(key), "mul:%s:%s", as, bs)] *)
Definition mul_key (as_ bs : string) : string :=
  substring 0 127 ("mul:" ++ as_ ++ ":" ++ bs)%string.

(** the key [multiply_with_cache] builds from its operands, in the order
    in which they are passed; [None] is the undefined text conversion *)
Definition cache_key (a b : T81BigInt) : option string :=
  match t81bigint_to_trit_string a, t81bigint_to_trit_string b with
  | Some as_, Some bs => Some (mul_key as_ bs)
  | _, _ => None
  end.

(** [multiply_with_cache], threading the cache.  In the model it always
    returns 0. *)
Definition multiply_with_cache (cache : MulCache) (a b : T81BigInt)
  : option (T81BigInt * MulCache) :=
  match cache_key a b with
  | Some k =>
      match mul_cache_lookup cache k with
      | Some out => Some (out, cache)
      | None =>
          let out := t81bigint_karatsuba_multiply a b in
          Some (out, mul_cache_store cache k out)
      end
  | None => None
  end.

(** *** Power *)

Definition is_small_value (x : T81BigInt) : bool :=
  (len x =? 1)%nat && (digit x 0 <? 81).

Definition to_small_int (x : T81BigInt) : Z :=
  let val := digit x 0 in
  if sign x =? 0 then val else - val.

(** the loop [for (i = 0; i < e; i++)]: the running result is multiplied
    by [base] through [multiply_with_cache] and replaced by the product *)
Fixpoint power_loop (e : nat) (cache : MulCache) (base acc : T81BigInt)
  : option (T81BigInt * MulCache) :=
  match e with
  | O => Some (acc, cache)
  | S e' =>
      match multiply_with_cache cache acc base with
      | None => None
      | Some (tmp, cache') => power_loop e' cache' base tmp
      end
  end.

Definition tritjs_power_big (cache : MulCache) (base exp : T81BigInt)
  : option (outcome T81BigInt * MulCache) :=
  if negb (sign exp =? 0) then Some (Err Negative, cache)
  else if negb (is_small_value exp) then Some (Err Overflow, cache)
  else
    let e := to_small_int exp in
    if e >? 1000 then Some (Err Overflow, cache)
    else
      match power_loop (Z.to_nat e) cache base (mkBig 0 [1]) with
      | None => None
      | Some (r, cache') =>
          if negb (sign base =? 0) && (Z.rem e 2 =? 1)
          then Some (Ok (mkBig 1 (digits r)), cache')
          else Some (Ok r, cache')
      end.

(** *** Division *)

(** [for (j = 0; j < n; j++) { val = (j < b->len ? b->digits[j] * m : 0) + carry;
      prod->digits[j] = val % BASE_81; carry = val / BASE_81; }] *)
Definition scale_digits (b : T81BigInt) (m : Z) (n : nat) : list Z * Z :=
  for_up n (fun j st =>
    let '(p, carry) := st in
    let val := (if (j <? len b)%nat then digit b j * m else 0) + carry in
    (upd p j (u8 (Z.rem val BASE_81)), Z.quot val BASE_81)) (repeat 0 n, 0).

(** the product tried against the running remainder; when a carry
    leaves the loop, [allocate_digits] replaces the digits by zeroed
    storage one longer and only the carry is written into it *)
Definition trial_product (b : T81BigInt) (mul_digit : Z) (rlen : nat) : list Z :=
  let '(p, carry) := scale_digits b mul_digit rlen in
  if carry =? 0 then p
  else upd (repeat 0 (rlen + 1)) rlen (u8 carry).

(** [while (1) { mul_digit = q_digit + 1; ...;
      if (cmp_base81(remainder, prod) < 0) break; q_digit++; }]
    [None] when the rounds allowed are used up *)
Fixpoint trial_loop (fuel : nat) (b : T81BigInt) (r : list Z) (q_digit : Z) : option Z :=
  match fuel with
  | O => None
  | S f =>
      let prod := trial_product b (q_digit + 1) (List.length r) in
      if cmp_base81 r prod <? 0 then Some q_digit
      else trial_loop f b r (q_digit + 1)
  end.

(** one position of the long division, [i] from [a->len - 1] down *)
Definition divide_step (fuel : nat) (a b : T81BigInt) (i : nat)
           (st : option (list Z * T81BigInt)) : option (list Z * T81BigInt) :=
  match st with
  | None => None
  | Some (q, remainder) =>
      let newR := digit a i :: digits remainder in
      let remainder1 := mkBig (sign remainder) newR in
      match trial_loop fuel b newR 0 with
      | None => None
      | Some q_digit =>
          let q1 := upd q i (u8 q_digit) in
          let prod := mkBig 0 (fst (scale_digits b q_digit (List.length newR))) in
          match tritjs_subtract_big remainder1 prod with
          | Ok temp => Some (q1, temp)
          | Err _ => None
          end
      end
  end.

(** [tritjs_divide_big].  The digit search of the source has no bound of
    its own; [fuel] is the number of rounds the model allows it at each
    position, and [None] the answer when they are used up. *)
Definition tritjs_divide_big (fuel : nat) (a b : T81BigInt)
  : option (outcome (T81BigInt * T81BigInt)) :=
  if all_zero (digits b) then Some (Err DivZero)
  else
    let remainder0 := mkBig 0 (digits a) in
    let quotient0 := repeat 0 (len a) in
    match fold_left (fun st i => divide_step fuel a b i st)
                    (rev (seq 0 (len a))) (Some (quotient0, remainder0)) with
    | None => None
    | Some (q, remainder) =>
        Some (Ok (mkBig (if sign a =? sign b then 0 else 1) (strip q),
                  mkBig (sign a) (strip (digits remainder))))
    end.

(** *** Conversion to a machine integer *)

Definition INT_MAX : Z := 2147483647.

(** the loop of [trit_to_binary] over the characters after the sign:
    [if (b3[i] < '0' || b3[i] > '2') return 2;
     accum = accum * 3 + (b3[i] - '0'); if (accum > INT_MAX) return 4;]
    [accum] is a [long long] and never exceeds [3 * INT_MAX + 2] *)
Fixpoint accum_trits (cs : list Z) (accum : Z) : outcome Z :=
  match cs with
  | [] => Ok accum
  | c :: tl =>
      if (c <? code "0") || (c >? code "2") then Err InvalidInput
      else
        let accum1 := accum * 3 + (c - code "0") in
        if accum1 >? INT_MAX then Err Overflow else accum_trits tl accum1
  end.

(** [trit_to_binary]; [None] is the undefined text conversion *)
Definition trit_to_binary (x : T81BigInt) : option (outcome Z) :=
  match t81bigint_to_trit_string x with
  | None => None
  | Some b3 =>
      let cs := chars b3 in
      let '(sgn, body) :=
        match cs with
        | c0 :: tl => if c0 =? code "-" then (1, tl) else (0, cs)
        | [] => (0, cs)
        end in
      Some (bind (accum_trits body 0) (fun accum =>
            Ok (if sgn =? 0 then accum else - accum)))
  end.

(** *** The public multiplication *)

(** [tritjs_multiply_big], threading the cache *)
Definition tritjs_multiply_big (cache : MulCache) (a b : T81BigInt)
  : option (outcome T81BigInt * MulCache) :=
  match multiply_with_cache cache a b with
  | Some (out, cache') => Some (Ok out, cache')
  | None => None
  end.

(** *** Factorial *)

(** [long long f = 1; for (i = 1; i <= val; i++) f *= i;]; the caller
    has checked [val <= 20], and 20! fits a [long long] *)
Definition fact_ll (val : Z) : Z :=
  for_up (Z.to_nat val) (fun i f => f * Z.of_nat (S i)) 1.

(** the inner loop of [tritjs_factorial_big]:
    [while (carry) { val2 = r[i] + carry; r[i] = val2 % BASE_81;
       carry = val2 / BASE_81; i++;
       if (i >= len && carry) allocate_digits(result, len + 1); }]
    [allocate_digits] hands out zeroed storage.  The index moves up at
    every round and a carry into fresh storage ends the loop, so
    [len + 2] rounds are enough. *)
Fixpoint fact_carry (fuel : nat) (r : list Z) (i : nat) (carry : Z) : list Z :=
  match fuel with
  | O => r
  | S f =>
      if carry =? 0 then r
      else
        let val2 := nth i r 0 + carry in
        let r1 := upd r i (u8 (Z.rem val2 BASE_81)) in
        let carry1 := Z.quot val2 BASE_81 in
        let r2 := if (List.length r1 <=? S i)%nat && negb (carry1 =? 0)
                  then repeat 0 (List.length r1 + 1)
                  else r1 in
        fact_carry f r2 (S i) carry1
  end.

(** the outer loop:
    [while (f > 0) { digit = f % BASE_81; f /= BASE_81; carry = digit;
       i = 0; ...inner loop... }]
    every round restarts at index 0 *)
Fixpoint fact_digits (fuel : nat) (f : Z) (r : list Z) : list Z :=
  match fuel with
  | O => r
  | S fu =>
      if f >? 0
      then fact_digits fu (Z.quot f BASE_81)
                       (fact_carry (S (S (List.length r))) r 0 (Z.rem f BASE_81))
      else r
  end.

(** [tritjs_factorial_big]; a [long long] has at most 10 base-81 digits *)
Definition tritjs_factorial_big (a : T81BigInt) : outcome T81BigInt :=
  if negb (sign a =? 0) then Err Negative
  else if negb (is_small_value a) then Err Overflow
  else
    let val := to_small_int a in
    if val >? 20 then Err Overflow
    else Ok (mkBig 0 (strip (fact_digits 10 (fact_ll val) [0]))).

(** *** Left shift *)

(** the decimal digits of a positive [int], least significant first *)
Fixpoint dec_digits (fuel : nat) (n : Z) : list Z :=
  match fuel with
  | O => []
  | S f => if n >? 0
           then (code "0" + Z.rem n 10) :: dec_digits f (Z.quot n 10)
           else []
  end.

(** what [snprintf(shift_str, sizeof(shift_str), "%d", shift)] writes
    for a [shift] that is not negative; an [int] has at most 10 decimal
    digits, which fit the 16 bytes *)
Definition snprintf_d (n : Z) : list Z :=
  if n =? 0 then [code "0"] else rev (dec_digits 10 n).

(** [tritjs_left_shift].  The decimal text of [shift] is handed to
    [parse_trit_string]; when that fails, [shift_val] stays [NULL],
    [tritjs_power_big] answers 2 and the function returns 1, as it does
    for every other error of the power. *)
Definition tritjs_left_shift (cache : MulCache) (a : T81BigInt) (shift : Z)
  : option (outcome T81BigInt * MulCache) :=
  if shift <? 0 then Some (Err InvalidInput, cache)
  else
    let base := mkBig 0 [3] in
    match parse_trit_string (text (snprintf_d shift)) with
    | Err _ => Some (Err MemAlloc, cache)
    | Ok shift_val =>
        match tritjs_power_big cache base shift_val with
        | None => None
        | Some (Err _, cache1) => Some (Err MemAlloc, cache1)
        | Some (Ok multiplier, cache1) => tritjs_multiply_big cache1 a multiplier
        end
    end.

End TritJS.

(** ** tritsys-1.0.c: balanced trits and the discrete opcode codec *)

Module TritSys.

Definition TERNARY_NEGATIVE : Z := -1.
Definition TERNARY_ZERO : Z := 0.
Definition TERNARY_POSITIVE : Z := 1.

Definition TADD : Z := 1.
Definition TSUB : Z := 2.
Definition TMUL : Z := 3.
Definition TMOD : Z := 4.
Definition TAND : Z := 5.
Definition TOR : Z := 6.
Definition TMAT_ADD : Z := 8.
Definition TMAT_MUL : Z := 9.
Definition THANOI : Z := 10.
Definition TEXP : Z := 11.
Definition TGCD : Z := 12.

(** the opcode set, in the order of the [#define]s *)
Definition opcodes : list Z :=
  [TADD; TSUB; TMUL; TMOD; TAND; TOR; TMAT_ADD; TMAT_MUL; THANOI; TEXP; TGCD].

(** [T81BigInt] of this program: [sign] is -1, 0 or 1 and every element
    of [digits] holds one balanced trit, -1 being stored as the byte 255 *)
Record T81BigInt : Type := mkBig { sign : Z; digits : list Z }.

(** [while (temp > 0) { len++; temp /= 3; }] *)
Fixpoint count_trits (fuel : nat) (temp : Z) : nat :=
  match fuel with
  | O => O
  | S f => if temp >? 0 then S (count_trits f (Z.quot temp 3)) else O
  end.

(** [for (i = 0; abs_num > 0 && i < len; i++) { rem = abs_num % 3;
      digits[i] = (rem == 2) ? -1 : rem;
      abs_num = (rem == 2) ? (abs_num / 3) + 1 : abs_num / 3; }]
    the digits not reached keep the 0 of the allocation *)
Fixpoint fill_trits (len : nat) (abs_num : Z) : list Z :=
  match len with
  | O => []
  | S l =>
      if abs_num >? 0 then
        let rem := Z.rem abs_num 3 in
        u8 (if rem =? 2 then -1 else rem)
           :: fill_trits l (if rem =? 2 then Z.quot abs_num 3 + 1
                            else Z.quot abs_num 3)
      else repeat 0 len
  end.

(** [t81bigint_from_int]; an [int] has at most 21 trits *)
Definition t81bigint_from_int (num : Z) : T81BigInt :=
  if num =? 0 then mkBig TERNARY_ZERO [0]
  else
    let abs_num := Z.abs num in
    let len := count_trits 32 abs_num in
    mkBig (if num <? 0 then TERNARY_NEGATIVE else TERNARY_POSITIVE)
          (fill_trits len abs_num).

(** [while (start > 0 && num->digits[start - 1] == 0) start--;] on the
    digits taken from the top *)
Fixpoint drop_zeros (top_down : list Z) : list Z :=
  match top_down with
  | d :: tl => if d =? 0 then drop_zeros tl else top_down
  | [] => []
  end.

Definition trit_char (b : Z) : Z :=
  let digit := s8 b in
  if digit =? 1 then code "1" else if digit =? -1 then code "T" else code "0".

(** [t81bigint_to_string], as the characters written to [buffer] *)
Definition t81bigint_to_string (num : T81BigInt) : list Z :=
  if sign num =? TERNARY_ZERO then [code "0"]
  else
    match drop_zeros (rev (digits num)) with
    | [] => [code "0"]
    | ds =>
        (if sign num =? TERNARY_NEGATIVE then [code "-"] else [])
          ++ map trit_char ds
    end.

(** the value a character adds to either checksum *)
Definition trit_value (c : Z) : Z :=
  if c =? code "T" then -1 else c - code "0".

(** [for (i = 0; buf[i] && buf[i] != '-'; i++)
      checksum = (checksum + trit_value(buf[i])) % 9;] *)
Fixpoint encode_checksum (buf : list Z) (checksum : Z) : Z :=
  match buf with
  | [] => checksum
  | c :: tl =>
      if c =? code "-" then checksum
      else encode_checksum tl (Z.rem (checksum + trit_value c) 9)
  end.

(** the decimal digits of a positive [int], least significant first *)
Fixpoint dec_digits (fuel : nat) (n : Z) : list Z :=
  match fuel with
  | O => []
  | S f => if n >? 0
           then (code "0" + Z.rem n 10) :: dec_digits f (Z.quot n 10)
           else []
  end.

(** what [sprintf(p, "%d", n)] writes *)
Definition sprintf_d (n : Z) : list Z :=
  if n =? 0 then [code "0"]
  else (if n <? 0 then [code "-"] else []) ++ rev (dec_digits 10 (Z.abs n)).

Definition discrete_opcode_encode (opcode : Z) : list Z :=
  let encoded_buffer := t81bigint_to_string (t81bigint_from_int opcode) in
  let checksum := encode_checksum encoded_buffer 0 in
  encoded_buffer ++ sprintf_d checksum.

Definition isdigit (c : Z) : bool := (code "0" <=? c) && (c <=? code "9").

(** the loop of [discrete_opcode_validate] over the characters before
    the last; [None] is the [return 0] inside the loop *)
Fixpoint validate_sum (cs : list Z) (computed : Z) : option Z :=
  match cs with
  | [] => Some computed
  | c :: tl =>
      if negb (c =? code "T") && negb (c =? code "-")
         && ((c <? code "0") || (c >? code "2"))
      then None
      else validate_sum tl (Z.rem (computed + trit_value c) 9)
  end.

Definition discrete_opcode_validate (encoded_opcode : list Z) : bool :=
  let len := List.length encoded_opcode in
  let last := nth (len - 1) encoded_opcode 0 in
  if (len <? 2)%nat || negb (isdigit last) then false
  else
    match validate_sum (firstn (len - 1) encoded_opcode) 0 with
    | None => false
    | Some computed => computed =? last - code "0"
    end.

(** *** Conversion back to a machine integer *)

Definition INT_MAX : Z := 2147483647.
Definition INT_MIN : Z := -2147483648.

Definition in_int (z : Z) : bool := (INT_MIN <=? z) && (z <=? INT_MAX).

(** the answers of [t81bigint_to_int]: the [int] it returns with [*err]
    left at NO_ERROR, the INVALID_INPUT exit (which returns 0), or an
    arithmetic overflow of [int], which C leaves undefined *)
Inductive int_answer : Type :=
| Int : Z -> int_answer
| Invalid : int_answer
| Overflowed : int_answer.

(** [for (i = num->len; i > 0; i--) { digit = (signed char)digits[i - 1];
      if (result > (INT_MAX - abs(digit)) / 3) { *err = INVALID_INPUT; return 0; }
      result = result * 3 + digit; }]
    on the digits taken from the top *)
Fixpoint to_int_loop (top_down : list Z) (result : Z) : int_answer :=
  match top_down with
  | [] => Int result
  | d :: tl =>
      let digit := s8 d in
      if result >? Z.quot (INT_MAX - Z.abs digit) 3 then Invalid
      else if in_int (result * 3) && in_int (result * 3 + digit)
           then to_int_loop tl (result * 3 + digit)
           else Overflowed
  end.

(** [t81bigint_to_int]; the exit for a zero sign leaves [*err] as the
    caller set it *)
Definition t81bigint_to_int (num : T81BigInt) : int_answer :=
  if sign num =? TERNARY_ZERO then Int 0
  else
    match to_int_loop (rev (digits num)) 0 with
    | Int result =>
        if in_int (result * sign num) then Int (result * sign num) else Overflowed
    | other => other
    end.

(** *** Addition *)

Definition len (x : T81BigInt) : nat := List.length (digits x).

(** [(i < x->len) ? (signed char)x->digits[i] * x->sign : 0] *)
Definition signed_trit (x : T81BigInt) (i : nat) : Z :=
  if (i <? len x)%nat then s8 (nth i (digits x) 0) * sign x else 0.

(** [while (sum > 1) { sum -= 3; carry++; }] *)
Fixpoint reduce_high (fuel : nat) (sum carry : Z) : Z * Z :=
  match fuel with
  | O => (sum, carry)
  | S f => if sum >? 1 then reduce_high f (sum - 3) (carry + 1) else (sum, carry)
  end.

(** [while (sum < -1) { sum += 3; carry--; }] *)
Fixpoint reduce_low (fuel : nat) (sum carry : Z) : Z * Z :=
  match fuel with
  | O => (sum, carry)
  | S f => if sum <? -1 then reduce_low f (sum + 3) (carry - 1) else (sum, carry)
  end.

(** [carry = 0;] and the two loops; each round moves [sum] by 3 towards
    0, so [|sum|] rounds are enough for either *)
Definition normalise (sum : Z) : Z * Z :=
  let '(sum1, carry1) := reduce_high (Z.abs_nat sum) sum 0 in
  reduce_low (Z.abs_nat sum1) sum1 carry1.

(** [for (i = 0; i < max_len || carry; i++) { if (i >= res->len) break;
      sum = digit_a + digit_b + carry; ...; res->digits[i] = (unsigned char)sum; }]
    The index moves up at every round and the loop leaves at [res->len],
    so [res->len + 1] rounds are enough. *)
Fixpoint add_loop (fuel : nat) (a b : T81BigInt) (max_len i : nat)
         (res : list Z) (carry : Z) : list Z * Z :=
  match fuel with
  | O => (res, carry)
  | S f =>
      if (i <? max_len)%nat || negb (carry =? 0) then
        if (List.length res <=? i)%nat then (res, carry)
        else
          let sum := signed_trit a i + signed_trit b i + carry in
          let '(sum1, carry1) := normalise sum in
          add_loop f a b max_len (S i) (upd res i (u8 sum1)) carry1
      else (res, carry)
  end.

(** [t81bigint_add]: the sign of the result is the sign of the carry that
    leaves the loop *)
Definition t81bigint_add (a b : T81BigInt) : T81BigInt :=
  let max_len := Nat.max (len a) (len b) in
  let '(res, carry) :=
    add_loop (max_len + 2) a b max_len 0 (repeat 0 (max_len + 1)) 0 in
  mkBig (if carry <? 0 then TERNARY_NEGATIVE
         else if carry >? 0 then TERNARY_POSITIVE
         else TERNARY_ZERO) res.

(** [t81bigint_sub]: the sum with a copy of [b] of the opposite sign *)
Definition t81bigint_sub (a b : T81BigInt) : T81BigInt :=
  let neg_b :=
    mkBig (if sign b =? TERNARY_POSITIVE then TERNARY_NEGATIVE
           else if sign b =? TERNARY_NEGATIVE then TERNARY_POSITIVE
           else TERNARY_ZERO) (digits b) in
  t81bigint_add a neg_b.

(** *** Trit-wise minimum and maximum *)

(** the common shape of [t81bigint_tand] and [t81bigint_tor]:
    [for (i = 0; i < max_len; i++) res->digits[i] = f(trit_a, trit_b);]
    then the sign is POSITIVE unless every stored byte is 0 *)
Definition trit_binary (f : Z -> Z -> Z) (a b : T81BigInt) : T81BigInt :=
  let max_len := Nat.max (len a) (len b) in
  let res := map (fun i => u8 (f (signed_trit a i) (signed_trit b i)))
                 (seq 0 max_len) in
  mkBig (if forallb (fun d => d =? 0) res then TERNARY_ZERO else TERNARY_POSITIVE)
        res.

Definition t81bigint_tand (a b : T81BigInt) : T81BigInt :=
  trit_binary (fun trit_a trit_b => if trit_a <? trit_b then trit_a else trit_b) a b.

Definition t81bigint_tor (a b : T81BigInt) : T81BigInt :=
  trit_binary (fun trit_a trit_b => if trit_a >? trit_b then trit_a else trit_b) a b.

(** *** Executing an encoded opcode *)

(** an [int] operation whose result leaves the range of [int] is
    undefined in C; [None] stands for it *)
Definition chk (z : Z) : option Z := if in_int z then Some z else None.

(** [for (i = 0; i < len - 1; i++)
      opcode = opcode * 3 + (opcode_str[i] == 'T' ? -1 : (opcode_str[i] - '0'));] *)
Fixpoint decode_opcode (cs : list Z) (opcode : Z) : option Z :=
  match cs with
  | [] => Some opcode
  | c :: tl =>
      match chk (opcode * 3) with
      | None => None
      | Some m =>
          match chk (m + trit_value c) with
          | None => None
          | Some opcode1 => decode_opcode tl opcode1
          end
      end
  end.

(** the loop of TEXP:
    [for (i = 0; i < operand2; i++) {
       if (result > INT_MAX / operand1) return 0;  result *= operand1; }]
    [INT_MAX / 0] is undefined; after the test the product fits *)
Fixpoint exp_loop (rounds : nat) (operand1 result : Z) : option Z :=
  match rounds with
  | O => Some result
  | S r =>
      if operand1 =? 0 then None
      else if result >? Z.quot INT_MAX operand1 then Some 0
      else
        match chk (result * operand1) with
        | None => None
        | Some result1 => exp_loop r operand1 result1
        end
  end.

(** the loop of TGCD: [while (b) { t = b; b = a % b; a = t; }]; [b] is
    not negative and strictly decreases, so [b + 1] rounds are enough *)
Fixpoint gcd_loop (fuel : nat) (a b : Z) : Z :=
  match fuel with
  | O => a
  | S f => if b =? 0 then a else gcd_loop f b (Z.rem a b)
  end.

(** [abs(x)], undefined at [INT_MIN] *)
Definition c_abs (x : Z) : option Z := chk (Z.abs x).

(** the TAND and TOR cases: both operands through [t81bigint_from_int],
    the result through [t81bigint_to_int], 0 on its INVALID_INPUT exit *)
Definition exec_trits (op : T81BigInt -> T81BigInt -> T81BigInt)
           (operand1 operand2 : Z) : option Z :=
  match c_abs operand1, c_abs operand2 with
  | Some _, Some _ =>
      match t81bigint_to_int (op (t81bigint_from_int operand1)
                                 (t81bigint_from_int operand2)) with
      | Int result => Some result
      | Invalid => Some 0
      | Overflowed => None
      end
  | _, _ => None
  end.

(** the [switch (opcode)] of [discrete_opcode_execute]; an opcode
    without a case leaves [result] at 0 *)
Definition opcode_switch (opcode operand1 operand2 : Z) : option Z :=
  if opcode =? TADD then chk (operand1 + operand2)
  else if opcode =? TSUB then chk (operand1 - operand2)
  else if opcode =? TMUL then chk (operand1 * operand2)
  else if opcode =? TMOD then
    if operand2 =? 0 then Some 0
    else
      match chk (Z.quot operand1 operand2) with
      | None => None
      | Some _ =>
          let result := Z.rem operand1 operand2 in
          if result <? 0
          then match c_abs operand2 with
               | Some abs2 => Some (result + abs2)
               | None => None
               end
          else Some result
      end
  else if opcode =? TAND then exec_trits t81bigint_tand operand1 operand2
  else if opcode =? TOR then exec_trits t81bigint_tor operand1 operand2
  else if opcode =? TMAT_ADD then
    match chk (operand1 + operand2) with
    | Some sum => chk (sum * 2)
    | None => None
    end
  else if opcode =? TMAT_MUL then
    match chk (operand1 * operand2) with
    | Some prod => chk (prod * 2)
    | None => None
    end
  else if opcode =? THANOI then
    if (0 <=? operand1) && (operand1 <=? 30)
    then Some (Z.shiftl 1 operand1 - 1)
    else None
  else if opcode =? TEXP then
    if operand2 <? 0 then Some 0
    else exp_loop (Z.to_nat operand2) operand1 1
  else if opcode =? TGCD then
    match c_abs operand1, c_abs operand2 with
    | Some a, Some b => Some (gcd_loop (S (Z.to_nat b)) a b)
    | _, _ => None
    end
  else Some 0.

(** [discrete_opcode_execute]; [opcode_str] has 64 bytes, so an encoding
    of more than 64 characters overruns it.  [None] is an undefined
    operation. *)
Definition discrete_opcode_execute (encoded_opcode : list Z)
           (operand1 operand2 : Z) : option Z :=
  if negb (discrete_opcode_validate encoded_opcode) then Some 0
  else if (operand1 >? Z.quot INT_MAX 2) || (operand2 >? Z.quot INT_MAX 2) then Some 0
  else
    let len := List.length encoded_opcode in
    if (64 <? len)%nat then None
    else
      match decode_opcode (firstn (len - 1) encoded_opcode) 0 with
      | None => None
      | Some opcode => opcode_switch opcode operand1 operand2
      end.

End TritSys.

(** ** Notions of the specification, stated over the embedding *)

Module Spec.

Import TritJS.

(** the magnitude held in a digit array, limb [i] weighing [81^i] *)
Fixpoint value (ds : list Z) : Z :=
  match ds with
  | [] => 0
  | d :: tl => d + BASE_81 * value tl
  end.

(** the integer a [T81BigInt] stands for; a nonzero [sign] field means
    negative *)
Definition to_Z (x : T81BigInt) : Z :=
  if sign x =? 0 then value (digits x) else - value (digits x).

Definition limb_ok (d : Z) : Prop := 0 <= d <= 80.

Definition limbs_ok (ds : list Z) : Prop := Forall limb_ok ds.

Definition is_byte (d : Z) : Prop := 0 <= d < 256.

(** a BigInt the kernel can take: at least one limb, every limb a
    base-81 digit *)
Definition wf (x : T81BigInt) : Prop :=
  digits x <> [] /\ limbs_ok (digits x).

(** canonical form: every limb in [0, 80], no high-order zero limb except
    in the single-limb zero, and zero is not negative.  The program has
    no third sign: its [sign] field is 0 for zero and for positive
    values alike, 1 for negative ones. *)
Definition canonical (x : T81BigInt) : bool :=
  forallb (fun d => (0 <=? d) && (d <=? 80)) (digits x)
  && (1 <=? len x)%nat
  && ((len x =? 1)%nat || negb (last (digits x) 0 =? 0))
  && ((sign x =? 0) || ((sign x =? 1) && negb (all_zero (digits x)))).

(** the four trits packed in a limb, least significant first *)
Definition trits_of_limb (d : Z) : list Z :=
  [d mod 3; d / 3 mod 3; d / 9 mod 3; d / 27 mod 3].

(** the trit view of a BigInt; positions beyond it read as 0 *)
Definition trit_at (x : T81BigInt) (k : nat) : Z :=
  nth k (flat_map trits_of_limb (digits x)) 0.

Definition get (r : outcome T81BigInt) : T81BigInt :=
  match r with
  | Ok x => x
  | Err _ => mkBig 0 []
  end.

(** the trit-wise reading of the logical operations: minimum, maximum,
    [2 - a] and sum modulo 3 at every aligned trit position *)
Definition trit_logic (A B : T81BigInt) : Prop :=
  forall k : nat,
    trit_at (get (tritjs_logical_and A B)) k = Z.min (trit_at A k) (trit_at B k)
    /\ trit_at (get (tritjs_logical_or A B)) k = Z.max (trit_at A k) (trit_at B k)
    /\ ((k < 4 * len A)%nat ->
        trit_at (get (tritjs_logical_not A)) k = 2 - trit_at A k)
    /\ trit_at (get (tritjs_logical_xor A B)) k = (trit_at A k + trit_at B k) mod 3.

(** the character shift of the balanced parser, on characters *)
Definition shift_char (c : ascii) : ascii :=
  match c with
  | "-"%char => "0"%char
  | "0"%char => "1"%char
  | "+"%char => "2"%char
  | _ => c
  end.

Definition balanced_char (c : ascii) : bool :=
  match c with
  | "-"%char | "0"%char | "+"%char => true
  | _ => false
  end.

Fixpoint map_string (f : ascii -> ascii) (s : string) : string :=
  match s with
  | EmptyString => EmptyString
  | String c tl => String (f c) (map_string f tl)
  end.

Fixpoint forall_string (p : ascii -> bool) (s : string) : bool :=
  match s with
  | EmptyString => true
  | String c tl => p c && forall_string p tl
  end.

(** equality of BigInts, field by field *)
Fixpoint digits_eqb (a b : list Z) : bool :=
  match a, b with
  | [], [] => true
  | x :: a', y :: b' => (x =? y) && digits_eqb a' b'
  | _, _ => false
  end.

Definition big_eqb (x y : T81BigInt) : bool :=
  (sign x =? sign y) && digits_eqb (digits x) (digits y).

(** no high-order zero limb, except in a single-limb number *)
Definition stripped (ds : list Z) : Prop :=
  ds <> [] /\ (List.length ds = 1%nat \/ last ds 0 <> 0).

(** the codes from '-' to '2', which contain every character
    [t81bigint_to_trit_string] can write *)
Definition text_code (c : Z) : Prop := 45 <= c <= 50.

(** the codes of the characters '0', '1', '2' *)
Definition trit_code (c : Z) : Prop := 48 <= c <= 50.

(** the number spelled by ternary digit characters, least significant
    first *)
Fixpoint le3 (buf : list Z) : Z :=
  match buf with
  | [] => 0
  | c :: tl => (c - code "0") + 3 * le3 tl
  end.

(** the sign character of the text: a '-' for a nonzero [sign] field,
    except that the single limb 0 always prints as "0" *)
Definition sign_chars (x : T81BigInt) : list Z :=
  if is_zero1 x || (sign x =? 0) then [] else [code "-"].

(** a text without the separator of the cache key *)
Definition no_colon (s : string) : bool :=
  forall_string (fun c => negb (Ascii.eqb c ":")) s.

(** every used entry of the cache holds a BigInt the kernel can take *)
Definition cache_wf (cache : MulCache) : Prop :=
  Forall (fun e => used e = true -> wf (result e)) cache.

(** every used entry of the cache whose key is the key of a pair of
    canonical operands of at most 15 limbs holds the product the
    multiplier computes for that pair *)
Definition cache_sound (cache : MulCache) : Prop :=
  Forall (fun e =>
            used e = true ->
            forall a b : T81BigInt,
              canonical a = true -> canonical b = true ->
              (len a <= 15)%nat -> (len b <= 15)%nat ->
              cache_key a b = Some (key e) ->
              result e = t81bigint_karatsuba_multiply a b) cache.

(** the number spelled by ternary digit characters, most significant
    first *)
Definition be3 (cs : list Z) : Z :=
  fold_left (fun acc c => 3 * acc + (c - code "0")) cs 0.

(** the integer a ternary text spells: an optional leading '-', then
    digits *)
Definition text_value (s : string) : Z :=
  match chars s with
  | [] => 0
  | c0 :: tl => if c0 =? code "-" then - be3 tl else be3 (c0 :: tl)
  end.

(** the characters after the optional leading '-' *)
Definition text_body (s : string) : list Z :=
  match chars s with
  | [] => []
  | c0 :: tl => if c0 =? code "-" then tl else c0 :: tl
  end.

(** a ternary text in the sense of the parser: not the empty string,
    and only '0', '1', '2' after the optional leading '-' *)
Definition trit_text (s : string) : bool :=
  match chars s with
  | [] => false
  | _ :: _ => forallb is_trit_char (text_body s)
  end.

(** what the parser keeps true of its accumulator: base-81 limbs, at
    least one of them, and the sign read from the text *)
Definition acc_ok (sg : Z) (o : T81BigInt) : Prop :=
  limbs_ok (digits o) /\ digits o <> [] /\ sign o = sg.

(** [n!] *)
Fixpoint factorial (n : nat) : Z :=
  match n with
  | O => 1
  | S m => Z.of_nat n * factorial m
  end.

(** all the slots of the cache are in use *)
Definition cache_full (cache : MulCache) : bool := forallb used cache.

(** *** Notions for the balanced trits of tritsys-1.0.c *)

(** a stored trit: 0, 1, or the byte 255 that stands for -1 *)
Definition trit_ok (d : Z) : Prop := d = 0 \/ d = 1 \/ d = 255.

(** the integer held in an array of balanced trits, trit [i] weighing
    [3^i], each trit read through [(signed char)] as the code reads it *)
Fixpoint bal3 (ds : list Z) : Z :=
  match ds with
  | [] => 0
  | d :: tl => s8 d + 3 * bal3 tl
  end.

(** the characters ['0'], ['1'] and ['T'] that [t81bigint_to_string]
    writes for the trits *)
Definition digit_char (c : Z) : Prop := c = 48 \/ c = 49 \/ c = 84.

(** a BigInt of tritsys-1.0.c as its constructors leave it: stored trits
    and a sign of -1, 0 or 1 *)
Definition trits_wf (x : TritSys.T81BigInt) : Prop :=
  Forall trit_ok (TritSys.digits x) /\ -1 <= TritSys.sign x <= 1.

(** the integer such a BigInt holds when its trits are weighted by its
    sign, as the addition reads them *)
Definition signed_value (x : TritSys.T81BigInt) : Z :=
  TritSys.sign x * bal3 (TritSys.digits x).

(** what is left of such a BigInt from trit [i] up, in units of [3^i] *)
Definition signed_tail (x : TritSys.T81BigInt) (i : nat) : Z :=
  TritSys.sign x * bal3 (skipn i (TritSys.digits x)).

End Spec.

(** ** Properties *)

Import TritJS Spec.

(** *** Characters and texts *)

Section Texts.

Lemma char_of_code (c : ascii) : char_of (code c) = c.
Proof.
  unfold char_of, code. rewrite N2Z.id. apply ascii_N_embedding.
Qed.

Lemma text_chars (s : string) : text (chars s) = s.
Proof.
  unfold text, chars. rewrite map_map.
  rewrite (map_ext _ (fun c => c)) by apply char_of_code.
  rewrite map_id. apply string_of_list_ascii_of_string.
Qed.

Lemma chars_String (c : ascii) (s : string) :
  chars (String c s) = code c :: chars s.
Proof. reflexivity. Qed.

Lemma unbalance_code (c : ascii) :
  unbalance (code c) =
    if balanced_char c then Some (code (shift_char c)) else None.
Proof.
  destruct c as [[] [] [] [] [] [] [] []]; reflexivity.
Qed.

Lemma unbalance_all_chars (s : string) :
  unbalance_all (chars s) =
    if forall_string balanced_char s
    then Some (chars (map_string shift_char s))
    else None.
Proof.
  induction s as [|c s IH]; [reflexivity|].
  rewrite chars_String. cbn [unbalance_all forall_string map_string].
  rewrite unbalance_code. destruct (balanced_char c); [|reflexivity].
  rewrite IH. cbn [andb]. destruct (forall_string balanced_char s); reflexivity.
Qed.

End Texts.

(** *** Balanced ternary parsing *)

(** C4, as stated, at the text of scenario S6: the parser rejects ["1T"],
    while the machine integer 2 converts to the single limb 2. *)
Lemma balanced_parse_rejects_1T :
  parse_balanced_trit_string "1T" = Err InvalidInput
  /\ binary_to_trit 2 = Ok (mkBig 0 [2])
  /\ parse_balanced_trit_string "1T" <> binary_to_trit 2.
Proof.
  repeat split; try reflexivity. vm_compute. discriminate.
Qed.

(** C4, amended: the alphabet of the balanced parser is '-', '0', '+',
    with no separate sign.  A text over it is shifted character by
    character ('-' to '0', '0' to '1', '+' to '2') and parsed as unsigned
    ternary; any other character, 'T' and '1' included, is InvalidInput. *)
Theorem balanced_parse_shift (s : string) :
  parse_balanced_trit_string s =
    if forall_string balanced_char s
    then parse_trit_string (map_string shift_char s)
    else Err InvalidInput.
Proof.
  unfold parse_balanced_trit_string. rewrite unbalance_all_chars.
  destruct (forall_string balanced_char s); [|reflexivity].
  now rewrite text_chars.
Qed.

(** the shifted digits are read as plain ternary: "+-" is the limb 6 *)
Example balanced_plus_minus :
  parse_balanced_trit_string "+-" = Ok (mkBig 0 [6]).
Proof. reflexivity. Qed.

(** *** Ternary logical operations *)

Section Logic.

Lemma nth_map_seq (f : nat -> Z) (n i : nat) :
  nth i (map f (seq 0 n)) 0 = if (i <? n)%nat then f i else 0.
Proof.
  destruct (Nat.ltb_spec i n) as [Hlt|Hge].
  - rewrite (nth_indep _ 0 (f 0%nat)) by (now rewrite length_map, length_seq).
    rewrite map_nth, seq_nth by assumption. reflexivity.
  - apply nth_overflow. now rewrite length_map, length_seq.
Qed.

Lemma digit_is_byte (x : T81BigInt) (i : nat) :
  Forall is_byte (digits x) -> is_byte (digit x i).
Proof.
  intros H. unfold digit.
  destruct (Nat.lt_ge_cases i (List.length (digits x))) as [Hlt|Hge].
  - rewrite Forall_forall in H. apply H, nth_In, Hlt.
  - rewrite nth_overflow by assumption. unfold is_byte. lia.
Qed.

Lemma digit_limb_ok (x : T81BigInt) (i : nat) :
  limbs_ok (digits x) -> limb_ok (digit x i).
Proof.
  intros H. unfold digit.
  destruct (Nat.lt_ge_cases i (List.length (digits x))) as [Hlt|Hge].
  - unfold limbs_ok in H. rewrite Forall_forall in H. apply H, nth_In, Hlt.
  - rewrite nth_overflow by assumption. unfold limb_ok. lia.
Qed.

Lemma digit_beyond (x : T81BigInt) (i : nat) :
  (len x <= i)%nat -> digit x i = 0.
Proof. intros H. now apply nth_overflow. Qed.

Lemma u8_byte (d : Z) : is_byte d -> u8 d = d.
Proof. intros H. unfold u8. apply Z.mod_small, H. Qed.

Lemma ternary_and_min (a b : Z) : ternary_and a b = Z.min a b.
Proof. unfold ternary_and. destruct (Z.ltb_spec a b); lia. Qed.

Lemma ternary_or_max (a b : Z) : ternary_or a b = Z.max a b.
Proof.
  unfold ternary_or. rewrite Z.gtb_ltb. destruct (Z.ltb_spec b a); lia.
Qed.

Lemma ternary_xor_mod (a b : Z) :
  0 <= a -> 0 <= b -> ternary_xor a b = (a + b) mod 3.
Proof. intros. unfold ternary_xor. apply Z.rem_mod_nonneg; lia. Qed.

(** a digit of the result of a binary operation that maps (0, 0) to 0 *)
Lemma digit_logical_binary (f : Z -> Z -> Z) (A B : T81BigInt) (i : nat) :
  u8 (f 0 0) = 0 ->
  digit (logical_binary f A B) i = u8 (f (digit A i) (digit B i)).
Proof.
  intros H0. unfold logical_binary, digit at 1. cbn [digits].
  rewrite nth_map_seq. destruct (Nat.ltb_spec i (Nat.max (len A) (len B))).
  - reflexivity.
  - rewrite !digit_beyond by lia. now rewrite H0.
Qed.

End Logic.

(** C7, as stated, fails at the limbs 5 (trits 2,1) and 7 (trits 1,2): the
    lowest trit of the result of [and] is 2, the minimum of the lowest
    trits is 1. *)
Lemma trit_logic_fails : ~ trit_logic (mkBig 0 [5]) (mkBig 0 [7]).
Proof.
  intros H. destruct (H 0%nat) as [Hand _]. vm_compute in Hand. discriminate.
Qed.

(** C7, amended: the logical operations work limb by limb over the
    base-81 digits, the shorter operand read as 0 limbs: a limb of [and]
    is the minimum of the operands' limbs, a limb of [or] their maximum,
    a limb of [xor] their sum modulo 3, and a limb of [not] is 2 minus the
    operand's limb where that limb is at most 2. *)
Theorem logical_ops_limbwise (A B : T81BigInt) :
  Forall is_byte (digits A) -> Forall is_byte (digits B) ->
  exists Rand Ror Rxor Rnot,
    tritjs_logical_and A B = Ok Rand /\ tritjs_logical_or A B = Ok Ror
    /\ tritjs_logical_xor A B = Ok Rxor /\ tritjs_logical_not A = Ok Rnot
    /\ len Rand = Nat.max (len A) (len B)
    /\ len Ror = Nat.max (len A) (len B)
    /\ len Rxor = Nat.max (len A) (len B)
    /\ len Rnot = len A
    /\ forall i : nat,
         digit Rand i = Z.min (digit A i) (digit B i)
         /\ digit Ror i = Z.max (digit A i) (digit B i)
         /\ digit Rxor i = (digit A i + digit B i) mod 3
         /\ ((i < len A)%nat -> digit A i <= 2 -> digit Rnot i = 2 - digit A i).
Proof.
  intros HA HB. do 4 eexists.
  do 4 (split; [reflexivity|]).
  repeat split;
    try (unfold len, logical_binary; cbn [digits];
         now rewrite length_map, ?length_seq).
  - rewrite digit_logical_binary by reflexivity.
    rewrite ternary_and_min. apply u8_byte.
    pose proof (digit_is_byte A i HA). pose proof (digit_is_byte B i HB).
    unfold is_byte in *. lia.
  - rewrite digit_logical_binary by reflexivity.
    rewrite ternary_or_max. apply u8_byte.
    pose proof (digit_is_byte A i HA). pose proof (digit_is_byte B i HB).
    unfold is_byte in *. lia.
  - rewrite digit_logical_binary by reflexivity.
    pose proof (digit_is_byte A i HA) as Ha.
    pose proof (digit_is_byte B i HB) as Hb. unfold is_byte in *.
    rewrite ternary_xor_mod by lia. apply u8_byte.
    pose proof (Z.mod_pos_bound (digit A i + digit B i) 3). unfold is_byte. lia.
  - intros Hi Hle. unfold digit at 1. cbn [digits].
    rewrite (nth_indep _ 0 (u8 (ternary_not 0)))
      by (now rewrite length_map).
    rewrite (map_nth (fun d => u8 (ternary_not d))).
    fold (digit A i). unfold ternary_not. apply u8_byte.
    pose proof (digit_is_byte A i HA). unfold is_byte in *. lia.
Qed.

Lemma logical_ops_limbwise_witness :
  exists Rand Ror Rxor Rnot,
    tritjs_logical_and (mkBig 0 [5; 1]) (mkBig 1 [7]) = Ok Rand
    /\ tritjs_logical_or (mkBig 0 [5; 1]) (mkBig 1 [7]) = Ok Ror
    /\ tritjs_logical_xor (mkBig 0 [5; 1]) (mkBig 1 [7]) = Ok Rxor
    /\ tritjs_logical_not (mkBig 0 [5; 1]) = Ok Rnot
    /\ len Rand = 2%nat /\ len Ror = 2%nat /\ len Rxor = 2%nat /\ len Rnot = 2%nat
    /\ forall i : nat,
         digit Rand i = Z.min (digit (mkBig 0 [5; 1]) i) (digit (mkBig 1 [7]) i)
         /\ digit Ror i = Z.max (digit (mkBig 0 [5; 1]) i) (digit (mkBig 1 [7]) i)
         /\ digit Rxor i = (digit (mkBig 0 [5; 1]) i + digit (mkBig 1 [7]) i) mod 3
         /\ ((i < 2)%nat -> digit (mkBig 0 [5; 1]) i <= 2 ->
             digit Rnot i = 2 - digit (mkBig 0 [5; 1]) i).
Proof.
  apply (logical_ops_limbwise (mkBig 0 [5; 1]) (mkBig 1 [7]));
    repeat constructor; unfold is_byte; cbn; lia.
Defined.

(** C5, as stated, at the canonical operands 82 and 1: [and] returns the
    limbs [1; 0], with a high-order zero limb. *)
Lemma logical_and_keeps_zero_limb :
  canonical (mkBig 0 [1; 1]) = true /\ canonical (mkBig 0 [1]) = true
  /\ tritjs_logical_and (mkBig 0 [1; 1]) (mkBig 0 [1]) = Ok (mkBig 0 [1; 0])
  /\ canonical (mkBig 0 [1; 0]) = false.
Proof. repeat split. Qed.

(** C5, amended: a logical operation returns a BigInt whose [sign] field
    is 0 and which has exactly as many limbs as the longer operand, high
    zero limbs included; every limb of the result of [and], [or] and
    [xor] is a base-81 digit when the operands' limbs are. *)
Theorem logical_ops_shape (A B : T81BigInt) :
  limbs_ok (digits A) -> limbs_ok (digits B) ->
  (forall op,
      In op [tritjs_logical_and; tritjs_logical_or; tritjs_logical_xor] ->
      exists R, op A B = Ok R /\ sign R = 0
                /\ len R = Nat.max (len A) (len B) /\ limbs_ok (digits R))
  /\ exists R, tritjs_logical_not A = Ok R /\ sign R = 0 /\ len R = len A.
Proof.
  intros HA HB. split.
  - assert (forall f,
               (forall a b, limb_ok a -> limb_ok b -> limb_ok (f a b)) ->
               limbs_ok (digits (logical_binary f A B))) as Hbin.
    { intros f Hf. unfold logical_binary. cbn [digits].
      apply Forall_forall. intros d Hd. apply in_map_iff in Hd as (i & <- & _).
      pose proof (Hf _ _ (digit_limb_ok A i HA) (digit_limb_ok B i HB)) as Hr.
      rewrite u8_byte; [exact Hr|].
      unfold limb_ok in Hr. unfold is_byte. lia. }
    assert (forall f, len (logical_binary f A B) = Nat.max (len A) (len B)) as Hlen.
    { intros f. unfold len at 1, logical_binary. cbn [digits].
      now rewrite length_map, length_seq. }
    intros op [<-|[<-|[<-|[]]]]; eexists; (split; [reflexivity|]);
      (split; [reflexivity|]); (split; [apply Hlen|]); apply Hbin;
      unfold limb_ok; intros a b Ha Hb.
    + rewrite ternary_and_min. lia.
    + rewrite ternary_or_max. lia.
    + rewrite ternary_xor_mod by lia.
      pose proof (Z.mod_pos_bound (a + b) 3). lia.
  - eexists. split; [reflexivity|]. split; [reflexivity|].
    unfold len. cbn [digits]. apply length_map.
Qed.

Lemma logical_ops_shape_witness :
  (forall op,
      In op [tritjs_logical_and; tritjs_logical_or; tritjs_logical_xor] ->
      exists R, op (mkBig 0 [80; 1]) (mkBig 1 [7]) = Ok R /\ sign R = 0
                /\ len R = Nat.max (len (mkBig 0 [80; 1])) (len (mkBig 1 [7]))
                /\ limbs_ok (digits R))
  /\ exists R, tritjs_logical_not (mkBig 0 [80; 1]) = Ok R /\ sign R = 0
               /\ len R = len (mkBig 0 [80; 1]).
Proof.
  apply (logical_ops_shape (mkBig 0 [80; 1]) (mkBig 1 [7]));
    repeat constructor; unfold limb_ok; lia.
Defined.

(** what C5 and C7 leave open about [not]: at the canonical BigInt 80 it
    stores [(unsigned char)(2 - 80)], the byte 178, which is no base-81
    digit *)
Example logical_not_leaves_limb_range :
  canonical (mkBig 0 [80]) = true
  /\ tritjs_logical_not (mkBig 0 [80]) = Ok (mkBig 0 [178])
  /\ canonical (mkBig 0 [178]) = false.
Proof. repeat split. Qed.

(** *** Parsing and printing *)

(** C2 at the canonical BigInt 82, limbs [1; 1]: its text is "10001", and
    parsing that text yields the limbs [0; 1], the number 81.  When the
    second loop of the parser carries out of the top limb,
    [allocate_digits] hands out fresh zeroed storage and the limbs
    accumulated so far are gone. *)
Theorem parse_to_text_loses_limbs :
  canonical (mkBig 0 [1; 1]) = true
  /\ t81bigint_to_trit_string (mkBig 0 [1; 1]) = Some "10001"%string
  /\ parse_trit_string "10001" = Ok (mkBig 0 [0; 1])
  /\ to_Z (mkBig 0 [1; 1]) = 82 /\ to_Z (mkBig 0 [0; 1]) = 81.
Proof. repeat split. Qed.

(** where the limb vector never grows the round trip holds: every
    canonical BigInt of a single limb, of either sign, is the parse of its
    text *)
Example roundtrip_single_limb :
  forallb (fun x =>
             match t81bigint_to_trit_string x with
             | Some s =>
                 match parse_trit_string s with
                 | Ok y => big_eqb x y
                 | Err _ => false
                 end
             | None => false
             end)
          (map (fun d => mkBig 0 [Z.of_nat d]) (seq 0 81)
           ++ map (fun d => mkBig 1 [Z.of_nat d]) (seq 1 80))
  = true.
Proof. vm_compute. reflexivity. Qed.

(** *** Multiplication *)

(** C3 at two 18-limb operands, A = 80 * 81^8 + 81^17 and B = 1: the
    halves of A add up to 81^9, the carry out of the top limb of [sumA] is
    dropped, and the product differs from the schoolbook one. *)
Theorem karatsuba_differs_from_schoolbook :
  let A := repeat 0 8 ++ [80] ++ repeat 0 8 ++ [1] in
  let B := 1 :: repeat 0 17 in
  value (naive_mul A 18 B 18) = value A * value B
  /\ karatsuba A B 18 <> naive_mul A 18 B 18
  /\ value (karatsuba A B 18) <> value A * value B
  /\ to_Z (t81bigint_karatsuba_multiply (mkBig 0 A) (mkBig 0 [1])) <> to_Z (mkBig 0 A).
Proof.
  cbv zeta. split; [vm_compute; reflexivity|].
  split; [|split]; intros H; vm_compute in H; discriminate H.
Qed.

(** *** Division *)

(** C1 at A = 1, B = 1: the running remainder starts as a copy of A, so the
    first position divides 82 by 1; the quotient is the byte 82 and the
    remainder 0, and Q * B + R is 82. *)
Theorem divide_big_one_by_one :
  tritjs_divide_big 100 (mkBig 0 [1]) (mkBig 0 [1])
    = Some (Ok (mkBig 0 [82], mkBig 0 [0]))
  /\ to_Z (mkBig 0 [82]) * to_Z (mkBig 0 [1]) + to_Z (mkBig 0 [0])
       <> to_Z (mkBig 0 [1])
  /\ canonical (mkBig 0 [82]) = false.
Proof.
  split; [vm_compute; reflexivity|].
  split; [intros H; vm_compute in H; discriminate H | reflexivity].
Qed.

(** a divisor whose limbs are all zero signals DivZero, whatever the
    dividend *)
Lemma divide_big_by_zero (fuel : nat) (a b : T81BigInt) :
  all_zero (digits b) = true ->
  tritjs_divide_big fuel a b = Some (Err DivZero).
Proof. intros H. unfold tritjs_divide_big. now rewrite H. Qed.

(** *** The key of the multiplication cache *)

Section CacheKey.

Lemma substring_all (s : string) :
  forall n : nat, (String.length s <= n)%nat -> substring 0 n s = s.
Proof.
  induction s as [|c s IH]; intros [|n] H; cbn in *; try reflexivity; try lia.
  f_equal. apply IH. lia.
Qed.

Lemma string_length_app (s t : string) :
  String.length (s ++ t) = (String.length s + String.length t)%nat.
Proof. induction s as [|c s IH]; cbn; [reflexivity | now rewrite IH]. Qed.

Lemma split_at_colon (a : string) :
  forall b x y : string,
    no_colon a = true -> no_colon b = true ->
    (a ++ ":" ++ x = b ++ ":" ++ y)%string -> a = b /\ x = y.
Proof.
  induction a as [|c a IH]; intros [|d b] x y Ha Hb E; cbn in *.
  - injection E as E. now split.
  - injection E as E1 E2. subst d. discriminate Hb.
  - injection E as E1 E2. subst c. discriminate Ha.
  - injection E as E1 E2. subst d.
    apply andb_true_iff in Ha as [_ Ha]. apply andb_true_iff in Hb as [_ Hb].
    destruct (IH b x y Ha Hb E2) as [-> ->]. now split.
Qed.

Lemma div3_carry (ds : list Z) : -2 <= snd (div3 ds) <= 2.
Proof.
  destruct ds as [|d tl]; cbn; [lia|].
  destruct (div3 tl) as [tl' carry]. cbn.
  pose proof (Z.rem_bound_abs (d + carry * BASE_81) 3). lia.
Qed.

Lemma trit_loop_codes (room : nat) :
  forall (ds buf out : list Z),
    Forall text_code buf ->
    trit_loop room ds buf = Some out -> Forall text_code out.
Proof.
  induction room as [|room IH]; intros ds buf out Hbuf E; cbn in E.
  - destruct (all_zero ds); [|discriminate].
    destruct buf; [discriminate|]. now injection E as <-.
  - destruct (all_zero ds).
    + destruct buf; injection E as <-; [|assumption].
      constructor; [|constructor]. unfold text_code.
      change (code "0") with 48. lia.
    + pose proof (div3_carry ds) as Hc.
      destruct (div3 ds) as [q carry]. cbn in Hc.
      apply IH in E; [assumption|].
      apply Forall_app. split; [assumption|].
      constructor; [|constructor]. unfold text_code.
      change (code "0") with 48. lia.
Qed.

Lemma text_no_colon (l : list Z) :
  Forall text_code l -> no_colon (text l) = true.
Proof.
  induction 1 as [|c l Hc _ IH]; [reflexivity|].
  change (text (c :: l)) with (String (char_of c) (text l)).
  change (negb (Ascii.eqb (char_of c) ":") && no_colon (text l) = true).
  rewrite IH, andb_true_r. unfold text_code in Hc.
  assert (c = 45 \/ c = 46 \/ c = 47 \/ c = 48 \/ c = 49 \/ c = 50) as E by lia.
  destruct E as [->|[->|[->|[->|[->| ->]]]]]; reflexivity.
Qed.

Lemma trit_string_no_colon (x : T81BigInt) (s : string) :
  t81bigint_to_trit_string x = Some s -> no_colon s = true.
Proof.
  unfold t81bigint_to_trit_string.
  destruct ((len x =? 1)%nat && (digit x 0 =? 0)).
  - now intros [= <-].
  - destruct (trit_loop _ _ _) as [buf|] eqn:E; [|discriminate].
    apply trit_loop_codes in E; [|constructor].
    destruct (_ <? _)%nat; [|discriminate]. intros [= <-].
    apply text_no_colon, Forall_rev.
    destruct (sign x =? 0); [assumption|].
    apply Forall_app. split; [assumption|].
    constructor; [|constructor]. unfold text_code.
    change (code "-") with 45. lia.
Qed.

Lemma mul_key_whole (as_ bs : string) :
  (String.length as_ + String.length bs <= 122)%nat ->
  mul_key as_ bs = ("mul:" ++ as_ ++ ":" ++ bs)%string.
Proof.
  intros H. unfold mul_key. apply substring_all.
  rewrite !string_length_app. cbn. lia.
Qed.

End CacheKey.

(** C8, as stated, at A = 1 and B = 2: the two orders give the keys
    "mul:1:2" and "mul:2:1", and multiplying in both orders from the
    empty cache fills two entries. *)
Lemma cache_key_not_symmetric :
  cache_key (mkBig 0 [1]) (mkBig 0 [2]) = Some "mul:1:2"%string
  /\ cache_key (mkBig 0 [2]) (mkBig 0 [1]) = Some "mul:2:1"%string
  /\ cache_key (mkBig 0 [1]) (mkBig 0 [2]) <> cache_key (mkBig 0 [2]) (mkBig 0 [1])
  /\ exists out1 c1 out2 c2,
       multiply_with_cache mul_cache_init (mkBig 0 [1]) (mkBig 0 [2]) = Some (out1, c1)
       /\ multiply_with_cache c1 (mkBig 0 [2]) (mkBig 0 [1]) = Some (out2, c2)
       /\ List.length (filter used c1) = 1%nat
       /\ List.length (filter used c2) = 2%nat.
Proof.
  split; [reflexivity|]. split; [reflexivity|]. split; [discriminate|].
  do 4 eexists. repeat split; vm_compute; reflexivity.
Qed.

(** C8, amended: the key is built from the operand texts in the order of
    the call, "mul:" then the text of the first operand, ":" and the text
    of the second, cut to 127 characters.  For texts short enough not to
    be cut, the key of (A, B) equals the key of (B, A) exactly when A and B
    have the same text; the two orders of different operands are separate
    entries. *)
Theorem cache_key_ordered (a b : T81BigInt) (as_ bs : string) :
  t81bigint_to_trit_string a = Some as_ ->
  t81bigint_to_trit_string b = Some bs ->
  (String.length as_ + String.length bs <= 122)%nat ->
  cache_key a b = Some ("mul:" ++ as_ ++ ":" ++ bs)%string
  /\ cache_key b a = Some ("mul:" ++ bs ++ ":" ++ as_)%string
  /\ (cache_key a b = cache_key b a <-> as_ = bs).
Proof.
  intros Ha Hb Hlen. unfold cache_key. rewrite Ha, Hb.
  rewrite !mul_key_whole by lia.
  split; [reflexivity|]. split; [reflexivity|]. split.
  - intros [= E].
    apply (split_at_colon as_ bs bs as_);
      eauto using trit_string_no_colon.
  - now intros ->.
Qed.

Lemma cache_key_ordered_witness :
  cache_key (mkBig 0 [5]) (mkBig 1 [7; 2])
    = Some ("mul:" ++ "12" ++ ":" ++ "-20021")%string
  /\ cache_key (mkBig 1 [7; 2]) (mkBig 0 [5])
    = Some ("mul:" ++ "-20021" ++ ":" ++ "12")%string
  /\ (cache_key (mkBig 0 [5]) (mkBig 1 [7; 2])
        = cache_key (mkBig 1 [7; 2]) (mkBig 0 [5])
      <-> "12"%string = "-20021"%string).
Proof.
  apply (cache_key_ordered (mkBig 0 [5]) (mkBig 1 [7; 2]) "12" "-20021");
    [reflexivity | reflexivity | cbn; lia].
Defined.

(** *** Digit arrays and their values *)

Section Arrays.

Context {A : Type}.

Lemma length_upd (l : list A) (i : nat) (v : A) :
  List.length (upd l i v) = List.length l.
Proof.
  revert i. induction l as [|x l IH]; intros [|i]; cbn; auto.
Qed.

Lemma nth_upd_same (l : list A) (i : nat) (v d : A) :
  (i < List.length l)%nat -> nth i (upd l i v) d = v.
Proof.
  revert i. induction l as [|x l IH]; intros [|i] H; cbn in *; try lia; auto.
  apply IH. lia.
Qed.

Lemma nth_upd_other (l : list A) (i j : nat) (v d : A) :
  i <> j -> nth j (upd l i v) d = nth j l d.
Proof.
  revert i j. induction l as [|x l IH]; intros [|i] [|j] H; cbn; auto; try lia.
Qed.

Lemma upd_beyond (l : list A) (i : nat) (v : A) :
  (List.length l <= i)%nat -> upd l i v = l.
Proof.
  revert i. induction l as [|x l IH]; intros [|i] H; cbn in *; auto; try lia.
  f_equal. apply IH. lia.
Qed.

Lemma Forall_upd (P : A -> Prop) (l : list A) (i : nat) (v : A) :
  Forall P l -> P v -> Forall P (upd l i v).
Proof.
  intros Hl Hv. revert i.
  induction Hl as [|x l Hx Hl IH]; intros [|i]; cbn; auto.
Qed.

(** a loop invariant carried through [for_up] *)
Lemma for_up_inv {St : Type} (I : nat -> St -> Prop)
      (body : nat -> St -> St) (s : St) (n : nat) :
  I 0%nat s ->
  (forall i st, (i < n)%nat -> I i st -> I (S i) (body i st)) ->
  I n (for_up n body s).
Proof.
  intros H0 Hstep. induction n as [|n IH]; cbn; [assumption|].
  apply Hstep; [lia|]. apply IH. intros i st Hi. apply Hstep. lia.
Qed.

End Arrays.

Section Values.

Lemma value_app (a b : list Z) :
  value (a ++ b) = value a + BASE_81 ^ Z.of_nat (List.length a) * value b.
Proof.
  induction a as [|d a IH]; cbn [app value List.length].
  - change (Z.of_nat 0) with 0. rewrite Z.pow_0_r. lia.
  - rewrite IH, Nat2Z.inj_succ, Z.pow_succ_r by lia. lia.
Qed.

Lemma value_repeat0 (n : nat) : value (repeat 0 n) = 0.
Proof. induction n as [|n IH]; cbn [repeat value]; [|rewrite IH]; lia. Qed.

Lemma value_pad (ds : list Z) (n : nat) : value (ds ++ repeat 0 n) = value ds.
Proof. rewrite value_app, value_repeat0. lia. Qed.

Lemma limbs_ok_repeat0 (n : nat) : limbs_ok (repeat 0 n).
Proof. apply Forall_forall. intros x Hx. apply repeat_spec in Hx. subst. unfold limb_ok. lia. Qed.

Lemma limbs_ok_nth (ds : list Z) (i : nat) : limbs_ok ds -> limb_ok (nth i ds 0).
Proof.
  intros H. destruct (Nat.lt_ge_cases i (List.length ds)) as [Hlt|Hge].
  - unfold limbs_ok in H. rewrite Forall_forall in H. apply H, nth_In, Hlt.
  - rewrite nth_overflow by assumption. unfold limb_ok. lia.
Qed.

Lemma value_bound (ds : list Z) :
  limbs_ok ds -> 0 <= value ds < BASE_81 ^ Z.of_nat (List.length ds).
Proof.
  induction 1 as [|d ds Hd _ IH]; cbn [value List.length].
  - change (Z.of_nat 0) with 0. rewrite Z.pow_0_r. lia.
  - rewrite Nat2Z.inj_succ, Z.pow_succ_r by lia.
    unfold limb_ok in Hd. unfold BASE_81 in *. lia.
Qed.

Lemma value_upd (l : list Z) :
  forall (i : nat) (v : Z),
    (i < List.length l)%nat ->
    value (upd l i v) = value l + (v - nth i l 0) * BASE_81 ^ Z.of_nat i.
Proof.
  induction l as [|x l IH]; intros [|i] v H; cbn [upd value nth List.length] in *; try lia.
  rewrite IH by lia. rewrite Nat2Z.inj_succ, Z.pow_succ_r by lia. lia.
Qed.

Lemma value_firstn_S (l : list Z) :
  forall i : nat,
    value (firstn (S i) l) = value (firstn i l) + nth i l 0 * BASE_81 ^ Z.of_nat i.
Proof.
  induction l as [|x l IH]; intros i.
  - rewrite !firstn_nil. destruct i; cbn [value nth]; lia.
  - destruct i as [|i].
    + rewrite firstn_cons, !firstn_O. cbn [value nth]. lia.
    + rewrite !firstn_cons. cbn [value nth]. rewrite IH.
      rewrite Nat2Z.inj_succ, Z.pow_succ_r by lia. lia.
Qed.

Lemma all_zero_value (ds : list Z) :
  limbs_ok ds -> all_zero ds = true <-> value ds = 0.
Proof.
  induction 1 as [|d ds Hd Hds IH]; cbn [all_zero forallb value]; [tauto|].
  fold (all_zero ds). pose proof (value_bound ds Hds) as Hb.
  unfold limb_ok in Hd. unfold BASE_81 in *.
  rewrite andb_true_iff, Z.eqb_eq, IH. lia.
Qed.

End Values.

Section Stripping.

Lemma strip_rev_zeros (r : list Z) :
  exists z : nat, r = repeat 0 z ++ strip_rev r.
Proof.
  induction r as [|d r IH]; [now exists 0%nat|].
  destruct r as [|d' r]; [now exists 0%nat|].
  cbn [strip_rev]. destruct (Z.eqb_spec d 0) as [->|Hd]; [|now exists 0%nat].
  destruct IH as [z IH]. exists (S z). cbn [repeat app]. now f_equal.
Qed.

Lemma strip_rev_head (r : list Z) :
  r <> [] ->
  strip_rev r <> [] /\ (List.length (strip_rev r) = 1%nat \/ hd 0 (strip_rev r) <> 0).
Proof.
  induction r as [|d r IH]; [congruence|]. intros _.
  destruct r as [|d' r]; [cbn; split; [congruence | now left]|].
  cbn [strip_rev]. destruct (Z.eqb_spec d 0) as [->|Hd].
  - apply IH. congruence.
  - split; [congruence | now right].
Qed.

Lemma rev_repeat0 (z : nat) : rev (repeat 0 z) = repeat 0 z.
Proof.
  induction z as [|z IH]; [reflexivity|].
  cbn [repeat rev]. rewrite IH. clear IH.
  induction z as [|z IH]; [reflexivity|]. cbn [repeat app]. now rewrite IH.
Qed.

Lemma strip_zeros (ds : list Z) :
  exists z : nat, ds = strip ds ++ repeat 0 z.
Proof.
  destruct (strip_rev_zeros (rev ds)) as [z E]. exists z. unfold strip.
  rewrite <- (rev_involutive ds) at 1. rewrite E at 1.
  now rewrite rev_app_distr, rev_repeat0.
Qed.

Lemma value_strip (ds : list Z) : value (strip ds) = value ds.
Proof.
  destruct (strip_zeros ds) as [z E]. rewrite E at 2. now rewrite value_pad.
Qed.

Lemma limbs_ok_strip (ds : list Z) : limbs_ok ds -> limbs_ok (strip ds).
Proof.
  intros H. destruct (strip_zeros ds) as [z E]. rewrite E in H.
  now apply Forall_app in H.
Qed.

Lemma last_rev (l : list Z) : last (rev l) 0 = hd 0 l.
Proof.
  destruct l as [|x l]; [reflexivity|]. cbn [rev hd]. apply last_last.
Qed.

Lemma stripped_strip (ds : list Z) : ds <> [] -> stripped (strip ds).
Proof.
  intros H. unfold strip, stripped.
  destruct (strip_rev_head (rev ds)) as [Hne Hhd].
  { intros E. apply H. now rewrite <- (rev_involutive ds), E. }
  split.
  - intros E. apply Hne. now rewrite <- (rev_involutive (strip_rev _)), E.
  - rewrite length_rev, last_rev. exact Hhd.
Qed.

Lemma value_ge_top (ds : list Z) :
  limbs_ok ds -> ds <> [] -> last ds 0 <> 0 ->
  BASE_81 ^ (Z.of_nat (List.length ds) - 1) <= value ds.
Proof.
  induction 1 as [|d ds Hd Hds IH]; [congruence|]. intros _ Hlast.
  destruct ds as [|d' ds].
  - cbn in *. unfold limb_ok in Hd. lia.
  - change (last (d :: d' :: ds) 0) with (last (d' :: ds) 0) in Hlast.
    specialize (IH ltac:(congruence) Hlast).
    cbn [value List.length] in *. rewrite !Nat2Z.inj_succ in *.
    replace (Z.succ (Z.succ (Z.of_nat (List.length ds))) - 1)
      with (Z.succ (Z.succ (Z.of_nat (List.length ds)) - 1)) by lia.
    rewrite Z.pow_succ_r by lia. unfold limb_ok in Hd. unfold BASE_81 in *. lia.
Qed.

Lemma limbs_of_value (a : list Z) :
  forall b : list Z,
    limbs_ok a -> limbs_ok b -> List.length a = List.length b ->
    value a = value b -> a = b.
Proof.
  induction a as [|x a IH]; intros [|y b] Ha Hb Hlen Hv; cbn in Hlen; try lia.
  - reflexivity.
  - inversion Ha as [|? ? Hx Ha']; inversion Hb as [|? ? Hy Hb']; subst.
    cbn [value] in Hv. unfold limb_ok, BASE_81 in *.
    assert (x = y) by lia. subst y. f_equal. apply IH; auto; lia.
Qed.

Lemma stripped_length_le (a b : list Z) :
  limbs_ok a -> limbs_ok b -> stripped a -> b <> [] ->
  value a = value b -> (List.length a <= List.length b)%nat.
Proof.
  intros Ha Hb [Hne [Hone|Hlast]] Hbne Hv.
  - destruct b; [congruence|]. cbn. lia.
  - pose proof (value_ge_top a Ha Hne Hlast) as Hlo.
    pose proof (value_bound b Hb) as Hhi. rewrite Hv in Hlo.
    assert (BASE_81 ^ (Z.of_nat (List.length a) - 1)
            < BASE_81 ^ Z.of_nat (List.length b)) as Hpow by lia.
    apply Z.pow_lt_mono_r_iff in Hpow; unfold BASE_81; lia.
Qed.

Lemma stripped_unique (a b : list Z) :
  limbs_ok a -> limbs_ok b -> stripped a -> stripped b ->
  value a = value b -> a = b.
Proof.
  intros Ha Hb Sa Sb Hv. apply limbs_of_value; auto.
  apply Nat.le_antisymm.
  - apply stripped_length_le; auto. apply Sb.
  - apply stripped_length_le; auto. apply Sa.
Qed.

Lemma canonical_iff (x : T81BigInt) :
  canonical x = true <->
  limbs_ok (digits x) /\ stripped (digits x)
  /\ (sign x = 0 \/ (sign x = 1 /\ all_zero (digits x) = false)).
Proof.
  unfold canonical, stripped, limbs_ok, len.
  rewrite !andb_true_iff, !orb_true_iff, andb_true_iff, forallb_forall, Forall_forall.
  rewrite !Nat.eqb_eq, Nat.leb_le, !negb_true_iff, !Z.eqb_eq, Z.eqb_neq.
  assert ((forall d, In d (digits x) -> (0 <=? d) && (d <=? 80) = true)
          <-> (forall d, In d (digits x) -> limb_ok d)) as ->.
  { unfold limb_ok.
    split; intros Hl d Hd; specialize (Hl d Hd);
      rewrite andb_true_iff, !Z.leb_le in *; exact Hl. }
  assert ((1 <= List.length (digits x))%nat <-> digits x <> []) as ->.
  { destruct (digits x); cbn; split; intros; try congruence; lia. }
  tauto.
Qed.

End Stripping.

(** *** The text of a BigInt *)

Section TextOf.

Lemma trit_loop_eq (room : nat) (ds buf : list Z) :
  trit_loop room ds buf =
    if all_zero ds then
      match buf, room with
      | [], S _ => Some [code "0"]
      | [], O => None
      | _ :: _, _ => Some buf
      end
    else
      match room with
      | O => None
      | S room' =>
          let '(q, carry) := div3 ds in
          trit_loop room' q (buf ++ [code "0" + carry])
      end.
Proof. destruct room; reflexivity. Qed.

Lemma div3_spec (ds : list Z) :
  limbs_ok ds ->
  limbs_ok (fst (div3 ds))
  /\ List.length (fst (div3 ds)) = List.length ds
  /\ 0 <= snd (div3 ds) <= 2
  /\ value ds = 3 * value (fst (div3 ds)) + snd (div3 ds).
Proof.
  induction 1 as [|d ds Hd Hds IH]; cbn [div3].
  - cbn. repeat split; try lia. constructor.
  - destruct (div3 ds) as [q carry]. cbn [fst snd] in *.
    destruct IH as (Hq & Hlen & Hc & Hv).
    unfold limb_ok, BASE_81 in *.
    assert (0 <= d + carry * 81 <= 242) as Hval by lia.
    pose proof (Z.quot_div_nonneg (d + carry * 81) 3 ltac:(lia) ltac:(lia)) as Eq.
    pose proof (Z.rem_mod_nonneg (d + carry * 81) 3 ltac:(lia) ltac:(lia)) as Er.
    pose proof (Z.div_mod (d + carry * 81) 3 ltac:(lia)) as Edm.
    pose proof (Z.mod_pos_bound (d + carry * 81) 3 ltac:(lia)) as Hm.
    rewrite Eq, Er.
    assert (0 <= (d + carry * 81) / 3 <= 80) as Hq0 by lia.
    rewrite u8_byte by (unfold is_byte; lia).
    repeat split; try lia.
    + constructor; [unfold limb_ok; lia | exact Hq].
    + cbn [List.length]. lia.
    + cbn [value]. unfold BASE_81. lia.
Qed.

Lemma le3_app (buf : list Z) (c : Z) :
  le3 (buf ++ [c]) = le3 buf + 3 ^ Z.of_nat (List.length buf) * (c - code "0").
Proof.
  induction buf as [|b buf IH]; cbn [app le3 List.length].
  - rewrite Z.pow_0_r. lia.
  - rewrite IH, Nat2Z.inj_succ, Z.pow_succ_r by lia. lia.
Qed.

Lemma all_zero_false_pos (ds : list Z) :
  limbs_ok ds -> all_zero ds = false -> 0 < value ds.
Proof.
  intros H E. pose proof (value_bound ds H) as Hb.
  destruct (Z.eq_dec (value ds) 0) as [E0|]; [|lia].
  apply all_zero_value in E0; [congruence | assumption].
Qed.

Lemma trit_loop_spec (room : nat) :
  forall (k : nat) (ds buf : list Z),
    limbs_ok ds -> Forall trit_code buf ->
    value ds < 3 ^ Z.of_nat k -> (k <= room)%nat ->
    (buf <> [] \/ 1 <= room)%nat ->
    exists out : list Z,
      trit_loop room ds buf = Some out
      /\ out <> []
      /\ Forall trit_code out
      /\ (List.length out <= Nat.max 1 (List.length buf + k))%nat
      /\ le3 out = le3 buf + 3 ^ Z.of_nat (List.length buf) * value ds.
Proof.
  induction room as [|room IH]; intros k ds buf Hds Hbuf Hv Hk Hroom;
    rewrite trit_loop_eq.
  - assert (k = 0%nat) as -> by lia. rewrite Z.pow_0_r in Hv.
    pose proof (value_bound ds Hds) as Hb. assert (value ds = 0) as Hz by lia.
    rewrite (proj2 (all_zero_value ds Hds) Hz), Hz.
    destruct buf as [|b buf]; [destruct Hroom; [congruence | lia]|].
    exists (b :: buf). repeat split; auto; try congruence; cbn [List.length]; lia.
  - destruct (all_zero ds) eqn:Ez.
    + rewrite (proj1 (all_zero_value ds Hds) Ez).
      destruct buf as [|b buf].
      * exists [code "0"]. split; [reflexivity|]. split; [congruence|].
        split; [|split].
        -- constructor; [|constructor]. unfold trit_code.
           change (code "0") with 48. lia.
        -- cbn [List.length]. lia.
        -- cbn [le3 List.length]. lia.
      * exists (b :: buf). repeat split; auto; try congruence; cbn [List.length]; lia.
    + pose proof (all_zero_false_pos ds Hds Ez) as Hpos.
      destruct k as [|k]; [rewrite Z.pow_0_r in Hv; lia|].
      destruct (div3_spec ds Hds) as (Hq & _ & Hc & Hdv).
      destruct (div3 ds) as [q carry]. cbn [fst snd] in *.
      rewrite Nat2Z.inj_succ, Z.pow_succ_r in Hv by lia.
      destruct (IH k q (buf ++ [code "0" + carry])) as (out & E & Hne & Hout & Hlen & Hle);
        auto; try lia.
      { apply Forall_app. split; [assumption|]. constructor; [|constructor].
        unfold trit_code. change (code "0") with 48. lia. }
      { left. destruct buf; cbn; congruence. }
      exists out. repeat split; auto.
      * rewrite length_app in Hlen. cbn [List.length] in Hlen. lia.
      * rewrite Hle, le3_app, length_app, Nat2Z.inj_add.
        cbn [List.length]. rewrite Z.pow_add_r by lia.
        change (Z.of_nat 1) with 1. rewrite Z.pow_1_r. lia.
Qed.

End TextOf.

Section TextInjective.

Lemma pow81_pow3 (n : nat) : BASE_81 ^ Z.of_nat n = 3 ^ Z.of_nat (4 * n).
Proof.
  rewrite Nat2Z.inj_mul, Z.pow_mul_r by lia. reflexivity.
Qed.

Lemma is_zero1_digits (x : T81BigInt) : is_zero1 x = true <-> digits x = [0].
Proof.
  unfold is_zero1, len, digit. destruct (digits x) as [|d [|d' tl]]; cbn.
  - split; congruence.
  - rewrite Z.eqb_eq. split; congruence.
  - split; congruence.
Qed.

Lemma trit_string_spec (x : T81BigInt) :
  wf x ->
  exists buf : list Z,
    t81bigint_to_trit_string x = Some (text (rev (buf ++ sign_chars x)))
    /\ buf <> [] /\ Forall trit_code buf
    /\ (List.length buf <= 4 * len x)%nat
    /\ le3 buf = value (digits x).
Proof.
  intros [Hne Hok]. unfold t81bigint_to_trit_string, sign_chars.
  fold (is_zero1 x). destruct (is_zero1 x) eqn:Ez.
  - apply is_zero1_digits in Ez. exists [code "0"]. unfold len. rewrite Ez.
    repeat split; try congruence; try (cbn; lia).
    constructor; [|constructor]. unfold trit_code. change (code "0") with 48. lia.
  - assert (1 <= len x)%nat as Hlen.
    { unfold len. destruct (digits x); [congruence | cbn; lia]. }
    destruct (trit_loop_spec (len x * 4 + 2) (4 * len x) (digits x) [])
      as (buf & E & Hbne & Hbuf & Hblen & Hle); auto; try lia.
    { rewrite <- pow81_pow3. apply value_bound, Hok. }
    rewrite E. cbn [orb List.length] in *. exists buf.
    rewrite Z.pow_0_r in Hle.
    assert (Nat.ltb (List.length (if sign x =? 0 then buf else buf ++ [code "-"]))
                    (len x * 4 + 2) = true) as ->.
    { apply Nat.ltb_lt. destruct (sign x =? 0); rewrite ?length_app; cbn; lia. }
    repeat split; auto; try lia.
    + destruct (sign x =? 0); [now rewrite app_nil_r | reflexivity].
    + cbn [le3] in Hle. lia.
Qed.

Lemma code_char_of (c : Z) : 0 <= c < 256 -> code (char_of c) = c.
Proof.
  intros H. unfold code, char_of. rewrite N_ascii_embedding by lia. lia.
Qed.

Lemma chars_text (l : list Z) :
  Forall is_byte l -> chars (text l) = l.
Proof.
  intros H. unfold chars, text. rewrite list_ascii_of_string_of_list_ascii, map_map.
  induction H as [|c l Hc _ IH]; [reflexivity|].
  cbn [map]. now rewrite code_char_of, IH.
Qed.

Lemma text_length (l : list Z) : String.length (text l) = List.length l.
Proof.
  unfold text. induction l as [|c l IH]; [reflexivity|]. cbn. now rewrite IH.
Qed.

Lemma text_chars_bytes (buf : list Z) (x : T81BigInt) :
  Forall trit_code buf -> Forall is_byte (rev (buf ++ sign_chars x)).
Proof.
  intros H. apply Forall_rev, Forall_app. split.
  - eapply Forall_impl; [|exact H]. unfold trit_code, is_byte. intros; lia.
  - unfold sign_chars. destruct (_ || _); [constructor|].
    constructor; [|constructor]. unfold is_byte. change (code "-") with 45. lia.
Qed.

Lemma canonical_sign_chars (x : T81BigInt) :
  canonical x = true ->
  (sign x = 0 /\ sign_chars x = []) \/ (sign x = 1 /\ sign_chars x = [code "-"]).
Proof.
  intros H. apply canonical_iff in H as (_ & _ & [Hs|[Hs Hz]]); unfold sign_chars.
  - left. rewrite Hs. now rewrite orb_true_r.
  - right. rewrite Hs. split; [reflexivity|].
    destruct (is_zero1 x) eqn:E; [|reflexivity].
    apply is_zero1_digits in E. rewrite E in Hz. discriminate.
Qed.

Lemma canonical_wf (x : T81BigInt) : canonical x = true -> wf x.
Proof.
  intros H. apply canonical_iff in H as (Hok & [Hne _] & _). now split.
Qed.

(** the text of a canonical BigInt determines it *)
Lemma trit_string_inj (x y : T81BigInt) :
  canonical x = true -> canonical y = true ->
  t81bigint_to_trit_string x = t81bigint_to_trit_string y -> x = y.
Proof.
  intros Cx Cy E.
  destruct (trit_string_spec x (canonical_wf x Cx)) as (bx & Ex & _ & Hbx & _ & Hvx).
  destruct (trit_string_spec y (canonical_wf y Cy)) as (by_ & Ey & _ & Hby & _ & Hvy).
  rewrite Ex, Ey in E. injection E as E.
  apply (f_equal chars) in E.
  rewrite !chars_text in E by now apply text_chars_bytes.
  apply (f_equal (@rev Z)) in E. rewrite !rev_involutive in E.
  assert (bx = by_ /\ sign x = sign y) as [Eb Es].
  { destruct (canonical_sign_chars x Cx) as [[Sx Tx]|[Sx Tx]];
      destruct (canonical_sign_chars y Cy) as [[Sy Ty]|[Sy Ty]];
      rewrite Tx, Ty in E.
    - rewrite !app_nil_r in E. split; congruence.
    - rewrite app_nil_r in E. subst bx. apply Forall_app in Hbx as [_ Hbx].
      inversion Hbx as [|? ? Hc _]. unfold trit_code in Hc.
      change (code "-") with 45 in Hc. lia.
    - rewrite app_nil_r in E. subst by_. apply Forall_app in Hby as [_ Hby].
      inversion Hby as [|? ? Hc _]. unfold trit_code in Hc.
      change (code "-") with 45 in Hc. lia.
    - apply app_inj_tail in E as [E _]. split; congruence. }
  apply canonical_iff in Cx as (Hx & Sx & _). apply canonical_iff in Cy as (Hy & Sy & _).
  assert (digits x = digits y) as Ed.
  { apply stripped_unique; auto. congruence. }
  destruct x, y. cbn in *. congruence.
Qed.

End TextInjective.

(** *** Schoolbook multiplication *)

Section Schoolbook.

Lemma limb_divmod (val : Z) :
  0 <= val <= 6560 ->
  0 <= Z.rem val BASE_81 <= 80 /\ 0 <= Z.quot val BASE_81 <= 80
  /\ val = BASE_81 * Z.quot val BASE_81 + Z.rem val BASE_81.
Proof.
  intros H. unfold BASE_81.
  rewrite Z.quot_div_nonneg, Z.rem_mod_nonneg by lia.
  Z.to_euclidean_division_equations. lia.
Qed.

Variables (A B : list Z) (alen blen : nat).
Hypothesis HA : limbs_ok A.
Hypothesis HB : limbs_ok B.
Hypothesis HlenB : List.length B = blen.

Lemma mul_row (i : nat) (out o : list Z) (carry : Z) :
  limbs_ok out -> (i + blen < List.length out)%nat ->
  (forall k, (i + blen <= k)%nat -> nth k out 0 = 0) ->
  naive_mul_row A B blen i out = (o, carry) ->
  limbs_ok o
  /\ List.length o = List.length out
  /\ 0 <= carry <= 80
  /\ value o + carry * BASE_81 ^ Z.of_nat (i + blen)
     = value out + nth i A 0 * value B * BASE_81 ^ Z.of_nat i
  /\ (forall k, (i + blen <= k)%nat -> nth k o 0 = 0).
Proof.
  intros Hout Hlen Hzero E.
  pose (I := fun (j : nat) (st : list Z * Z) =>
    limbs_ok (fst st) /\ List.length (fst st) = List.length out
    /\ 0 <= snd st <= 80
    /\ value (fst st) + snd st * BASE_81 ^ Z.of_nat (i + j)
       = value out + nth i A 0 * value (firstn j B) * BASE_81 ^ Z.of_nat i
    /\ (forall k, (i + blen <= k)%nat -> nth k (fst st) 0 = 0)).
  assert (I blen (naive_mul_row A B blen i out)) as HI.
  { unfold naive_mul_row. apply for_up_inv; unfold I.
    - cbn [fst snd firstn value]. repeat split; auto; lia.
    - intros j [o' c] Hj (Ho & Hl & Hc & Hv & Hz). cbn [fst snd] in *.
      pose proof (limbs_ok_nth o' (i + j) Ho) as Hop.
      pose proof (limbs_ok_nth A i HA) as Ha.
      pose proof (limbs_ok_nth B j HB) as Hb. unfold limb_ok in *.
      set (val := nth (i + j) o' 0 + nth i A 0 * nth j B 0 + c) in *.
      assert (0 <= val <= 6560) as Hval by (unfold val; nia).
      destruct (limb_divmod val Hval) as (Hr & Hq & Edm).
      rewrite u8_byte by (unfold is_byte; lia).
      repeat split; try lia.
      + apply Forall_upd; [assumption | unfold limb_ok; lia].
      + now rewrite length_upd.
      + rewrite value_upd by lia. rewrite value_firstn_S.
        replace (Z.of_nat (i + S j)) with (Z.succ (Z.of_nat (i + j))) by lia.
        rewrite Z.pow_succ_r by lia.
        rewrite Nat2Z.inj_add, Z.pow_add_r in * by lia.
        set (Pi := BASE_81 ^ Z.of_nat i) in *.
        set (Pj := BASE_81 ^ Z.of_nat j) in *.
        set (r := Z.rem val BASE_81) in *. set (q := Z.quot val BASE_81) in *.
        assert (value o' = value out + nth i A 0 * value (firstn j B) * Pi
                           - c * (Pi * Pj)) as -> by lia.
        assert (r = val - BASE_81 * q) as -> by lia. unfold val. ring.
      + intros k Hk. rewrite nth_upd_other by lia. now apply Hz. }
  unfold I in HI. rewrite E, firstn_all2 in HI by lia. exact HI.
Qed.

Lemma naive_mul_spec :
  List.length A = alen ->
  limbs_ok (naive_mul A alen B blen)
  /\ List.length (naive_mul A alen B blen) = (alen + blen)%nat
  /\ value (naive_mul A alen B blen) = value A * value B.
Proof.
  intros HlenA. unfold naive_mul.
  pose (J := fun (i : nat) (out : list Z) =>
    limbs_ok out /\ List.length out = (alen + blen)%nat
    /\ value out = value (firstn i A) * value B
    /\ (forall k, (i + blen <= k)%nat -> nth k out 0 = 0)).
  match goal with |- context [for_up alen ?body ?init] =>
    assert (J alen (for_up alen body init)) as HJ end.
  { apply for_up_inv; unfold J.
    - repeat split.
      + apply limbs_ok_repeat0.
      + apply repeat_length.
      + rewrite value_repeat0. cbn [firstn value]. lia.
      + intros k _. destruct (Nat.lt_ge_cases k (alen + blen)).
        * apply nth_repeat_lt. lia.
        * apply nth_overflow. rewrite repeat_length. lia.
    - intros i out Hi (Hout & Hl & Hv & Hz).
      destruct (naive_mul_row A B blen i out) as [o carry] eqn:E.
      destruct (mul_row i out o carry Hout ltac:(lia) Hz E)
        as (Ho & Hlo & Hc & Hvo & Hzo).
      rewrite Hzo by lia. rewrite Z.add_0_l.
      rewrite u8_byte by (unfold is_byte; lia).
      repeat split.
      + apply Forall_upd; [assumption | unfold limb_ok; lia].
      + rewrite length_upd. lia.
      + rewrite value_upd by lia. rewrite Hzo by lia.
        rewrite value_firstn_S, Hv in *. lia.
      + intros k Hk. rewrite nth_upd_other by lia. apply Hzo. lia. }
  unfold J in HJ. rewrite firstn_all2 in HJ by lia.
  destruct HJ as (H1 & H2 & H3 & _). auto.
Qed.

End Schoolbook.

(** *** Ranges of the multiplication kernel, for operands of any length *)

Section Ranges.

Lemma u8_is_byte (z : Z) : is_byte (u8 z).
Proof. unfold is_byte, u8. apply Z.mod_pos_bound. lia. Qed.

Lemma limbs_are_bytes (ds : list Z) : limbs_ok ds -> Forall is_byte ds.
Proof.
  apply Forall_impl. unfold limb_ok, is_byte. intros; lia.
Qed.

Lemma bytes_nth (ds : list Z) (i : nat) : Forall is_byte ds -> 0 <= nth i ds 0.
Proof.
  intros H. destruct (Nat.lt_ge_cases i (List.length ds)) as [Hlt|Hge].
  - rewrite Forall_forall in H. apply (H (nth i ds 0)), nth_In, Hlt.
  - rewrite nth_overflow by assumption. lia.
Qed.

Lemma rem_quot_nonneg (v : Z) :
  0 <= v -> 0 <= Z.rem v BASE_81 <= 80 /\ 0 <= Z.quot v BASE_81.
Proof.
  intros H. unfold BASE_81.
  rewrite Z.quot_div_nonneg, Z.rem_mod_nonneg by lia.
  Z.to_euclidean_division_equations. lia.
Qed.

Lemma ripple_spec (fuel : nat) :
  forall (r : list Z) (cpos : nat) (carry : Z),
    limbs_ok r -> 0 <= carry ->
    limbs_ok (ripple fuel r cpos carry)
    /\ List.length (ripple fuel r cpos carry) = List.length r.
Proof.
  induction fuel as [|fuel IH]; intros r cpos carry Hr Hc; cbn [ripple]; [auto|].
  destruct ((carry =? 0) || negb (cpos <? List.length r)%nat); [auto|].
  pose proof (limbs_ok_nth r cpos Hr) as Hn. unfold limb_ok in Hn.
  destruct (rem_quot_nonneg (nth cpos r 0 + carry) ltac:(lia)) as (Hrem & Hq).
  rewrite u8_byte by (unfold is_byte; lia).
  destruct (IH (upd r cpos (Z.rem (nth cpos r 0 + carry) BASE_81)) (S cpos)
               (Z.quot (nth cpos r 0 + carry) BASE_81)) as (H1 & H2); auto.
  { apply Forall_upd; [assumption | unfold limb_ok; lia]. }
  split; [assumption|]. now rewrite H2, length_upd.
Qed.

Lemma add_shifted_spec (dest src : list Z) (slen shift : nat) :
  limbs_ok dest -> Forall is_byte src ->
  limbs_ok (add_shifted dest src slen shift)
  /\ List.length (add_shifted dest src slen shift) = List.length dest.
Proof.
  intros Hd Hs. unfold add_shifted.
  pose (I := fun (_ : nat) (st : list Z * Z) =>
    limbs_ok (fst st) /\ List.length (fst st) = List.length dest /\ 0 <= snd st).
  match goal with |- context [for_up slen ?body ?init] =>
    assert (I slen (for_up slen body init)) as HI end.
  { apply for_up_inv; unfold I.
    - cbn. repeat split; auto. lia.
    - intros i [d carry] _ (Hd' & Hl & Hc). cbn [fst snd] in *.
      destruct (List.length dest <=? i + shift)%nat; [cbn; auto|].
      pose proof (limbs_ok_nth d (i + shift) Hd') as Hn. unfold limb_ok in Hn.
      pose proof (bytes_nth src i Hs) as Hsi.
      destruct (rem_quot_nonneg (nth (i + shift) d 0 + nth i src 0 + carry)
                  ltac:(lia)) as (Hrem & Hq).
      rewrite u8_byte by (unfold is_byte; lia). cbn [fst snd].
      repeat split; try lia.
      + apply Forall_upd; [assumption | unfold limb_ok; lia].
      + now rewrite length_upd. }
  destruct (for_up slen _ _) as [d1 carry]. unfold I in HI. cbn [fst snd] in HI.
  destruct HI as (H1 & H2 & H3).
  destruct (ripple_spec (List.length dest) d1 (slen + shift) carry H1 H3) as (R1 & R2).
  split; [assumption | congruence].
Qed.

Lemma sub_inplace_spec (out src : list Z) (n : nat) :
  Forall is_byte out ->
  Forall is_byte (sub_inplace out src n)
  /\ List.length (sub_inplace out src n) = List.length out.
Proof.
  intros Ho. unfold sub_inplace.
  pose (I := fun (_ : nat) (st : list Z * Z) =>
    Forall is_byte (fst st) /\ List.length (fst st) = List.length out).
  match goal with |- context [for_up n ?body ?init] =>
    assert (I n (for_up n body init)) as HI end.
  { apply for_up_inv; unfold I; [cbn; auto|].
    intros i [o b] _ (Ho' & Hl). cbn [fst snd] in *.
    destruct (_ <? 0); cbn [fst]; rewrite length_upd;
      (split; [apply Forall_upd; [assumption | apply u8_is_byte] | assumption]). }
  exact HI.
Qed.

Lemma naive_mul_bytes (A B : list Z) (alen blen : nat) :
  Forall is_byte (naive_mul A alen B blen)
  /\ List.length (naive_mul A alen B blen) = (alen + blen)%nat.
Proof.
  unfold naive_mul.
  pose (J := fun (_ : nat) (out : list Z) =>
    Forall is_byte out /\ List.length out = (alen + blen)%nat).
  match goal with |- context [for_up alen ?body ?init] =>
    assert (J alen (for_up alen body init)) as HJ end.
  { apply for_up_inv; unfold J.
    - split; [|apply repeat_length].
      apply limbs_are_bytes, limbs_ok_repeat0.
    - intros i out _ (Ho & Hl).
      assert (J blen (fst (naive_mul_row A B blen i out))) as HI.
      { unfold naive_mul_row.
        apply (for_up_inv (fun j st => J j (fst st))); unfold J; [cbn; auto|].
        intros j [o carry] _ (Ho' & Hl'). cbn [fst snd] in *.
        rewrite length_upd. split; [|assumption].
        apply Forall_upd; [assumption | apply u8_is_byte]. }
      destruct (naive_mul_row A B blen i out) as [out1 carry]. cbn [fst] in HI.
      destruct HI as (H1 & H2). rewrite length_upd. split; [|assumption].
      apply Forall_upd; [assumption | apply u8_is_byte]. }
  exact HJ.
Qed.

Lemma pad_bytes (p : list Z) (n : nat) :
  Forall is_byte p -> Forall is_byte (p ++ repeat 0 n).
Proof.
  intros H. apply Forall_app. split; [assumption|].
  apply limbs_are_bytes, limbs_ok_repeat0.
Qed.

Lemma karatsuba_rec_bytes (depth : nat) :
  forall (A B : list Z) (n : nat),
    Forall is_byte (karatsuba_rec depth A B n)
    /\ List.length (karatsuba_rec depth A B n) = (2 * n)%nat.
Proof.
  induction depth as [|depth IH]; intros A B n; cbn [karatsuba_rec].
  - destruct (naive_mul_bytes A B n n) as (H1 & H2). split; [assumption | lia].
  - destruct (n <=? 16)%nat.
    + destruct (naive_mul_bytes A B n n) as (H1 & H2). split; [assumption | lia].
    + cbv zeta.
      set (p1 := _ ++ repeat 0 (2 * n - List.length (karatsuba_rec depth A B (n / 2)))).
      set (p2 := _ ++ repeat 0 (2 * n - List.length (karatsuba_rec depth (skipn (n / 2) A) _ _))).
      set (p3 := _ ++ repeat 0 (2 * n - List.length (karatsuba_rec depth (half_sum _ _ _ _) _ _))).
      assert (Forall is_byte p1) as B1 by apply pad_bytes, IH.
      assert (Forall is_byte p2) as B2 by apply pad_bytes, IH.
      assert (Forall is_byte p3) as B3 by apply pad_bytes, IH.
      destruct (sub_inplace_spec p3 p1 (2 * n) B3) as (S1 & _).
      destruct (sub_inplace_spec _ p2 (2 * n) S1) as (S2 & _).
      destruct (add_shifted_spec (repeat 0 (2 * n)) p1 (2 * n) 0
                  (limbs_ok_repeat0 _) B1) as (O1 & L1).
      destruct (add_shifted_spec _ _ (2 * n) (n / 2) O1 S2) as (O2 & L2).
      destruct (add_shifted_spec _ p2 (2 * n) (2 * (n / 2)) O2 B2) as (O3 & L3).
      split; [now apply limbs_are_bytes|].
      rewrite L3, L2, L1. apply repeat_length.
Qed.

Lemma karatsuba_rec_limbs (depth : nat) (A B : list Z) (n : nat) :
  limbs_ok A -> limbs_ok B -> List.length A = n -> List.length B = n ->
  limbs_ok (karatsuba_rec depth A B n).
Proof.
  intros HA HB LA LB.
  assert (limbs_ok (naive_mul A n B n)) as Hnaive
    by apply (naive_mul_spec A B n n HA HB LB LA).
  destruct depth as [|depth]; cbn [karatsuba_rec]; [assumption|].
  destruct (n <=? 16)%nat; [assumption|]. cbv zeta.
  set (p1 := _ ++ repeat 0 (2 * n - List.length (karatsuba_rec depth A B (n / 2)))).
  set (p2 := _ ++ repeat 0 (2 * n - List.length (karatsuba_rec depth (skipn (n / 2) A) _ _))).
  set (p3 := _ ++ repeat 0 (2 * n - List.length (karatsuba_rec depth (half_sum _ _ _ _) _ _))).
  assert (Forall is_byte p1) as B1 by apply pad_bytes, karatsuba_rec_bytes.
  assert (Forall is_byte p2) as B2 by apply pad_bytes, karatsuba_rec_bytes.
  assert (Forall is_byte p3) as B3 by apply pad_bytes, karatsuba_rec_bytes.
  destruct (sub_inplace_spec p3 p1 (2 * n) B3) as (S1 & _).
  destruct (sub_inplace_spec _ p2 (2 * n) S1) as (S2 & _).
  destruct (add_shifted_spec (repeat 0 (2 * n)) p1 (2 * n) 0
              (limbs_ok_repeat0 _) B1) as (O1 & L1).
  destruct (add_shifted_spec _ _ (2 * n) (n / 2) O1 S2) as (O2 & L2).
  destruct (add_shifted_spec _ p2 (2 * n) (2 * (n / 2)) O2 B2) as (O3 & L3).
  exact O3.
Qed.

End Ranges.

(** *** The product of two BigInts *)

Section Product.

Lemma karatsuba_small (A B : list Z) (n : nat) :
  (n <= 16)%nat -> karatsuba A B n = naive_mul A n B n.
Proof.
  intros H. unfold karatsuba. destruct n as [|n]; [reflexivity|].
  cbn [karatsuba_rec]. now rewrite (proj2 (Nat.leb_le _ _) H).
Qed.

Lemma length_pad (ds : list Z) (n : nat) :
  (List.length ds <= n)%nat ->
  List.length (ds ++ repeat 0 (n - List.length ds)) = n.
Proof. intros H. rewrite length_app, repeat_length. lia. Qed.

Lemma limbs_ok_pad (ds : list Z) (n : nat) :
  limbs_ok ds -> limbs_ok (ds ++ repeat 0 n).
Proof.
  intros H. apply Forall_app. split; [assumption | apply limbs_ok_repeat0].
Qed.

Lemma multiply_wf (a b : T81BigInt) :
  wf a -> wf b -> wf (t81bigint_karatsuba_multiply a b).
Proof.
  intros [Na Ha] [Nb Hb]. unfold t81bigint_karatsuba_multiply.
  destruct (is_zero1 a || is_zero1 b).
  - split; [discriminate|]. repeat constructor; unfold limb_ok; lia.
  - cbn [digits]. set (n := Nat.max (len a) (len b)).
    assert (limbs_ok (karatsuba (digits a ++ repeat 0 (n - len a))
                                (digits b ++ repeat 0 (n - len b)) n)) as Hk.
    { apply karatsuba_rec_limbs; auto using limbs_ok_pad;
        apply length_pad; unfold n, len; lia. }
    split.
    + apply stripped_strip. intros E.
      pose proof (proj2 (karatsuba_rec_bytes n (digits a ++ repeat 0 (n - len a))
                           (digits b ++ repeat 0 (n - len b)) n)) as Hl.
      fold (karatsuba (digits a ++ repeat 0 (n - len a))
                      (digits b ++ repeat 0 (n - len b)) n) in Hl.
      rewrite E in Hl. cbn in Hl.
      assert (1 <= len a)%nat by (unfold len; destruct (digits a); [congruence | cbn; lia]).
      unfold n in Hl. lia.
    + now apply limbs_ok_strip.
Qed.

Lemma canonical_nonzero (x : T81BigInt) :
  canonical x = true -> is_zero1 x = false -> 0 < value (digits x).
Proof.
  intros C Z. apply canonical_iff in C as (Hok & [Hne [Hone|Hlast]] & _).
  - destruct (digits x) as [|d [|d' tl]] eqn:E; cbn in Hone; try lia; try congruence.
    inversion Hok as [|? ? Hd _]. unfold limb_ok in Hd. cbn [value].
    destruct (Z.eq_dec d 0) as [->|]; [|lia].
    rewrite (proj2 (is_zero1_digits x) E) in Z. discriminate.
  - pose proof (value_ge_top _ Hok Hne Hlast) as H.
    assert (0 < BASE_81 ^ (Z.of_nat (List.length (digits x)) - 1)); [|lia].
    apply Z.pow_pos_nonneg; [unfold BASE_81; lia|].
    destruct (digits x); [congruence | cbn [List.length]; lia].
Qed.

Lemma to_Z_abs (x : T81BigInt) :
  limbs_ok (digits x) -> Z.abs (to_Z x) = value (digits x).
Proof.
  intros H. pose proof (value_bound _ H). unfold to_Z.
  destruct (sign x =? 0); lia.
Qed.

Lemma multiply_small (a b : T81BigInt) :
  canonical a = true -> canonical b = true ->
  (len a <= 16)%nat -> (len b <= 16)%nat ->
  canonical (t81bigint_karatsuba_multiply a b) = true
  /\ to_Z (t81bigint_karatsuba_multiply a b) = to_Z a * to_Z b.
Proof.
  intros Ca Cb La Lb. unfold t81bigint_karatsuba_multiply.
  destruct (is_zero1 a) eqn:Za; cbn [orb].
  { apply is_zero1_digits in Za. split; [reflexivity|].
    unfold to_Z at 2. rewrite Za. cbn. destruct (sign a =? 0); reflexivity. }
  destruct (is_zero1 b) eqn:Zb.
  { apply is_zero1_digits in Zb. split; [reflexivity|].
    unfold to_Z at 3. rewrite Zb. cbn [value]. destruct (sign b =? 0); cbn; lia. }
  pose proof (canonical_nonzero a Ca Za) as Pa.
  pose proof (canonical_nonzero b Cb Zb) as Pb.
  pose proof Ca as Ca'. pose proof Cb as Cb'.
  apply canonical_iff in Ca' as (Ha & _ & Sa). apply canonical_iff in Cb' as (Hb & _ & Sb).
  set (n := Nat.max (len a) (len b)).
  rewrite karatsuba_small by (unfold n; lia).
  destruct (naive_mul_spec (digits a ++ repeat 0 (n - len a))
              (digits b ++ repeat 0 (n - len b)) n n) as (Hp & Lp & Vp);
    auto using limbs_ok_pad; try (apply length_pad; unfold n, len; lia).
  rewrite !value_pad in Vp.
  set (prod := naive_mul _ n _ n) in *.
  assert (prod <> []) as Np.
  { intros E. rewrite E in Vp. cbn [value] in Vp. nia. }
  split.
  - apply canonical_iff. cbn [digits sign]. split; [now apply limbs_ok_strip|].
    split; [now apply stripped_strip|].
    destruct (sign a =? sign b); [now left | right].
    split; [reflexivity|].
    destruct (all_zero (strip prod)) eqn:E; [|reflexivity].
    apply all_zero_value in E; [|now apply limbs_ok_strip].
    rewrite value_strip in E. nia.
  - unfold to_Z. cbn [digits sign]. rewrite value_strip, Vp.
    destruct Sa as [Sa|[Sa _]], Sb as [Sb|[Sb _]]; rewrite Sa, Sb; cbn; lia.
Qed.

End Product.

(** *** The cache under multiplication *)

Section CacheInvariants.

Lemma big_eta (x : T81BigInt) : mkBig (sign x) (digits x) = x.
Proof. now destruct x. Qed.

Lemma lookup_hit (cache : MulCache) (k : string) (out : T81BigInt) :
  mul_cache_lookup cache k = Some out ->
  exists e, In e cache /\ used e = true /\ key e = k /\ result e = out.
Proof.
  induction cache as [|e cache IH]; cbn [mul_cache_lookup]; [discriminate|].
  destruct (used e) eqn:U; cbn [andb].
  - destruct (String.eqb_spec (key e) k) as [E|_].
    + rewrite big_eta. intros [= <-]. exists e. cbn. auto.
    + intros H. destruct (IH H) as (e' & Hin & H'). exists e'. cbn. auto.
  - intros H. destruct (IH H) as (e' & Hin & H'). exists e'. cbn. auto.
Qed.

Lemma store_Forall (P : MulCacheEntry -> Prop) (cache : MulCache)
      (k : string) (val : T81BigInt) :
  Forall P cache -> P (mkEntry (substring 0 127 k) val true) ->
  Forall P (mul_cache_store cache k val).
Proof.
  intros Hc Hn. unfold mul_cache_store. rewrite big_eta. now apply Forall_upd.
Qed.

Lemma trit_string_length (x : T81BigInt) (s : string) :
  wf x -> t81bigint_to_trit_string x = Some s ->
  (String.length s <= 4 * len x + 1)%nat.
Proof.
  intros W E. destruct (trit_string_spec x W) as (buf & E' & _ & _ & Hl & _).
  rewrite E' in E. injection E as <-.
  rewrite text_length, length_rev, length_app.
  unfold sign_chars. destruct (_ || _); cbn [List.length]; lia.
Qed.

Lemma multiply_with_cache_wf (cache : MulCache) (a b : T81BigInt) :
  wf a -> wf b -> cache_wf cache ->
  exists out cache',
    multiply_with_cache cache a b = Some (out, cache')
    /\ wf out /\ cache_wf cache'.
Proof.
  intros Wa Wb Wc. unfold multiply_with_cache, cache_key.
  destruct (trit_string_spec a Wa) as (ba & -> & _).
  destruct (trit_string_spec b Wb) as (bb & -> & _).
  destruct (mul_cache_lookup cache _) as [out|] eqn:L.
  - exists out, cache. split; [reflexivity|]. split; [|assumption].
    apply lookup_hit in L as (e & Hin & U & _ & <-).
    unfold cache_wf in Wc. rewrite Forall_forall in Wc. now apply Wc.
  - do 2 eexists. split; [reflexivity|].
    split; [now apply multiply_wf|].
    apply store_Forall; [assumption|]. intros _. now apply multiply_wf.
Qed.

Lemma cache_key_small (a b : T81BigInt) :
  canonical a = true -> canonical b = true ->
  (len a <= 15)%nat -> (len b <= 15)%nat ->
  exists as_ bs,
    t81bigint_to_trit_string a = Some as_
    /\ t81bigint_to_trit_string b = Some bs
    /\ cache_key a b = Some ("mul:" ++ as_ ++ ":" ++ bs)%string
    /\ (String.length ("mul:" ++ as_ ++ ":" ++ bs) <= 127)%nat.
Proof.
  intros Ca Cb La Lb.
  destruct (trit_string_spec a (canonical_wf a Ca)) as (ba & Ea & _).
  destruct (trit_string_spec b (canonical_wf b Cb)) as (bb & Eb & _).
  pose proof (trit_string_length a _ (canonical_wf a Ca) Ea) as Ha.
  pose proof (trit_string_length b _ (canonical_wf b Cb) Eb) as Hb.
  do 2 eexists. split; [exact Ea|]. split; [exact Eb|].
  unfold cache_key. rewrite Ea, Eb. rewrite mul_key_whole by lia.
  split; [reflexivity|]. rewrite !string_length_app. cbn [String.length]. lia.
Qed.

Lemma cache_key_small_inj (a b a' b' : T81BigInt) :
  canonical a = true -> canonical b = true ->
  canonical a' = true -> canonical b' = true ->
  (len a <= 15)%nat -> (len b <= 15)%nat ->
  (len a' <= 15)%nat -> (len b' <= 15)%nat ->
  cache_key a b = cache_key a' b' -> a = a' /\ b = b'.
Proof.
  intros Ca Cb Ca' Cb' La Lb La' Lb' E.
  destruct (cache_key_small a b Ca Cb La Lb) as (s & t & Es & Et & K & _).
  destruct (cache_key_small a' b' Ca' Cb' La' Lb') as (s' & t' & Es' & Et' & K' & _).
  rewrite K, K' in E. injection E as E.
  apply split_at_colon in E as [-> ->]; eauto using trit_string_no_colon.
  split; apply trit_string_inj; auto; congruence.
Qed.

Lemma multiply_with_cache_small (cache : MulCache) (a b : T81BigInt) :
  canonical a = true -> canonical b = true ->
  (len a <= 15)%nat -> (len b <= 15)%nat ->
  cache_sound cache ->
  exists cache',
    multiply_with_cache cache a b = Some (t81bigint_karatsuba_multiply a b, cache')
    /\ cache_sound cache'.
Proof.
  intros Ca Cb La Lb Sc. unfold multiply_with_cache.
  destruct (cache_key_small a b Ca Cb La Lb) as (s & t & _ & _ & K & Hlen).
  rewrite K. destruct (mul_cache_lookup cache _) as [out|] eqn:L.
  - exists cache. split; [|assumption].
    apply lookup_hit in L as (e & Hin & U & Ek & <-).
    unfold cache_sound in Sc. rewrite Forall_forall in Sc.
    rewrite (Sc e Hin U a b); auto. congruence.
  - eexists. split; [reflexivity|].
    apply store_Forall; [assumption|]. cbn [used key result].
    intros _ a' b' Ca' Cb' La' Lb' K'.
    rewrite substring_all in K' by assumption. rewrite <- K in K'.
    apply cache_key_small_inj in K' as [-> ->]; auto.
Qed.

End CacheInvariants.

(** *** The loop of [tritjs_power_big] *)

Section PowerLoop.

Variable base : T81BigInt.

Lemma power_loop_wf (e : nat) :
  forall (cache : MulCache) (acc : T81BigInt),
    wf base -> wf acc -> cache_wf cache ->
    exists r cache',
      power_loop e cache base acc = Some (r, cache')
      /\ wf r /\ cache_wf cache'.
Proof.
  induction e as [|e IH]; intros cache acc Wb Wa Wc; cbn [power_loop].
  - now exists acc, cache.
  - destruct (multiply_with_cache_wf cache acc base Wa Wb Wc)
      as (tmp & cache1 & -> & Wt & Wc1).
    now apply IH.
Qed.

Lemma canonical_small (x : T81BigInt) :
  canonical x = true -> Z.abs (to_Z x) < BASE_81 ^ 15 -> (len x <= 15)%nat.
Proof.
  intros C H. apply canonical_iff in C as (Hok & [Hne [Hone|Hlast]] & _).
  - unfold len. lia.
  - rewrite to_Z_abs in H by assumption.
    pose proof (value_ge_top _ Hok Hne Hlast) as Hlo.
    assert (BASE_81 ^ (Z.of_nat (List.length (digits x)) - 1) < BASE_81 ^ 15)
      as Hpow by lia.
    apply Z.pow_lt_mono_r_iff in Hpow; unfold BASE_81, len; lia.
Qed.

Lemma power_loop_small (e : nat) :
  forall (cache : MulCache) (acc : T81BigInt),
    canonical base = true -> (len base <= 15)%nat ->
    canonical acc = true -> cache_sound cache ->
    (forall j : nat, (j <= e)%nat ->
       Z.abs (to_Z acc) * Z.abs (to_Z base) ^ Z.of_nat j < BASE_81 ^ 15) ->
    exists r cache',
      power_loop e cache base acc = Some (r, cache')
      /\ canonical r = true
      /\ to_Z r = to_Z acc * to_Z base ^ Z.of_nat e
      /\ cache_sound cache'.
Proof.
  induction e as [|e IH]; intros cache acc Cb Lb Ca Sc Hbound; cbn [power_loop].
  - exists acc, cache. repeat split; auto. cbn. lia.
  - assert (len acc <= 15)%nat as La.
    { apply canonical_small; [assumption|].
      specialize (Hbound 0%nat ltac:(lia)).
      change (Z.of_nat 0) with 0 in Hbound.
      now rewrite Z.pow_0_r, Z.mul_1_r in Hbound. }
    destruct (multiply_with_cache_small cache acc base Ca Cb La Lb Sc)
      as (cache1 & -> & Sc1).
    destruct (multiply_small acc base Ca Cb ltac:(lia) ltac:(lia)) as (Ct & Vt).
    destruct (IH cache1 _ Cb Lb Ct Sc1) as (r & cache' & E & Cr & Vr & Sr).
    { intros j Hj. rewrite Vt, Z.abs_mul, <- Z.mul_assoc.
      specialize (Hbound (S j) ltac:(lia)).
      rewrite Nat2Z.inj_succ, Z.pow_succ_r in Hbound by lia. exact Hbound. }
    exists r, cache'. repeat split; auto.
    rewrite Vr, Vt, Nat2Z.inj_succ, Z.pow_succ_r by lia. ring.
Qed.

End PowerLoop.

Section PowerResult.

Lemma canonical_exponent (exp : T81BigInt) :
  canonical exp = true -> sign exp = 0 ->
  (to_Z exp <= 80 -> exists d, digits exp = [d] /\ 0 <= d <= 80 /\ to_Z exp = d)
  /\ (81 <= to_Z exp -> is_small_value exp = false).
Proof.
  intros C S. apply canonical_iff in C as (Hok & [Hne Hs] & _).
  unfold to_Z. rewrite S. cbn [Z.eqb].
  destruct (digits exp) as [|d [|d' tl]] eqn:E; [congruence | |].
  - inversion Hok as [|? ? Hd _]. unfold limb_ok in Hd. cbn [value]. split.
    + intros _. exists d. repeat split; lia.
    + intros Hge. unfold BASE_81 in Hge. lia.
  - destruct Hs as [Hs|Hs]; [cbn in Hs; lia|].
    pose proof (value_ge_top _ Hok ltac:(congruence) Hs) as Hlo.
    assert (BASE_81 ^ 1 <= BASE_81 ^ (Z.of_nat (List.length (d :: d' :: tl)) - 1)) as Hp.
    { apply Z.pow_le_mono_r; [unfold BASE_81; lia|]. cbn [List.length]. lia. }
    unfold BASE_81 in Hp at 1. split.
    + intros Hle. lia.
    + intros _. unfold is_small_value, len. rewrite E. reflexivity.
Qed.

Lemma pow_bound_below (b : Z) (e j : nat) :
  0 <= b -> b ^ Z.of_nat e < BASE_81 ^ 15 -> (j <= e)%nat ->
  1 * b ^ Z.of_nat j < BASE_81 ^ 15.
Proof.
  intros Hb H Hj. rewrite Z.mul_1_l.
  destruct (Z.eq_dec b 0) as [->|Hnz].
  - destruct j as [|j]; [reflexivity|].
    rewrite Z.pow_0_l by lia. reflexivity.
  - eapply Z.le_lt_trans; [|exact H]. apply Z.pow_le_mono_r; lia.
Qed.

Lemma canonical_sign_of_value (r : T81BigInt) :
  canonical r = true ->
  (0 <= to_Z r -> sign r = 0) /\ (to_Z r < 0 -> sign r = 1 /\ 0 < value (digits r)).
Proof.
  intros C. apply canonical_iff in C as (Hok & _ & [S|[S Z]]).
  - pose proof (value_bound _ Hok). unfold to_Z. rewrite S. cbn [Z.eqb]. split; [auto | lia].
  - apply all_zero_false_pos in Z; [|assumption].
    unfold to_Z. rewrite S. cbn [Z.eqb]. split; [lia | auto].
Qed.

End PowerResult.

(** *** Power *)

(** C10: with the exponent zero, [pow] succeeds for every base and every
    state of the cache, returns the single limb 1 with sign 0 and leaves
    the cache as it was; the base 0 is no exception. *)
Theorem power_zero_exponent (cache : MulCache) (base : T81BigInt) :
  tritjs_power_big cache base (mkBig 0 [0]) = Some (Ok (mkBig 0 [1]), cache).
Proof.
  unfold tritjs_power_big. cbn. now rewrite andb_false_r.
Qed.

Example zero_to_the_zero :
  parse_trit_string "0" = Ok (mkBig 0 [0])
  /\ tritjs_power_big mul_cache_init (mkBig 0 [0]) (mkBig 0 [0])
       = Some (Ok (mkBig 0 [1]), mul_cache_init).
Proof. split; reflexivity. Qed.

Lemma rem2_odd (d : Z) : 0 <= d -> (Z.rem d 2 =? 1) = Z.odd d.
Proof.
  intros H. rewrite Z.rem_mod_nonneg by lia. rewrite Zmod_odd.
  destruct (Z.odd d); reflexivity.
Qed.

Lemma cache_init_wf : cache_wf mul_cache_init.
Proof.
  unfold cache_wf, mul_cache_init. apply Forall_forall.
  intros e He. apply repeat_spec in He. subst e. discriminate.
Qed.

Lemma cache_init_sound : cache_sound mul_cache_init.
Proof.
  unfold cache_sound, mul_cache_init. apply Forall_forall.
  intros e He. apply repeat_spec in He. subst e. discriminate.
Qed.

(** C6, as stated, at the exponent 81, the canonical BigInt with limbs
    [0; 1] that the text "10000" parses to: 81 is below the limit 1000 and
    [pow] signals Overflow. *)
Lemma power_overflows_at_81 :
  canonical (mkBig 0 [0; 1]) = true
  /\ parse_trit_string "10000" = Ok (mkBig 0 [0; 1])
  /\ to_Z (mkBig 0 [0; 1]) = 81
  /\ tritjs_power_big mul_cache_init (mkBig 0 [2]) (mkBig 0 [0; 1])
       = Some (Err Overflow, mul_cache_init).
Proof. repeat split. Qed.

(** C6, amended: the exponent is a BigInt and must be a single limb.  For
    every base the kernel can take and every canonical exponent e:
    a negative e signals error 6 (Negative); e >= 81 signals Overflow, so
    the limit is 80 and not 1000; for 0 <= e <= 80 [pow] succeeds with a
    well-formed result, negative whenever the base is negative and e is
    odd.  When moreover the base is canonical with at most 15 limbs,
    |base|^e < 81^15 and the cache is sound, the result is canonical, is
    base^e, and its sign is negative exactly when the base is negative
    and e is odd. *)
Theorem power_big_exponent_range (cache : MulCache) (base exp : T81BigInt) :
  wf base -> cache_wf cache -> canonical exp = true ->
  (sign exp = 1 -> tritjs_power_big cache base exp = Some (Err Negative, cache))
  /\ (sign exp = 0 -> 81 <= to_Z exp ->
      tritjs_power_big cache base exp = Some (Err Overflow, cache))
  /\ (sign exp = 0 -> to_Z exp <= 80 ->
      exists r cache',
        tritjs_power_big cache base exp = Some (Ok r, cache')
        /\ wf r /\ cache_wf cache'
        /\ (sign base <> 0 -> Z.odd (to_Z exp) = true -> sign r = 1)
        /\ (canonical base = true -> (len base <= 15)%nat -> cache_sound cache ->
            Z.abs (to_Z base) ^ to_Z exp < BASE_81 ^ 15 ->
            to_Z r = to_Z base ^ to_Z exp
            /\ sign r = (if negb (sign base =? 0) && Z.odd (to_Z exp) then 1 else 0)
            /\ canonical r = true /\ cache_sound cache')).
Proof.
  intros Wb Wc Ce. split; [|split].
  - intros S. unfold tritjs_power_big. now rewrite S.
  - intros S H. destruct (canonical_exponent exp Ce S) as [_ Hbig].
    unfold tritjs_power_big. rewrite S, (Hbig H). reflexivity.
  - intros S H. destruct (canonical_exponent exp Ce S) as [Hsmall _].
    destruct (Hsmall H) as (d & Ed & Hd & Vd). rewrite Vd. clear Hsmall H.
    assert (wf (mkBig 0 [1])) as W1.
    { split; [discriminate|]. repeat constructor; unfold limb_ok; lia. }
    destruct (power_loop_wf base (Z.to_nat d) cache (mkBig 0 [1]) Wb W1 Wc)
      as (r0 & cache' & E0 & Wr & Wc').
    assert (tritjs_power_big cache base exp
            = Some (Ok (if negb (sign base =? 0) && Z.odd d
                        then mkBig 1 (digits r0) else r0), cache')) as E.
    { unfold tritjs_power_big, is_small_value, to_small_int, len, digit.
      rewrite S, Ed. cbn [Z.eqb negb List.length Nat.eqb nth andb].
      rewrite (proj2 (Z.ltb_lt d 81)) by lia. cbn [negb].
      replace (d >? 1000) with false by (symmetry; rewrite Z.gtb_ltb; apply Z.ltb_ge; lia).
      rewrite E0, rem2_odd by lia.
      destruct (negb (sign base =? 0) && Z.odd d); reflexivity. }
    do 2 eexists. split; [exact E|].
    split; [|split; [exact Wc'|split]].
    + destruct (negb (sign base =? 0) && Z.odd d); [|exact Wr].
      destruct Wr as [Wn Wl]. now split.
    + intros Sb Od. rewrite Od. apply Z.eqb_neq in Sb. rewrite Sb. reflexivity.
    + intros Cb Lb Sc Hpow.
      destruct (power_loop_small base (Z.to_nat d) cache (mkBig 0 [1]))
        as (r1 & cache1 & E1 & C1 & V1 & S1); auto.
      { intros j Hj. change (Z.abs (to_Z (mkBig 0 [1]))) with 1.
        apply (pow_bound_below _ (Z.to_nat d)); [lia | | assumption].
        now rewrite Z2Nat.id by lia. }
      rewrite E1 in E0. injection E0 as -> ->.
      rewrite Z2Nat.id in V1 by lia. change (to_Z (mkBig 0 [1])) with 1 in V1.
      rewrite Z.mul_1_l in V1.
      destruct (canonical_sign_of_value r0 C1) as [Hpos Hneg].
      pose proof Cb as Cb'. apply canonical_iff in Cb' as (Hbok & _ & Sb).
      destruct Sb as [Sb|[Sb Zb]].
      * rewrite Sb. cbn [Z.eqb negb andb].
        assert (0 <= to_Z base) as Hb0.
        { unfold to_Z. rewrite Sb. cbn [Z.eqb]. apply value_bound, Hbok. }
        repeat split; auto. apply Hpos. rewrite V1. apply Z.pow_nonneg, Hb0.
      * rewrite Sb. cbn [Z.eqb negb andb].
        apply all_zero_false_pos in Zb; [|assumption].
        assert (to_Z base = - value (digits base)) as Vb.
        { unfold to_Z. now rewrite Sb. }
        destruct (Z.odd d) eqn:Od.
        -- assert (to_Z r0 < 0) as Hr0.
           { rewrite V1, Vb, Z.pow_opp_odd by (now apply Z.odd_spec).
             assert (0 < value (digits base) ^ d) by (apply Z.pow_pos_nonneg; lia). lia. }
           destruct (Hneg Hr0) as [Sr Pr].
           assert (mkBig 1 (digits r0) = r0) as -> by (now rewrite <- Sr, big_eta).
           repeat split; auto.
        -- repeat split; auto. apply Hpos. rewrite V1.
           apply Z.pow_even_nonneg. apply Z.even_spec.
           now rewrite <- Z.negb_odd, Od.
Qed.

Lemma power_big_exponent_range_witness :
  (sign (mkBig 0 [5]) = 1 ->
   tritjs_power_big mul_cache_init (mkBig 1 [3]) (mkBig 0 [5])
     = Some (Err Negative, mul_cache_init))
  /\ (sign (mkBig 0 [5]) = 0 -> 81 <= to_Z (mkBig 0 [5]) ->
      tritjs_power_big mul_cache_init (mkBig 1 [3]) (mkBig 0 [5])
        = Some (Err Overflow, mul_cache_init))
  /\ (sign (mkBig 0 [5]) = 0 -> to_Z (mkBig 0 [5]) <= 80 ->
      exists r cache',
        tritjs_power_big mul_cache_init (mkBig 1 [3]) (mkBig 0 [5]) = Some (Ok r, cache')
        /\ wf r /\ cache_wf cache'
        /\ (sign (mkBig 1 [3]) <> 0 -> Z.odd (to_Z (mkBig 0 [5])) = true -> sign r = 1)
        /\ (canonical (mkBig 1 [3]) = true -> Nat.le (len (mkBig 1 [3])) 15 ->
            cache_sound mul_cache_init ->
            Z.abs (to_Z (mkBig 1 [3])) ^ to_Z (mkBig 0 [5]) < BASE_81 ^ 15 ->
            to_Z r = to_Z (mkBig 1 [3]) ^ to_Z (mkBig 0 [5])
            /\ sign r = (if negb (sign (mkBig 1 [3]) =? 0) && Z.odd (to_Z (mkBig 0 [5]))
                         then 1 else 0)
            /\ canonical r = true /\ cache_sound cache')).
Proof.
  apply (power_big_exponent_range mul_cache_init (mkBig 1 [3]) (mkBig 0 [5])).
  - split; [discriminate|]. repeat constructor; unfold limb_ok; lia.
  - exact cache_init_wf.
  - reflexivity.
Defined.

(** *** The discrete opcode codec *)

(** C9 at the opcode TSUB = 2: its conversion is the single trit "T", the
    checksum is [(0 + -1) % 9 = -1], printed as the two characters "-1";
    the validator sums 'T' and '-' to -4 and compares with 1. *)
Theorem opcode_TSUB_fails_validation :
  In TritSys.TSUB TritSys.opcodes
  /\ text (TritSys.discrete_opcode_encode TritSys.TSUB) = "T-1"%string
  /\ TritSys.discrete_opcode_validate
       (TritSys.discrete_opcode_encode TritSys.TSUB) = false.
Proof. repeat split. right. left. reflexivity. Qed.

(** the opcodes whose encoding the validator accepts *)
Example opcodes_accepted :
  filter (fun o => TritSys.discrete_opcode_validate (TritSys.discrete_opcode_encode o))
         TritSys.opcodes
  = [TritSys.TADD; TritSys.TMUL; TritSys.TMOD; TritSys.TMAT_MUL;
     TritSys.THANOI; TritSys.TEXP; TritSys.TGCD].
Proof. reflexivity. Qed.

(** ** Further properties of the base-81 kernel

    The properties below are read off the code of
    [TritJS-CISA-Optimized.c]: the comparison, addition and subtraction of
    BigInts, the schoolbook product, the cached multiplication and the
    helpers of the Karatsuba product, the text of a BigInt, the parser,
    the conversions from and to a machine integer, the factorial and the
    left shift. *)

(** *** Comparison of magnitudes *)

Section Comparison.

Lemma value_split (l : list Z) (k : nat) :
  value l = value (firstn k l)
            + BASE_81 ^ Z.of_nat (Nat.min k (List.length l)) * value (skipn k l).
Proof.
  rewrite <- (firstn_skipn k l) at 1. rewrite value_app, length_firstn. reflexivity.
Qed.

Lemma limbs_ok_firstn (l : list Z) (k : nat) : limbs_ok l -> limbs_ok (firstn k l).
Proof.
  intros H. rewrite <- (firstn_skipn k l) in H. now apply Forall_app in H.
Qed.

Lemma limbs_ok_skipn (l : list Z) (k : nat) : limbs_ok l -> limbs_ok (skipn k l).
Proof.
  intros H. rewrite <- (firstn_skipn k l) in H. now apply Forall_app in H.
Qed.

Lemma pow81_pos (n : nat) : 0 < BASE_81 ^ Z.of_nat n.
Proof. apply Z.pow_pos_nonneg; unfold BASE_81; lia. Qed.

Lemma cmp_low_spec (a : list Z) :
  forall b : list Z,
    limbs_ok a -> limbs_ok b ->
    cmp_low a b
    = Z.sgn (value (firstn (List.length b) a) - value (firstn (List.length a) b)).
Proof.
  induction a as [|x a IH]; intros [|y b] Ha Hb;
    cbn [cmp_low List.length firstn value]; try reflexivity.
  inversion Ha as [|? ? Hx Ha']; inversion Hb as [|? ? Hy Hb']; subst.
  rewrite (IH b Ha' Hb').
  pose proof (value_bound _ (limbs_ok_firstn a (List.length b) Ha')) as Hva.
  pose proof (value_bound _ (limbs_ok_firstn b (List.length a) Hb')) as Hvb.
  set (va := value (firstn (List.length b) a)) in *.
  set (vb := value (firstn (List.length a) b)) in *.
  unfold limb_ok in Hx, Hy. unfold BASE_81.
  destruct (Z.lt_trichotomy va vb) as [Hlt|[Heq|Hgt]].
  - rewrite (Z.sgn_neg (va - vb)) by lia. cbn [Z.eqb].
    rewrite Z.sgn_neg by lia. reflexivity.
  - rewrite (Z.sgn_null (va - vb)) by lia. cbn [Z.eqb].
    destruct (Z.ltb_spec x y).
    + rewrite Z.sgn_neg by lia. reflexivity.
    + destruct (Z.gtb_spec x y).
      * rewrite Z.sgn_pos by lia. reflexivity.
      * rewrite Z.sgn_null by lia. reflexivity.
  - rewrite (Z.sgn_pos (va - vb)) by lia. cbn [Z.eqb].
    rewrite Z.sgn_pos by lia. reflexivity.
Qed.

Lemma cmp_base81_sgn (a b : list Z) :
  limbs_ok a -> limbs_ok b ->
  cmp_base81 a b = Z.sgn (value a - value b).
Proof.
  intros Ha Hb. unfold cmp_base81.
  pose proof (value_bound a Ha) as Hva. pose proof (value_bound b Hb) as Hvb.
  pose proof (cmp_low_spec a b Ha Hb) as Hlow.
  destruct (Nat.ltb_spec (List.length b) (List.length a)) as [Hlt|Hge].
  - pose proof (value_split a (List.length b)) as Hs.
    rewrite Nat.min_l in Hs by lia.
    rewrite (firstn_all2 b) in Hlow by lia.
    destruct (all_zero (skipn (List.length b) a)) eqn:Ez; cbn [negb andb].
    + apply all_zero_value in Ez; [|now apply limbs_ok_skipn].
      destruct (Nat.ltb_spec (List.length a) (List.length b)); [lia|].
      cbn [andb]. rewrite Hlow. f_equal. rewrite Hs, Ez. lia.
    + apply all_zero_false_pos in Ez; [|now apply limbs_ok_skipn].
      rewrite Z.sgn_pos; [reflexivity|].
      pose proof (value_bound _ (limbs_ok_firstn a (List.length b) Ha)) as Hf.
      pose proof (pow81_pos (List.length b)). nia.
  - cbn [andb].
    destruct (Nat.ltb_spec (List.length a) (List.length b)) as [Hlt|Hge'].
    + pose proof (value_split b (List.length a)) as Hs.
      rewrite Nat.min_l in Hs by lia.
      rewrite (firstn_all2 a) in Hlow by lia.
      destruct (all_zero (skipn (List.length a) b)) eqn:Ez; cbn [negb andb].
      * apply all_zero_value in Ez; [|now apply limbs_ok_skipn].
        rewrite Hlow. f_equal. rewrite Hs, Ez. lia.
      * apply all_zero_false_pos in Ez; [|now apply limbs_ok_skipn].
        rewrite Z.sgn_neg; [reflexivity|].
        pose proof (value_bound _ (limbs_ok_firstn b (List.length a) Hb)) as Hf.
        pose proof (pow81_pos (List.length a)). nia.
    + cbn [andb]. rewrite Hlow.
      rewrite (firstn_all2 a), (firstn_all2 b) by lia. reflexivity.
Qed.

End Comparison.

(** X3: [cmp_base81] orders two digit arrays by the magnitudes they hold.
    On arrays of base-81 limbs, of any two lengths and with or without
    high-order zero limbs, it returns 1 exactly when the first magnitude is
    the larger one, 0 exactly when the magnitudes are equal and -1 exactly
    when the first is the smaller one. *)
Theorem cmp_base81_order (a b : list Z) :
  limbs_ok a -> limbs_ok b ->
  (cmp_base81 a b = 1 <-> value b < value a)
  /\ (cmp_base81 a b = 0 <-> value a = value b)
  /\ (cmp_base81 a b = -1 <-> value a < value b).
Proof.
  intros Ha Hb. rewrite (cmp_base81_sgn a b Ha Hb).
  destruct (Z.lt_trichotomy (value a) (value b)) as [H|[H|H]].
  - rewrite Z.sgn_neg by lia. repeat split; intros; lia.
  - rewrite Z.sgn_null by lia. repeat split; intros; lia.
  - rewrite Z.sgn_pos by lia. repeat split; intros; lia.
Qed.

Lemma cmp_base81_order_witness :
  (cmp_base81 [80; 0; 0] [0; 1] = 1 <-> value [0; 1] < value [80; 0; 0])
  /\ (cmp_base81 [80; 0; 0] [0; 1] = 0 <-> value [80; 0; 0] = value [0; 1])
  /\ (cmp_base81 [80; 0; 0] [0; 1] = -1 <-> value [80; 0; 0] < value [0; 1]).
Proof.
  apply (cmp_base81_order [80; 0; 0] [0; 1]); repeat constructor; unfold limb_ok; lia.
Defined.

(** *** Addition and subtraction *)

Section Additive.

Lemma ripple_value (fuel : nat) :
  forall (r : list Z) (cpos : nat) (carry : Z),
    limbs_ok r -> 0 <= carry -> (cpos <= List.length r)%nat ->
    (List.length r - cpos <= fuel)%nat ->
    exists cout : Z,
      0 <= cout
      /\ value (ripple fuel r cpos carry) + cout * BASE_81 ^ Z.of_nat (List.length r)
         = value r + carry * BASE_81 ^ Z.of_nat cpos.
Proof.
  induction fuel as [|fuel IH]; intros r cpos carry Hr Hc Hpos Hfuel; cbn [ripple].
  - exists carry. split; [assumption|]. replace cpos with (List.length r) by lia. reflexivity.
  - destruct (Z.eqb_spec carry 0) as [->|Hnz]; cbn [orb].
    + exists 0. split; lia.
    + destruct (Nat.ltb_spec cpos (List.length r)) as [Hlt|Hge]; cbn [negb].
      * pose proof (limbs_ok_nth r cpos Hr) as Hn. unfold limb_ok in Hn.
        destruct (rem_quot_nonneg (nth cpos r 0 + carry) ltac:(lia)) as (Hrem & Hq).
        rewrite u8_byte by (unfold is_byte; lia).
        destruct (IH (upd r cpos (Z.rem (nth cpos r 0 + carry) BASE_81)) (S cpos)
                     (Z.quot (nth cpos r 0 + carry) BASE_81)) as (cout & Hcout & E).
        { apply Forall_upd; [assumption | unfold limb_ok; lia]. }
        { assumption. }
        { rewrite length_upd. lia. }
        { rewrite length_upd. lia. }
        exists cout. split; [assumption|].
        rewrite length_upd in E. rewrite E, value_upd by assumption.
        rewrite Nat2Z.inj_succ, Z.pow_succ_r by lia.
        pose proof (Z.quot_rem' (nth cpos r 0 + carry) BASE_81) as Hqr.
        set (P := BASE_81 ^ Z.of_nat cpos) in *.
        set (q := Z.quot (nth cpos r 0 + carry) BASE_81) in *.
        set (m := Z.rem (nth cpos r 0 + carry) BASE_81) in *.
        replace carry with (BASE_81 * q + m - nth cpos r 0) by lia. ring.
      * exists carry. split; [lia|]. replace cpos with (List.length r) by lia. reflexivity.
Qed.

Lemma add_same_sign_spec (A B : T81BigInt) :
  limbs_ok (digits A) -> limbs_ok (digits B) ->
  limbs_ok (digits (add_same_sign A B))
  /\ stripped (digits (add_same_sign A B))
  /\ sign (add_same_sign A B) = sign A
  /\ value (digits (add_same_sign A B)) = value (digits A) + value (digits B).
Proof.
  intros HA HB. unfold add_same_sign. cbn [digits sign].
  set (n := (Nat.max (len A) (len B) + 1)%nat).
  set (body := fun (i : nat) (r : list Z) => _).
  set (r0 := digits A ++ repeat 0 (n - len A)).
  assert (Hinv : limbs_ok (for_up (len B) body r0)
                 /\ List.length (for_up (len B) body r0) = n
                 /\ value (for_up (len B) body r0)
                    = value (digits A) + value (firstn (len B) (digits B))).
  { apply (for_up_inv (fun i r => limbs_ok r /\ List.length r = n
             /\ value r = value (digits A) + value (firstn i (digits B)))).
    - split; [apply limbs_ok_pad, HA|]. split.
      + unfold r0. rewrite length_app, repeat_length. unfold len, n. unfold len. lia.
      + unfold r0. rewrite value_pad, firstn_O. cbn [value]. lia.
    - intros i r Hi (Hr & Hlen & Hval). unfold body.
      pose proof (limbs_ok_nth r i Hr) as Hn. unfold limb_ok in Hn.
      pose proof (digit_limb_ok B i HB) as Hb. unfold limb_ok in Hb.
      destruct (rem_quot_nonneg (nth i r 0 + digit B i) ltac:(lia)) as (Hrem & Hq).
      rewrite u8_byte by (unfold is_byte; lia).
      set (r1 := upd r i (Z.rem (nth i r 0 + digit B i) BASE_81)).
      assert (Hr1 : limbs_ok r1).
      { apply Forall_upd; [assumption | unfold limb_ok; lia]. }
      assert (Hlen1 : List.length r1 = n) by (unfold r1; now rewrite length_upd).
      destruct (ripple_spec n r1 (S i) (Z.quot (nth i r 0 + digit B i) BASE_81) Hr1 Hq)
        as (Hr2 & Hlen2).
      split; [assumption|]. split; [lia|].
      destruct (ripple_value n r1 (S i) (Z.quot (nth i r 0 + digit B i) BASE_81) Hr1 Hq)
        as (cout & Hcout & E).
      { rewrite Hlen1. unfold n. lia. }
      { lia. }
      rewrite Hlen1 in E.
      assert (Hv1 : value r1 = value r
                     + (Z.rem (nth i r 0 + digit B i) BASE_81 - nth i r 0)
                       * BASE_81 ^ Z.of_nat i).
      { unfold r1. apply value_upd. unfold n in Hlen. lia. }
      rewrite value_firstn_S. fold (digit B i).
      rewrite Hv1, Hval, Nat2Z.inj_succ, Z.pow_succ_r in E by lia.
      pose proof (Z.quot_rem' (nth i r 0 + digit B i) BASE_81) as Hqr.
      pose proof (value_bound _ Hr2) as Hb2. rewrite Hlen2, Hlen1 in Hb2.
      pose proof (value_bound _ HA) as HbA.
      pose proof (value_bound _ (limbs_ok_firstn (digits B) (S i) HB)) as HbB.
      rewrite value_firstn_S in HbB. fold (digit B i) in HbB.
      assert (HpA : BASE_81 ^ Z.of_nat (List.length (digits A))
                    <= BASE_81 ^ Z.of_nat (n - 1)).
      { apply Z.pow_le_mono_r; [unfold BASE_81; lia|]. unfold n, len. lia. }
      assert (HpB : BASE_81 ^ Z.of_nat (List.length (firstn (S i) (digits B)))
                    <= BASE_81 ^ Z.of_nat (n - 1)).
      { apply Z.pow_le_mono_r; [unfold BASE_81; lia|].
        rewrite length_firstn. unfold n, len. lia. }
      assert (Hpn : BASE_81 ^ Z.of_nat n = BASE_81 * BASE_81 ^ Z.of_nat (n - 1)).
      { replace (Z.of_nat n) with (Z.succ (Z.of_nat (n - 1))) by (unfold n; lia).
        rewrite Z.pow_succ_r by lia. reflexivity. }
      pose proof (pow81_pos (n - 1)) as Hpos.
      set (P := BASE_81 ^ Z.of_nat i) in *.
      set (Q := BASE_81 ^ Z.of_nat (n - 1)) in *.
      set (q := Z.quot (nth i r 0 + digit B i) BASE_81) in *.
      set (m := Z.rem (nth i r 0 + digit B i) BASE_81) in *.
      assert (Hsum : value (ripple n r1 (S i) q) + cout * BASE_81 * Q
                     = value (digits A) + value (firstn i (digits B)) + digit B i * P).
      { rewrite Hpn in E. replace (digit B i) with (BASE_81 * q + m - nth i r 0) by lia.
        lia. }
      assert (cout = 0).
      { unfold BASE_81 in *. nia. }
      subst cout. lia. }
  destruct Hinv as (Hr & Hlen & Hval).
  unfold len in Hval. rewrite firstn_all in Hval.
  split; [now apply limbs_ok_strip|]. split.
  { apply stripped_strip. intros E. rewrite E in Hlen. cbn in Hlen. unfold n in Hlen. lia. }
  split; [reflexivity|]. now rewrite value_strip.
Qed.

Lemma upd_upd {T : Type} (l : list T) :
  forall (i : nat) (a b : T), upd (upd l i a) i b = upd l i b.
Proof.
  induction l as [|x l IH]; intros [|i] a b; cbn [upd]; try reflexivity.
  now rewrite IH.
Qed.

Lemma skipn_upd_above {T : Type} (l : list T) :
  forall (i j : nat) (v : T), (i < j)%nat -> skipn j (upd l i v) = skipn j l.
Proof.
  induction l as [|x l IH]; intros [|i] [|j] v H; cbn [upd skipn]; try reflexivity; try lia.
  apply IH. lia.
Qed.

Lemma skipn_nth_cons (l : list Z) :
  forall j : nat, (j < List.length l)%nat -> skipn j l = nth j l 0 :: skipn (S j) l.
Proof.
  induction l as [|x l IH]; intros [|j] H; cbn [List.length] in H; try lia.
  - reflexivity.
  - cbn [skipn nth]. rewrite (IH j) by lia. reflexivity.
Qed.

Lemma borrow_spec (fuel : nat) :
  forall (r : list Z) (j : nat),
    limbs_ok r -> 0 < value (skipn j r) -> (List.length r - j <= fuel)%nat ->
    limbs_ok (borrow fuel r j)
    /\ List.length (borrow fuel r j) = List.length r
    /\ value (borrow fuel r j) = value r - BASE_81 ^ Z.of_nat j
    /\ forall k : nat, (k < j)%nat -> nth k (borrow fuel r j) 0 = nth k r 0.
Proof.
  induction fuel as [|fuel IH]; intros r j Hr Hpos Hfuel.
  - rewrite skipn_all2 in Hpos by lia. cbn in Hpos. lia.
  - assert (Hj : (j < List.length r)%nat).
    { destruct (Nat.lt_ge_cases j (List.length r)) as [H|H]; [assumption|].
      rewrite skipn_all2 in Hpos by lia. cbn in Hpos. lia. }
    pose proof (limbs_ok_nth r j Hr) as Hn. unfold limb_ok in Hn.
    cbn [borrow].
    destruct (Z.eq_dec (nth j r 0) 0) as [Hz|Hnz].
    + rewrite Hz. change (u8 (0 - 1)) with 255.
      rewrite !nth_upd_same by assumption.
      change (255 <? 255) with false. cbv iota.
      change (u8 (255 + BASE_81)) with 80. rewrite upd_upd.
      rewrite (skipn_nth_cons r j Hj), Hz in Hpos. cbn [value] in Hpos.
      assert (Hlen : (S j < List.length r)%nat).
      { destruct (Nat.lt_ge_cases (S j) (List.length r)) as [H|H]; [assumption|].
        rewrite skipn_all2 in Hpos by lia. cbn in Hpos. lia. }
      destruct (Nat.leb_spec (List.length r) (S j)) as [H|_]; [lia|].
      assert (Hr2 : limbs_ok (upd r j 80)).
      { apply Forall_upd; [assumption | unfold limb_ok; lia]. }
      destruct (IH (upd r j 80) (S j) Hr2) as (H1 & H2 & H3 & H4).
      { rewrite skipn_upd_above by lia. unfold BASE_81 in Hpos. lia. }
      { rewrite length_upd. lia. }
      rewrite length_upd in H2.
      split; [assumption|]. split; [assumption|]. split.
      * rewrite H3, value_upd, Hz by assumption.
        rewrite Nat2Z.inj_succ, Z.pow_succ_r by lia. unfold BASE_81. lia.
      * intros k Hk. rewrite H4 by lia. apply nth_upd_other. lia.
    + rewrite u8_byte by (unfold is_byte; lia).
      rewrite nth_upd_same by assumption.
      destruct (Z.ltb_spec (nth j r 0 - 1) 255) as [_|H]; [|lia].
      split; [apply Forall_upd; [assumption | unfold limb_ok; lia]|].
      split; [apply length_upd|]. split.
      * rewrite value_upd by assumption. lia.
      * intros k Hk. apply nth_upd_other. lia.
Qed.

Lemma sub_magnitudes_spec (L Sm : T81BigInt) (sg : Z) :
  limbs_ok (digits L) -> limbs_ok (digits Sm) -> digits L <> [] ->
  (len Sm <= len L)%nat -> value (digits Sm) <= value (digits L) ->
  limbs_ok (digits (sub_magnitudes L Sm sg))
  /\ stripped (digits (sub_magnitudes L Sm sg))
  /\ sign (sub_magnitudes L Sm sg) = sg
  /\ value (digits (sub_magnitudes L Sm sg)) = value (digits L) - value (digits Sm).
Proof.
  intros HL HS Hne Hlen Hle. unfold sub_magnitudes. cbn [digits sign].
  set (body := fun (i : nat) (r : list Z) => _).
  assert (Hinv : limbs_ok (for_up (len Sm) body (digits L))
                 /\ List.length (for_up (len Sm) body (digits L)) = len L
                 /\ value (for_up (len Sm) body (digits L))
                    = value (digits L) - value (firstn (len Sm) (digits Sm))).
  { apply (for_up_inv (fun i r => limbs_ok r /\ List.length r = len L
             /\ value r = value (digits L) - value (firstn i (digits Sm)))).
    - split; [assumption|]. split; [reflexivity|]. rewrite firstn_O. cbn [value]. lia.
    - intros i r Hi (Hr & Hlr & Hval). unfold body.
      pose proof (limbs_ok_nth r i Hr) as Hn. unfold limb_ok in Hn.
      pose proof (digit_limb_ok Sm i HS) as Hs. unfold limb_ok in Hs.
      rewrite value_firstn_S. fold (digit Sm i).
      assert (Hi' : (i < List.length r)%nat) by lia.
      destruct (Z.ltb_spec (nth i r 0 - digit Sm i) 0) as [Hneg|Hnn].
      + pose proof (value_split (digits Sm) (S i)) as HsS.
        rewrite value_firstn_S in HsS. fold (digit Sm i) in HsS.
        pose proof (value_bound _ (limbs_ok_skipn (digits Sm) (S i) HS)) as HbS.
        pose proof (value_split r (S i)) as Hsr.
        rewrite Nat.min_l, value_firstn_S in Hsr by lia.
        pose proof (value_bound _ (limbs_ok_firstn r i Hr)) as Hbf.
        rewrite length_firstn, Nat.min_l in Hbf by lia.
        pose proof (value_bound _ (limbs_ok_skipn r (S i) Hr)) as Hbh.
        pose proof (value_bound _ (limbs_ok_firstn (digits Sm) i HS)) as HbfS.
        pose proof (pow81_pos (Nat.min (S i) (List.length (digits Sm)))) as HposS.
        pose proof (pow81_pos i) as Hpos.
        rewrite Nat2Z.inj_succ, Z.pow_succ_r in Hsr by lia.
        assert (Hhigh : 0 < value (skipn (S i) r)).
        { set (P := BASE_81 ^ Z.of_nat i) in *.
          set (H := value (skipn (S i) r)) in *.
          destruct (Z.eq_dec H 0) as [E|E]; [|lia].
          exfalso. rewrite E in Hsr. unfold BASE_81 in *. nia. }
        destruct (borrow_spec (S (List.length r)) r (S i) Hr Hhigh)
          as (H1 & H2 & H3 & H4); [lia|].
        rewrite u8_byte by (unfold is_byte, BASE_81; lia).
        split; [apply Forall_upd; [assumption | unfold limb_ok, BASE_81; lia]|].
        split; [rewrite length_upd; lia|].
        rewrite value_upd by lia. rewrite H3, H4, Hval by lia.
        rewrite Nat2Z.inj_succ, Z.pow_succ_r by lia. unfold BASE_81. lia.
      + rewrite u8_byte by (unfold is_byte; lia).
        split; [apply Forall_upd; [assumption | unfold limb_ok; lia]|].
        split; [rewrite length_upd; lia|].
        rewrite value_upd by lia. rewrite Hval. lia. }
  destruct Hinv as (Hr & Hlr & Hval).
  unfold len in Hval. rewrite firstn_all in Hval.
  split; [now apply limbs_ok_strip|]. split.
  { apply stripped_strip. intros E. rewrite E in Hlr. unfold len in Hlr.
    destruct (digits L); [congruence | discriminate]. }
  split; [reflexivity|]. now rewrite value_strip.
Qed.

End Additive.

Section AddSub.

Lemma stripped_length_mono (a b : list Z) :
  limbs_ok a -> limbs_ok b -> stripped b -> a <> [] ->
  value b <= value a -> (List.length b <= List.length a)%nat.
Proof.
  intros Ha Hb (Hne & [H1|Hlast]) Hane Hle.
  - destruct a; [congruence|]. cbn [List.length]. lia.
  - pose proof (value_ge_top b Hb Hne Hlast) as Htop.
    pose proof (value_bound a Ha) as Hba.
    assert (H : BASE_81 ^ (Z.of_nat (List.length b) - 1)
                < BASE_81 ^ Z.of_nat (List.length a)) by lia.
    apply Z.pow_lt_mono_r_iff in H; [lia | unfold BASE_81; lia | lia].
Qed.

Lemma all_zero_pos_iff (ds : list Z) :
  limbs_ok ds -> all_zero ds = false <-> 0 < value ds.
Proof.
  intros H. split; [now apply all_zero_false_pos|].
  intros Hpos. destruct (all_zero ds) eqn:E; [|reflexivity].
  apply all_zero_value in E; [lia | assumption].
Qed.

(** the sum of two BigInts with stripped limbs and a sign field of 0 or
    1, one of them canonical (the other may be a negative zero, as the
    subtraction builds one) *)
Lemma add_big_signed (A B : T81BigInt) :
  limbs_ok (digits A) -> stripped (digits A) -> sign A = 0 \/ sign A = 1 ->
  limbs_ok (digits B) -> stripped (digits B) -> sign B = 0 \/ sign B = 1 ->
  canonical A = true \/ canonical B = true ->
  exists R : T81BigInt,
    tritjs_add_big A B = Ok R /\ canonical R = true /\ to_Z R = to_Z A + to_Z B.
Proof.
  intros HA HsA HgA HB HsB HgB Hcan. unfold tritjs_add_big.
  pose proof (value_bound _ HA) as HbA. pose proof (value_bound _ HB) as HbB.
  destruct (Z.eqb_spec (sign A) (sign B)) as [Hsame|Hdiff].
  - destruct (add_same_sign_spec A B HA HB) as (Hl & Hs & Hsg & Hv).
    eexists. split; [reflexivity|]. split.
    + apply canonical_iff. split; [assumption|]. split; [assumption|].
      rewrite Hsg. destruct HgA as [H0|H1]; [now left|right].
      split; [assumption|]. apply all_zero_pos_iff; [assumption|]. rewrite Hv.
      destruct Hcan as [Hc|Hc]; apply canonical_iff in Hc;
        destruct Hc as (_ & _ & [Hc|(_ & Hc)]); try congruence;
        apply all_zero_pos_iff in Hc; try assumption; lia.
    + unfold to_Z. rewrite Hsg, <- Hsame, Hv. destruct (sign A =? 0); lia.
  - rewrite (cmp_base81_sgn _ _ HA HB).
    assert (HneA : digits A <> []) by apply HsA.
    assert (HneB : digits B <> []) by apply HsB.
    destruct (Z.lt_trichotomy (value (digits A)) (value (digits B))) as [Hlt|[Heq|Hgt]].
    + rewrite Z.sgn_neg by lia. cbn [Z.gtb Z.ltb Z.compare].
      destruct (sub_magnitudes_spec B A (sign B) HB HA HneB) as (Hl & Hs & Hsg & Hv).
      { apply stripped_length_mono; try assumption. lia. }
      { lia. }
      eexists. split; [reflexivity|]. split.
      * apply canonical_iff. split; [assumption|]. split; [assumption|].
        rewrite Hsg. destruct HgB as [H0|H1]; [now left|right].
        split; [assumption|]. apply all_zero_pos_iff; [assumption|]. lia.
      * unfold to_Z. rewrite Hsg, Hv.
        destruct HgA as [Ha|Ha], HgB as [Hb|Hb]; rewrite Ha, Hb in *;
          cbn [Z.eqb]; try congruence; lia.
    + rewrite Z.sgn_null by lia. cbn [Z.gtb Z.ltb Z.compare].
      eexists. split; [reflexivity|]. split; [reflexivity|].
      unfold to_Z. cbn [sign digits value Z.eqb].
      destruct HgA as [Ha|Ha], HgB as [Hb|Hb]; rewrite Ha, Hb in *;
        cbn [Z.eqb]; try congruence; lia.
    + rewrite Z.sgn_pos by lia. cbn [Z.gtb Z.ltb Z.compare].
      destruct (sub_magnitudes_spec A B (sign A) HA HB HneA) as (Hl & Hs & Hsg & Hv).
      { apply stripped_length_mono; try assumption. lia. }
      { lia. }
      eexists. split; [reflexivity|]. split.
      * apply canonical_iff. split; [assumption|]. split; [assumption|].
        rewrite Hsg. destruct HgA as [H0|H1]; [now left|right].
        split; [assumption|]. apply all_zero_pos_iff; [assumption|]. lia.
      * unfold to_Z. rewrite Hsg, Hv.
        destruct HgA as [Ha|Ha], HgB as [Hb|Hb]; rewrite Ha, Hb in *;
          cbn [Z.eqb]; try congruence; lia.
Qed.

Lemma canonical_sign01 (x : T81BigInt) :
  canonical x = true -> sign x = 0 \/ sign x = 1.
Proof.
  intros H. apply canonical_iff in H. destruct H as (_ & _ & [H|(H & _)]); auto.
Qed.

End AddSub.

(** X1: [tritjs_add_big] is exact on canonical operands.  For all
    canonical BigInts A and B, of any lengths and signs, it succeeds with
    a canonical BigInt (limbs in [0, 80], no high-order zero limb, no
    negative zero) that stands for the integer A + B. *)
Theorem add_big_correct (A B : T81BigInt) :
  canonical A = true -> canonical B = true ->
  exists R : T81BigInt,
    tritjs_add_big A B = Ok R /\ canonical R = true /\ to_Z R = to_Z A + to_Z B.
Proof.
  intros HA HB.
  pose proof (canonical_sign01 A HA) as HgA. pose proof (canonical_sign01 B HB) as HgB.
  pose proof HA as HA'. pose proof HB as HB'.
  apply canonical_iff in HA' as (HlA & HsA & _). apply canonical_iff in HB' as (HlB & HsB & _).
  apply add_big_signed; auto.
Qed.

Lemma add_big_correct_witness :
  exists R : T81BigInt,
    tritjs_add_big (mkBig 0 [80; 80]) (mkBig 1 [1; 0; 1]) = Ok R
    /\ canonical R = true
    /\ to_Z R = to_Z (mkBig 0 [80; 80]) + to_Z (mkBig 1 [1; 0; 1]).
Proof.
  apply (add_big_correct (mkBig 0 [80; 80]) (mkBig 1 [1; 0; 1])); reflexivity.
Defined.

(** X2: [tritjs_subtract_big] is exact on canonical operands.  It flips
    the sign field of a copy of B, which turns a zero B into a negative
    zero, and adds; for all canonical A and B the result is the canonical
    BigInt that stands for A - B. *)
Theorem subtract_big_correct (A B : T81BigInt) :
  canonical A = true -> canonical B = true ->
  exists R : T81BigInt,
    tritjs_subtract_big A B = Ok R /\ canonical R = true /\ to_Z R = to_Z A - to_Z B.
Proof.
  intros HA HB. unfold tritjs_subtract_big.
  pose proof (canonical_sign01 A HA) as HgA. pose proof (canonical_sign01 B HB) as HgB.
  pose proof HA as HA'. pose proof HB as HB'.
  apply canonical_iff in HA' as (HlA & HsA & _). apply canonical_iff in HB' as (HlB & HsB & _).
  set (tmp := mkBig (if sign B =? 0 then 1 else 0) (digits B)).
  destruct (add_big_signed A tmp) as (R & E & Hc & Hv); auto.
  { unfold tmp. cbn [sign]. destruct (sign B =? 0); auto. }
  exists R. split; [assumption|]. split; [assumption|].
  rewrite Hv. unfold to_Z, tmp. cbn [sign digits].
  destruct HgB as [Hb|Hb]; rewrite Hb; cbn [Z.eqb]; lia.
Qed.

Lemma subtract_big_correct_witness :
  exists R : T81BigInt,
    tritjs_subtract_big (mkBig 0 [0; 1]) (mkBig 0 [1]) = Ok R
    /\ canonical R = true
    /\ to_Z R = to_Z (mkBig 0 [0; 1]) - to_Z (mkBig 0 [1]).
Proof.
  apply (subtract_big_correct (mkBig 0 [0; 1]) (mkBig 0 [1])); reflexivity.
Defined.

(** *** Multiplication *)

(** X4: the schoolbook product [naive_mul] is exact.  For digit arrays A
    and B of base-81 limbs, of any lengths, it fills an array of
    [alen + blen] limbs, every one again in [0, 80], whose magnitude is
    the product of the magnitudes of A and B. *)
Theorem naive_mul_exact (A B : list Z) :
  limbs_ok A -> limbs_ok B ->
  limbs_ok (naive_mul A (List.length A) B (List.length B))
  /\ List.length (naive_mul A (List.length A) B (List.length B))
     = (List.length A + List.length B)%nat
  /\ value (naive_mul A (List.length A) B (List.length B)) = value A * value B.
Proof.
  intros HA HB. now apply naive_mul_spec.
Qed.

Lemma naive_mul_exact_witness :
  limbs_ok (naive_mul [80; 80] (List.length [80; 80]) [80; 7; 3] (List.length [80; 7; 3]))
  /\ List.length (naive_mul [80; 80] (List.length [80; 80]) [80; 7; 3]
                            (List.length [80; 7; 3]))
     = (List.length [80; 80] + List.length [80; 7; 3])%nat
  /\ value (naive_mul [80; 80] (List.length [80; 80]) [80; 7; 3] (List.length [80; 7; 3]))
     = value [80; 80] * value [80; 7; 3].
Proof.
  apply (naive_mul_exact [80; 80] [80; 7; 3]); repeat constructor; unfold limb_ok; lia.
Defined.

(** X5: [tritjs_multiply_big] is exact on operands of at most 15 limbs.
    For canonical A and B of at most 15 limbs each, and a cache that
    holds only products the multiplier computed, it succeeds with the
    canonical BigInt that stands for A * B, whether the product comes out
    of the cache or is computed, and the cache it leaves behind again
    holds only such products.  (The initial cache is one:
    [cache_init_sound].) *)
Theorem multiply_big_exact (cache : MulCache) (a b : T81BigInt) :
  canonical a = true -> canonical b = true ->
  (len a <= 15)%nat -> (len b <= 15)%nat ->
  cache_sound cache ->
  exists (R : T81BigInt) (cache' : MulCache),
    tritjs_multiply_big cache a b = Some (Ok R, cache')
    /\ canonical R = true
    /\ to_Z R = to_Z a * to_Z b
    /\ cache_sound cache'.
Proof.
  intros Ca Cb La Lb Hs.
  destruct (multiply_with_cache_small cache a b Ca Cb La Lb Hs) as (cache' & E & Hs').
  destruct (multiply_small a b Ca Cb ltac:(lia) ltac:(lia)) as (Cr & Vr).
  exists (t81bigint_karatsuba_multiply a b), cache'.
  unfold tritjs_multiply_big. rewrite E. auto.
Qed.

Lemma multiply_big_exact_witness :
  exists (R : T81BigInt) (cache' : MulCache),
    tritjs_multiply_big mul_cache_init (mkBig 1 [80; 80]) (mkBig 0 [7; 1]) = Some (Ok R, cache')
    /\ canonical R = true
    /\ to_Z R = to_Z (mkBig 1 [80; 80]) * to_Z (mkBig 0 [7; 1])
    /\ cache_sound cache'.
Proof.
  apply (multiply_big_exact mul_cache_init (mkBig 1 [80; 80]) (mkBig 0 [7; 1]));
    [reflexivity | reflexivity | cbn; lia | cbn; lia | exact cache_init_sound].
Defined.

(** *** The multiplication cache: what a call leaves behind *)

Section CacheStore.

Lemma substring_length_le (s : string) :
  forall n : nat, (String.length (substring 0 n s) <= n)%nat.
Proof.
  induction s as [|c s IH]; intros [|n]; cbn; try lia.
  specialize (IH n). lia.
Qed.

Lemma cache_key_short (a b : T81BigInt) (k : string) :
  cache_key a b = Some k -> substring 0 127 k = k.
Proof.
  unfold cache_key.
  destruct (t81bigint_to_trit_string a); [|discriminate].
  destruct (t81bigint_to_trit_string b); [|discriminate].
  intros [= <-]. apply substring_all. apply substring_length_le.
Qed.

Lemma lookup_filled_slot (k : string) (v : T81BigInt) (cache : MulCache) :
  forall j : nat,
    first_unused cache = Some j ->
    mul_cache_lookup cache k = None ->
    mul_cache_lookup (upd cache j (mkEntry k (mkBig (sign v) (digits v)) true)) k = Some v.
Proof.
  induction cache as [|e tl IH]; intros j Hj Hmiss; cbn [first_unused] in Hj; [discriminate|].
  cbn [mul_cache_lookup] in Hmiss.
  destruct (used e) eqn:Eu.
  - destruct (first_unused tl) as [j'|]; [|discriminate]. injection Hj as <-.
    cbn [andb] in Hmiss. destruct (String.eqb (key e) k) eqn:Ek; [discriminate|].
    cbn [upd mul_cache_lookup]. rewrite Eu, Ek. cbn [andb]. now apply IH.
  - injection Hj as <-. cbn [upd mul_cache_lookup used key result andb sign digits].
    rewrite String.eqb_refl. now rewrite big_eta.
Qed.

Lemma lookup_after_store (cache : MulCache) (k : string) (v : T81BigInt) :
  cache <> [] -> substring 0 127 k = k ->
  mul_cache_lookup cache k = None ->
  mul_cache_lookup (mul_cache_store cache k v) k = Some v.
Proof.
  intros Hne Hk Hmiss. unfold mul_cache_store. rewrite Hk.
  destruct (first_unused cache) as [j|] eqn:Ej.
  - now apply lookup_filled_slot.
  - destruct cache as [|e tl]; [congruence|].
    cbn [upd mul_cache_lookup used key result andb sign digits].
    rewrite String.eqb_refl. now rewrite big_eta.
Qed.

Lemma first_unused_full (cache : MulCache) :
  cache_full cache = true -> first_unused cache = None.
Proof.
  unfold cache_full. induction cache as [|e tl IH]; cbn [forallb first_unused]; [reflexivity|].
  intros H. apply andb_true_iff in H as (H1 & H2). rewrite H1, (IH H2). reflexivity.
Qed.

End CacheStore.

(** X6: the cache remembers.  After any successful call of
    [multiply_with_cache] on a cache with at least one slot, looking up
    the key of the operands in the cache left behind finds the BigInt
    that was returned, so repeating the call returns the same BigInt and
    leaves the cache as it is. *)
Theorem cache_remembers (cache cache' : MulCache) (a b out : T81BigInt) :
  cache <> [] ->
  multiply_with_cache cache a b = Some (out, cache') ->
  exists k : string,
    cache_key a b = Some k
    /\ mul_cache_lookup cache' k = Some out
    /\ multiply_with_cache cache' a b = Some (out, cache').
Proof.
  intros Hne. unfold multiply_with_cache.
  destruct (cache_key a b) as [k|] eqn:Ek; [|discriminate].
  destruct (mul_cache_lookup cache k) as [hit|] eqn:El.
  - intros [= <- <-]. exists k. split; [reflexivity|]. split; [assumption|].
    now rewrite El.
  - intros [= <- <-]. exists k. split; [reflexivity|].
    pose proof (lookup_after_store cache k (t81bigint_karatsuba_multiply a b) Hne
                  (cache_key_short a b k Ek) El) as Hhit.
    split; [assumption|]. now rewrite Hhit.
Qed.

Lemma cache_remembers_witness :
  exists k : string,
    cache_key (mkBig 0 [5]) (mkBig 1 [7]) = Some k
    /\ mul_cache_lookup
         (mul_cache_store mul_cache_init "mul:12:-21" (mkBig 1 [35])) k
       = Some (mkBig 1 [35])
    /\ multiply_with_cache
         (mul_cache_store mul_cache_init "mul:12:-21" (mkBig 1 [35]))
         (mkBig 0 [5]) (mkBig 1 [7])
       = Some (mkBig 1 [35], mul_cache_store mul_cache_init "mul:12:-21" (mkBig 1 [35])).
Proof.
  apply (cache_remembers mul_cache_init
           (mul_cache_store mul_cache_init "mul:12:-21" (mkBig 1 [35]))
           (mkBig 0 [5]) (mkBig 1 [7]) (mkBig 1 [35])).
  - discriminate.
  - reflexivity.
Defined.

(** X7: the replacement policy.  A call of [multiply_with_cache] never
    changes the number of slots; once every slot is in use, a call
    changes at most slot 0 -- the slots after it keep their entries, and
    every slot stays in use. *)
Theorem cache_replaces_slot_0 (cache cache' : MulCache) (a b out : T81BigInt) :
  multiply_with_cache cache a b = Some (out, cache') ->
  List.length cache' = List.length cache
  /\ (cache_full cache = true ->
      tl cache' = tl cache /\ cache_full cache' = true).
Proof.
  unfold multiply_with_cache.
  destruct (cache_key a b) as [k|]; [|discriminate].
  destruct (mul_cache_lookup cache k) as [hit|].
  - intros [= <- <-]. auto.
  - intros [= <- <-]. unfold mul_cache_store. split; [apply length_upd|].
    intros Hfull. rewrite (first_unused_full cache Hfull).
    destruct cache as [|e rest]; [auto|]. cbn [upd tl]. split; [reflexivity|].
    unfold cache_full in *. cbn [forallb used] in *.
    apply andb_true_iff in Hfull as (_ & H). now rewrite H.
Qed.

Lemma cache_replaces_slot_0_witness :
  List.length (mul_cache_store (repeat (mkEntry "mul:1:1" (mkBig 0 [1]) true) 8)
                               "mul:2:2" (mkBig 0 [4]))
  = List.length (repeat (mkEntry "mul:1:1" (mkBig 0 [1]) true) 8)
  /\ (cache_full (repeat (mkEntry "mul:1:1" (mkBig 0 [1]) true) 8) = true ->
      tl (mul_cache_store (repeat (mkEntry "mul:1:1" (mkBig 0 [1]) true) 8)
                          "mul:2:2" (mkBig 0 [4]))
      = tl (repeat (mkEntry "mul:1:1" (mkBig 0 [1]) true) 8)
      /\ cache_full (mul_cache_store (repeat (mkEntry "mul:1:1" (mkBig 0 [1]) true) 8)
                                     "mul:2:2" (mkBig 0 [4])) = true).
Proof.
  apply (cache_replaces_slot_0
           (repeat (mkEntry "mul:1:1" (mkBig 0 [1]) true) 8)
           (mul_cache_store (repeat (mkEntry "mul:1:1" (mkBig 0 [1]) true) 8)
                            "mul:2:2" (mkBig 0 [4]))
           (mkBig 0 [2]) (mkBig 0 [2]) (mkBig 0 [4])).
  reflexivity.
Defined.

(** *** The text of a BigInt, read back *)

Section TextValue.

Lemma be3_app (l : list Z) (c : Z) : be3 (l ++ [c]) = 3 * be3 l + (c - code "0").
Proof. unfold be3. rewrite fold_left_app. reflexivity. Qed.

Lemma be3_rev (buf : list Z) : be3 (rev buf) = le3 buf.
Proof.
  induction buf as [|c buf IH]; [reflexivity|].
  cbn [rev le3]. rewrite be3_app, IH. lia.
Qed.

Lemma to_Z_zero1 (x : T81BigInt) : is_zero1 x = true -> to_Z x = 0.
Proof.
  intros H. apply is_zero1_digits in H. unfold to_Z. rewrite H. cbn [value].
  destruct (sign x =? 0); lia.
Qed.

Lemma trit_code_not_minus (c : Z) : trit_code c -> (c =? code "-") = false.
Proof.
  unfold trit_code. intros H. change (code "-") with 45. apply Z.eqb_neq. lia.
Qed.

(** the characters of the text: the digits spell the magnitude, and a
    '-' stands in front exactly when the sign field is set on a BigInt
    other than the single limb 0 *)
Lemma trit_string_chars (x : T81BigInt) :
  wf x ->
  exists (s : string) (body : list Z),
    t81bigint_to_trit_string x = Some s
    /\ chars s = (if is_zero1 x || (sign x =? 0) then body else code "-" :: body)
    /\ (exists c0 tl, body = c0 :: tl /\ trit_code c0)
    /\ Forall trit_code body
    /\ (List.length body <= 4 * len x)%nat
    /\ be3 body = value (digits x)
    /\ to_Z x = (if is_zero1 x || (sign x =? 0)
                 then value (digits x) else - value (digits x)).
Proof.
  intros Hwf. destruct (trit_string_spec x Hwf) as (buf & E & Hne & Hcodes & Hlen & Hval).
  exists (text (rev (buf ++ sign_chars x))), (rev buf).
  split; [assumption|]. split.
  { rewrite chars_text by now apply text_chars_bytes.
    rewrite rev_app_distr. unfold sign_chars.
    destruct (is_zero1 x || (sign x =? 0)); reflexivity. }
  split.
  { destruct (rev buf) as [|c0 tl] eqn:Er.
    - apply (f_equal (@rev Z)) in Er. rewrite rev_involutive in Er. cbn in Er. congruence.
    - exists c0, tl. split; [reflexivity|].
      apply Forall_rev in Hcodes. rewrite Er in Hcodes. now inversion Hcodes. }
  split; [now apply Forall_rev|]. split; [now rewrite length_rev|].
  split; [now rewrite be3_rev|].
  destruct (is_zero1 x) eqn:Ez; cbn [orb].
  - rewrite to_Z_zero1 by assumption. apply is_zero1_digits in Ez. now rewrite Ez.
  - reflexivity.
Qed.

Lemma fold_trits_ge (cs : list Z) :
  forall acc : Z,
    Forall trit_code cs -> 0 <= acc ->
    acc <= fold_left (fun a c => 3 * a + (c - code "0")) cs acc.
Proof.
  induction cs as [|c cs IH]; intros acc Hcs Hacc; cbn [fold_left]; [lia|].
  inversion Hcs as [|? ? Hc Hcs']; subst. unfold trit_code in Hc.
  change (code "0") with 48 in *.
  specialize (IH (3 * acc + (c - 48)) Hcs' ltac:(lia)). lia.
Qed.

Lemma accum_trits_spec (cs : list Z) :
  forall acc : Z,
    Forall trit_code cs -> 0 <= acc <= INT_MAX ->
    accum_trits cs acc
    = if fold_left (fun a c => 3 * a + (c - code "0")) cs acc <=? INT_MAX
      then Ok (fold_left (fun a c => 3 * a + (c - code "0")) cs acc)
      else Err Overflow.
Proof.
  induction cs as [|c cs IH]; intros acc Hcs Hacc; cbn [fold_left accum_trits].
  - destruct (Z.leb_spec acc INT_MAX); [reflexivity | lia].
  - inversion Hcs as [|? ? Hc Hcs']; subst. pose proof Hc as Hc'. unfold trit_code in Hc'.
    change (code "0") with 48 in *. change (code "2") with 50.
    destruct (Z.ltb_spec c 48); [lia|]. destruct (Z.gtb_spec c 50); [lia|]. cbn [orb].
    replace (acc * 3 + (c - 48)) with (3 * acc + (c - 48)) by lia.
    destruct (Z.gtb_spec (3 * acc + (c - 48)) INT_MAX) as [Hbig|Hsmall].
    + pose proof (fold_trits_ge cs (3 * acc + (c - 48)) Hcs' ltac:(lia)) as Hge.
      change (code "0") with 48 in Hge.
      destruct (Z.leb_spec (fold_left (fun a c0 => 3 * a + (c0 - 48)) cs
                                      (3 * acc + (c - 48))) INT_MAX); [lia | reflexivity].
    + apply IH; [assumption | lia].
Qed.

Lemma trit_string_value (x : T81BigInt) :
  wf x ->
  exists s : string,
    t81bigint_to_trit_string x = Some s
    /\ text_value s = to_Z x
    /\ (String.length s <= 4 * len x + 1)%nat.
Proof.
  intros Hwf.
  destruct (trit_string_chars x Hwf)
    as (s & body & E & Hchars & (c0 & tl & Hbody & Hc0) & Hcodes & Hlen & Hval & HZ).
  exists s. split; [assumption|]. split.
  - unfold text_value. rewrite Hchars, HZ.
    destruct (is_zero1 x || (sign x =? 0)).
    + rewrite Hbody, trit_code_not_minus by assumption. now rewrite <- Hbody.
    + rewrite Z.eqb_refl. now rewrite Hval.
  - rewrite <- (text_chars s), text_length, Hchars.
    destruct (is_zero1 x || (sign x =? 0)); cbn [List.length]; lia.
Qed.

End TextValue.

(** X8: the text of a BigInt spells its value.  For every BigInt with at
    least one limb and limbs in [0, 80], [t81bigint_to_trit_string]
    stays inside its buffer and returns a text of at most [4 * len + 1]
    characters that the parser accepts (an optional '-', then digits
    '0', '1', '2') and that, read as a ternary numeral, is the integer
    the BigInt stands for. *)
Theorem to_text_spells_value (x : T81BigInt) :
  wf x ->
  exists s : string,
    t81bigint_to_trit_string x = Some s
    /\ trit_text s = true
    /\ text_value s = to_Z x
    /\ (String.length s <= 4 * len x + 1)%nat.
Proof.
  intros Hwf.
  destruct (trit_string_value x Hwf) as (s & E & Hv & Hl).
  exists s. split; [assumption|]. split; [|auto].
  destruct (trit_string_chars x Hwf)
    as (s' & body & E' & Hchars & (c0 & rest & Hbody & Hc0) & Hcodes & _).
  rewrite E in E'. injection E' as <-.
  assert (Hall : forallb is_trit_char body = true).
  { apply forallb_forall. intros c Hc. rewrite Forall_forall in Hcodes.
    specialize (Hcodes c Hc). unfold trit_code in Hcodes. unfold is_trit_char.
    change (code "0") with 48. change (code "2") with 50.
    apply andb_true_iff. split; apply Z.leb_le; lia. }
  unfold trit_text, text_body. rewrite Hchars.
  destruct (is_zero1 x || (sign x =? 0)).
  - rewrite Hbody, trit_code_not_minus by assumption. now rewrite <- Hbody.
  - now rewrite Z.eqb_refl.
Qed.

Lemma to_text_spells_value_witness :
  exists s : string,
    t81bigint_to_trit_string (mkBig 1 [7; 2]) = Some s
    /\ trit_text s = true
    /\ text_value s = to_Z (mkBig 1 [7; 2])
    /\ Nat.le (String.length s) (4 * len (mkBig 1 [7; 2]) + 1).
Proof.
  apply (to_text_spells_value (mkBig 1 [7; 2])).
  split; [discriminate|]. repeat constructor; unfold limb_ok; lia.
Defined.

(** X9: the text is injective on canonical BigInts: two canonical
    BigInts with the same text are the same BigInt, limb for limb. *)
Theorem to_text_injective (x y : T81BigInt) :
  canonical x = true -> canonical y = true ->
  t81bigint_to_trit_string x = t81bigint_to_trit_string y -> x = y.
Proof.
  intros Hx Hy. now apply trit_string_inj.
Qed.

Lemma to_text_injective_witness : mkBig 1 [7; 2] = mkBig 1 [7; 2].
Proof.
  apply (to_text_injective (mkBig 1 [7; 2]) (mkBig 1 [7; 2])); reflexivity.
Defined.

(** X12: [trit_to_binary] returns the integer a BigInt stands for.  For
    every BigInt with at least one limb and limbs in [0, 80] it answers
    the value, with its sign, when the magnitude is at most [INT_MAX],
    and error 4 (Overflow) otherwise; it never answers error 2. *)
Theorem trit_to_binary_correct (x : T81BigInt) :
  wf x ->
  trit_to_binary x
  = Some (if value (digits x) <=? INT_MAX then Ok (to_Z x) else Err Overflow).
Proof.
  intros Hwf.
  destruct (trit_string_chars x Hwf)
    as (s & body & E & Hchars & (c0 & tl & Hbody & Hc0) & Hcodes & Hlen & Hval & HZ).
  unfold trit_to_binary. rewrite E, Hchars, HZ.
  assert (Hacc : accum_trits body 0
                 = if value (digits x) <=? INT_MAX then Ok (value (digits x))
                   else Err Overflow).
  { rewrite accum_trits_spec; [|assumption | unfold INT_MAX; lia].
    fold (be3 body). now rewrite Hval. }
  destruct (is_zero1 x || (sign x =? 0)).
  - rewrite Hbody, trit_code_not_minus by assumption. rewrite <- Hbody, Hacc.
    destruct (value (digits x) <=? INT_MAX); reflexivity.
  - rewrite Z.eqb_refl, Hacc.
    destruct (value (digits x) <=? INT_MAX); reflexivity.
Qed.

Lemma trit_to_binary_correct_witness :
  trit_to_binary (mkBig 1 [80; 80; 3])
  = Some (if value (digits (mkBig 1 [80; 80; 3])) <=? INT_MAX
          then Ok (to_Z (mkBig 1 [80; 80; 3])) else Err Overflow).
Proof.
  apply (trit_to_binary_correct (mkBig 1 [80; 80; 3])).
  split; [discriminate|]. repeat constructor; unfold limb_ok; lia.
Defined.

(** *** The parser *)

Section Parsing.

Lemma scale_add_ok (m : Z) (ds : list Z) :
  forall carry : Z,
    0 <= m -> limbs_ok ds -> 0 <= carry ->
    limbs_ok (fst (scale_add m ds carry))
    /\ List.length (fst (scale_add m ds carry)) = List.length ds
    /\ 0 <= snd (scale_add m ds carry).
Proof.
  induction ds as [|d ds IH]; intros carry Hm Hds Hc; cbn [scale_add].
  - cbn. repeat split; [constructor | assumption].
  - inversion Hds as [|? ? Hd Hds']; subst. unfold limb_ok in Hd.
    destruct (rem_quot_nonneg (d * m + carry) ltac:(nia)) as (Hrem & Hq).
    specialize (IH (Z.quot (d * m + carry) BASE_81) Hm Hds' Hq).
    destruct (scale_add m ds (Z.quot (d * m + carry) BASE_81)) as [tl' c].
    cbn [fst snd] in *. destruct IH as (H1 & H2 & H3).
    rewrite u8_byte by (unfold is_byte; lia).
    split; [constructor; [unfold limb_ok; lia | assumption]|].
    split; [cbn [List.length]; lia | assumption].
Qed.

Lemma grow_carry_ok (fuel : nat) :
  forall (out : T81BigInt) (carry : Z),
    limbs_ok (digits out) -> digits out <> [] -> 0 <= carry ->
    limbs_ok (digits (grow_carry fuel out carry))
    /\ digits (grow_carry fuel out carry) <> []
    /\ sign (grow_carry fuel out carry) = sign out.
Proof.
  induction fuel as [|fuel IH]; intros out carry Hl Hne Hc; cbn [grow_carry]; [auto|].
  destruct (carry =? 0); [auto|].
  destruct (rem_quot_nonneg carry Hc) as (Hrem & Hq).
  rewrite u8_byte by (unfold is_byte; lia).
  unfold allocate_digits. cbn [digits sign].
  match goal with |- context [grow_carry fuel ?o ?c] =>
    destruct (IH o c) as (H1 & H2 & H3) end.
  - cbn [digits]. apply Forall_upd; [apply limbs_ok_repeat0 | unfold limb_ok; lia].
  - cbn [digits]. intros E. apply (f_equal (@List.length Z)) in E.
    rewrite length_upd, repeat_length in E. cbn in E. lia.
  - assumption.
  - auto.
Qed.

Lemma push_ok (m : Z) (out : T81BigInt) (d : Z) :
  0 <= m -> 0 <= d -> limbs_ok (digits out) -> digits out <> [] ->
  limbs_ok (digits (push m out d))
  /\ digits (push m out d) <> []
  /\ sign (push m out d) = sign out.
Proof.
  intros Hm Hd Hl Hne. unfold push.
  pose proof (scale_add_ok m (digits out) d Hm Hl Hd) as (H1 & H2 & H3).
  destruct (scale_add m (digits out) d) as [ds carry]. cbn [fst snd] in *.
  destruct (grow_carry_ok (Z.to_nat carry) (mkBig (sign out) ds) carry) as (G1 & G2 & G3);
    cbn [digits sign]; auto.
  intros E. rewrite E in H2. destruct (digits out); [congruence | discriminate].
Qed.

Lemma is_trit_char_range (c : Z) :
  is_trit_char c = negb ((c - code "0" <? 0) || (c - code "0" >? 2)).
Proof.
  unfold is_trit_char. change (code "0") with 48. change (code "2") with 50.
  destruct (Z.leb_spec 48 c), (Z.leb_spec c 50), (Z.ltb_spec (c - 48) 0),
    (Z.gtb_spec (c - 48) 2); cbn; lia || reflexivity.
Qed.

Lemma is_trit_char_bounds (c : Z) : is_trit_char c = true -> 0 <= c - code "0" <= 2.
Proof.
  unfold is_trit_char. change (code "0") with 48. change (code "2") with 50.
  intros H. apply andb_true_iff in H as (H1 & H2). lia.
Qed.

Lemma parse_head_accepts (sg : Z) (cs : list Z) :
  forall out : T81BigInt,
    acc_ok sg out ->
    if forallb is_trit_char cs
    then exists out', parse_head cs out = Ok out' /\ acc_ok sg out'
    else parse_head cs out = Err InvalidInput.
Proof.
  induction cs as [|c cs IH]; intros out Hout; cbn [forallb parse_head].
  - now exists out.
  - rewrite is_trit_char_range.
    destruct ((c - code "0" <? 0) || (c - code "0" >? 2)) eqn:E; cbn [negb andb].
    + reflexivity.
    + apply IH. destruct Hout as (H1 & H2 & H3).
      assert (Hb : is_trit_char c = true) by (rewrite is_trit_char_range, E; reflexivity).
      apply is_trit_char_bounds in Hb.
      destruct (push_ok 3 out (c - code "0")) as (P1 & P2 & P3); try assumption; try lia.
      repeat split; try assumption. congruence.
Qed.

Lemma parse_groups_accepts (sg : Z) (k : nat) :
  forall (cs : list Z) (out : T81BigInt),
    List.length cs = (4 * k)%nat -> acc_ok sg out ->
    if forallb is_trit_char cs
    then exists out', parse_groups cs out = Ok out' /\ acc_ok sg out'
    else parse_groups cs out = Err InvalidInput.
Proof.
  induction k as [|k IH]; intros cs out Hlen Hout.
  - destruct cs; [|discriminate]. cbn. now exists out.
  - destruct cs as [|c0 [|c1 [|c2 [|c3 tl]]]]; cbn [List.length] in Hlen; try lia.
    cbn [forallb parse_groups].
    destruct (is_trit_char c0) eqn:E0; cbn [andb]; [|reflexivity].
    destruct (is_trit_char c1) eqn:E1; cbn [andb]; [|reflexivity].
    destruct (is_trit_char c2) eqn:E2; cbn [andb]; [|reflexivity].
    destruct (is_trit_char c3) eqn:E3; cbn [andb]; [|reflexivity].
    apply IH; [lia|].
    apply is_trit_char_bounds in E0, E1, E2, E3.
    destruct Hout as (H1 & H2 & H3).
    match goal with |- acc_ok _ (push 81 out ?g) =>
      destruct (push_ok 81 out g) as (P1 & P2 & P3); try assumption; try lia end.
    repeat split; try assumption. congruence.
Qed.

End Parsing.

(** X10: what [parse_trit_string] accepts.  It succeeds exactly on the
    texts that are not empty and hold only the digits '0', '1', '2' after
    an optional leading '-' (the text "-" alone included); on every other
    text it answers error 2 (InvalidInput).  When it succeeds, the result
    has limbs in [0, 80] and no high-order zero limb, and its sign field
    is 1 exactly when the text starts with '-'. *)
Theorem parse_trit_string_accepts (s : string) :
  if trit_text s
  then exists x : T81BigInt,
         parse_trit_string s = Ok x
         /\ limbs_ok (digits x) /\ stripped (digits x)
         /\ sign x = (if hd 0 (chars s) =? code "-" then 1 else 0)
  else parse_trit_string s = Err InvalidInput.
Proof.
  unfold trit_text, text_body, parse_trit_string, parse_trit_string_base81_optimized.
  destruct (chars s) as [|c0 tl] eqn:Ecs; [reflexivity|].
  cbn [hd].
  set (sg := if c0 =? code "-" then 1 else 0).
  set (body := if c0 =? code "-" then tl else c0 :: tl).
  assert (Hbody : (let '(sgn, pos) := if c0 =? code "-" then (1, 1%nat) else (0, 0%nat) in
                   (sgn, skipn pos (c0 :: tl))) = (sg, body)).
  { unfold sg, body. destruct (c0 =? code "-"); reflexivity. }
  destruct (if c0 =? code "-" then (1, 1%nat) else (0, 0%nat)) as [sgn pos] eqn:Esp.
  injection Hbody as -> ->.
  set (rm := (List.length body mod 4)%nat).
  assert (Hsplit : forallb is_trit_char body
                   = forallb is_trit_char (firstn rm body)
                     && forallb is_trit_char (skipn rm body)).
  { rewrite <- forallb_app, firstn_skipn. reflexivity. }
  rewrite Hsplit.
  assert (H0 : acc_ok sg (mkBig sg [0])).
  { repeat split; [repeat constructor; unfold limb_ok; lia | discriminate]. }
  pose proof (parse_head_accepts sg (firstn rm body) (mkBig sg [0]) H0) as Hhead.
  destruct (forallb is_trit_char (firstn rm body)); cbn [andb].
  - destruct Hhead as (out1 & E1 & Hout1). rewrite E1. cbn [bind].
    pose proof (parse_groups_accepts sg (List.length body / 4) (skipn rm body) out1) as Hgr.
    destruct (forallb is_trit_char (skipn rm body)).
    + destruct Hgr as (out2 & E2 & (G1 & G2 & G3)); [|assumption|].
      { rewrite length_skipn. unfold rm.
        pose proof (Nat.div_mod_eq (List.length body) 4). lia. }
      rewrite E2. cbn [bind]. eexists. split; [reflexivity|]. cbn [digits sign].
      split; [now apply limbs_ok_strip|]. split; [now apply stripped_strip|]. assumption.
    + rewrite Hgr; [reflexivity| |assumption].
      rewrite length_skipn. unfold rm.
      pose proof (Nat.div_mod_eq (List.length body) 4). lia.
  - rewrite Hhead. reflexivity.
Qed.

(** *** Round trips on a single limb *)

Section SmallRoundTrips.

Lemma range_check (P : Z -> bool) (lo : Z) (k : nat) :
  forallb P (map (fun i => lo + Z.of_nat i) (seq 0 k)) = true ->
  forall n : Z, lo <= n < lo + Z.of_nat k -> P n = true.
Proof.
  intros H n Hn. rewrite forallb_forall in H. apply H.
  apply in_map_iff. exists (Z.to_nat (n - lo)). split; [lia|].
  apply in_seq. lia.
Qed.

Lemma digits_eqb_eq (a : list Z) : forall b : list Z, digits_eqb a b = true -> a = b.
Proof.
  induction a as [|x a IH]; intros [|y b] H; cbn in H; try discriminate; [reflexivity|].
  apply andb_true_iff in H as (H1 & H2). apply Z.eqb_eq in H1. subst.
  f_equal. now apply IH.
Qed.

Lemma big_eqb_eq (x y : T81BigInt) : big_eqb x y = true -> x = y.
Proof.
  destruct x as [sx dx], y as [sy dy]. unfold big_eqb. cbn [sign digits].
  intros H. apply andb_true_iff in H as (H1 & H2).
  apply Z.eqb_eq in H1. apply digits_eqb_eq in H2. now subst.
Qed.

Lemma canonical_one_limb (x : T81BigInt) :
  canonical x = true -> len x = 1%nat ->
  exists d : Z, 0 <= d <= 80
    /\ (x = mkBig 0 [d] \/ (x = mkBig 1 [d] /\ 1 <= d)).
Proof.
  intros Hc Hlen. apply canonical_iff in Hc as (Hl & _ & Hs).
  destruct x as [sg ds]. unfold len in Hlen. cbn [digits sign] in *.
  destruct ds as [|d [|? ?]]; try discriminate.
  inversion Hl as [|? ? Hd _]; subst. unfold limb_ok in Hd.
  exists d. split; [assumption|].
  destruct Hs as [->|(-> & Hz)]; [now left|right].
  split; [reflexivity|]. cbn in Hz. rewrite andb_true_r in Hz.
  apply Z.eqb_neq in Hz. lia.
Qed.

End SmallRoundTrips.

(** X11: the round trip through the text on one limb.  For every
    canonical BigInt of a single limb (the integers from -80 to 80),
    parsing the text of the BigInt gives the BigInt back. *)
Theorem text_roundtrip_one_limb (x : T81BigInt) :
  canonical x = true -> len x = 1%nat ->
  exists s : string,
    t81bigint_to_trit_string x = Some s /\ parse_trit_string s = Ok x.
Proof.
  intros Hc Hlen.
  set (check := fun (sg d : Z) =>
         match t81bigint_to_trit_string (mkBig sg [d]) with
         | Some s => match parse_trit_string s with
                     | Ok y => big_eqb (mkBig sg [d]) y
                     | Err _ => false
                     end
         | None => false
         end).
  assert (H0 : forall d, 0 <= d < 0 + Z.of_nat 81 -> check 0 d = true).
  { apply range_check. vm_compute. reflexivity. }
  assert (H1 : forall d, 1 <= d < 1 + Z.of_nat 80 -> check 1 d = true).
  { apply range_check. vm_compute. reflexivity. }
  destruct (canonical_one_limb x Hc Hlen) as (d & Hd & [->|(-> & Hd1)]).
  - specialize (H0 d ltac:(lia)). unfold check in H0.
    destruct (t81bigint_to_trit_string (mkBig 0 [d])) as [s|]; [|discriminate].
    exists s. split; [reflexivity|].
    destruct (parse_trit_string s) as [y|]; [|discriminate].
    apply big_eqb_eq in H0. now subst.
  - specialize (H1 d ltac:(lia)). unfold check in H1.
    destruct (t81bigint_to_trit_string (mkBig 1 [d])) as [s|]; [|discriminate].
    exists s. split; [reflexivity|].
    destruct (parse_trit_string s) as [y|]; [|discriminate].
    apply big_eqb_eq in H1. now subst.
Qed.

Lemma text_roundtrip_one_limb_witness :
  exists s : string,
    t81bigint_to_trit_string (mkBig 1 [80]) = Some s
    /\ parse_trit_string s = Ok (mkBig 1 [80]).
Proof.
  apply (text_roundtrip_one_limb (mkBig 1 [80])); reflexivity.
Defined.

(** X13: machine integers of one limb.  For every [int] n from -80 to 80,
    [binary_to_trit] succeeds with a canonical BigInt that stands for n,
    and [trit_to_binary] takes that BigInt back to n. *)
Theorem small_int_roundtrip (n : Z) :
  -80 <= n <= 80 ->
  exists x : T81BigInt,
    binary_to_trit n = Ok x /\ canonical x = true /\ to_Z x = n
    /\ trit_to_binary x = Some (Ok n).
Proof.
  intros Hn.
  set (check := fun n : Z =>
         match binary_to_trit n with
         | Ok x => canonical x && (to_Z x =? n)
                   && match trit_to_binary x with
                      | Some (Ok m) => m =? n
                      | _ => false
                      end
         | Err _ => false
         end).
  assert (H : forall n, -80 <= n < -80 + Z.of_nat 161 -> check n = true).
  { apply range_check. vm_compute. reflexivity. }
  specialize (H n ltac:(lia)). unfold check in H.
  destruct (binary_to_trit n) as [x|]; [|discriminate].
  exists x. split; [reflexivity|].
  apply andb_true_iff in H as (H & H3). apply andb_true_iff in H as (H1 & H2).
  split; [assumption|]. split; [now apply Z.eqb_eq|].
  destruct (trit_to_binary x) as [[m|]|]; try discriminate.
  apply Z.eqb_eq in H3. now subst.
Qed.

Lemma small_int_roundtrip_witness :
  exists x : T81BigInt,
    binary_to_trit (-80) = Ok x /\ canonical x = true /\ to_Z x = -80
    /\ trit_to_binary x = Some (Ok (-80)).
Proof.
  apply (small_int_roundtrip (-80)). lia.
Defined.

(** *** Factorial *)

(** X14: [tritjs_factorial_big] on a canonical argument a.  It answers
    error 6 (Negative) when a is negative and error 4 (Overflow) when a
    exceeds 20; for a from 0 to 20 it succeeds with a canonical BigInt,
    and that BigInt stands for a! exactly when a is at most 4: the
    base-81 digits of a! are all added in at limb 0. *)
Theorem factorial_big_behaviour (a : T81BigInt) :
  canonical a = true ->
  (to_Z a < 0 -> tritjs_factorial_big a = Err Negative)
  /\ (20 < to_Z a -> tritjs_factorial_big a = Err Overflow)
  /\ (0 <= to_Z a <= 20 ->
      exists r : T81BigInt,
        tritjs_factorial_big a = Ok r /\ canonical r = true
        /\ (to_Z r = factorial (Z.to_nat (to_Z a)) <-> to_Z a <= 4)).
Proof.
  intros Ca. destruct (canonical_sign_of_value a Ca) as [Hpos Hneg].
  split; [|split].
  - intros H. destruct (Hneg H) as [S _].
    unfold tritjs_factorial_big. now rewrite S.
  - intros H. specialize (Hpos ltac:(lia)).
    destruct (canonical_exponent a Ca Hpos) as [Hsmall Hbig].
    unfold tritjs_factorial_big. rewrite Hpos. cbn [Z.eqb negb].
    destruct (Z.le_gt_cases (to_Z a) 80) as [Hle|Hgt].
    + destruct (Hsmall Hle) as (d & Ed & Hd & Vd).
      unfold is_small_value, to_small_int, len, digit. rewrite Hpos, Ed.
      cbn [Z.eqb List.length Nat.eqb nth andb].
      rewrite (proj2 (Z.ltb_lt d 81)) by lia. cbn [negb].
      destruct (Z.gtb_spec d 20); [reflexivity | lia].
    + rewrite Hbig by lia. reflexivity.
  - intros H. specialize (Hpos ltac:(lia)).
    destruct (canonical_exponent a Ca Hpos) as [Hsmall _].
    destruct (Hsmall ltac:(lia)) as (d & Ed & Hd & Vd).
    assert (Ea : a = mkBig 0 [d]) by (rewrite <- (big_eta a), Hpos, Ed; reflexivity).
    rewrite Vd in *. subst a.
    set (check := fun d : Z =>
           match tritjs_factorial_big (mkBig 0 [d]) with
           | Ok r => canonical r
                     && Bool.eqb (to_Z r =? factorial (Z.to_nat d)) (d <=? 4)
           | Err _ => false
           end).
    assert (Hall : forall d, 0 <= d < 0 + Z.of_nat 21 -> check d = true).
    { apply range_check. vm_compute. reflexivity. }
    specialize (Hall d ltac:(lia)). unfold check in Hall.
    destruct (tritjs_factorial_big (mkBig 0 [d])) as [r|]; [|discriminate].
    exists r. split; [reflexivity|].
    apply andb_true_iff in Hall as (H1 & H2). split; [assumption|].
    apply Bool.eqb_prop in H2. rewrite <- Z.eqb_eq, <- Z.leb_le, H2. tauto.
Qed.

Lemma factorial_big_behaviour_witness :
  (to_Z (mkBig 0 [4]) < 0 -> tritjs_factorial_big (mkBig 0 [4]) = Err Negative)
  /\ (20 < to_Z (mkBig 0 [4]) -> tritjs_factorial_big (mkBig 0 [4]) = Err Overflow)
  /\ (0 <= to_Z (mkBig 0 [4]) <= 20 ->
      exists r : T81BigInt,
        tritjs_factorial_big (mkBig 0 [4]) = Ok r /\ canonical r = true
        /\ (to_Z r = factorial (Z.to_nat (to_Z (mkBig 0 [4])))
            <-> to_Z (mkBig 0 [4]) <= 4)).
Proof.
  apply (factorial_big_behaviour (mkBig 0 [4])). reflexivity.
Defined.

(** *** Left shift *)

Section Shift.

Lemma power_of_three (cache : MulCache) (e : Z) :
  0 <= e <= 59 -> cache_sound cache ->
  exists (r : T81BigInt) (cache' : MulCache),
    tritjs_power_big cache (mkBig 0 [3]) (mkBig 0 [e]) = Some (Ok r, cache')
    /\ canonical r = true /\ to_Z r = 3 ^ e /\ (len r <= 15)%nat
    /\ cache_sound cache'.
Proof.
  intros He Hs.
  assert (Hpow : forall j : nat, (j <= Z.to_nat e)%nat -> 3 ^ Z.of_nat j < BASE_81 ^ 15).
  { intros j Hj. change (BASE_81 ^ 15) with (3 ^ 60).
    apply Z.pow_lt_mono_r; lia. }
  destruct (power_loop_small (mkBig 0 [3]) (Z.to_nat e) cache (mkBig 0 [1]))
    as (r & cache' & E & Cr & Vr & Hs'); auto.
  { cbn. lia. }
  { intros j Hj. change (Z.abs (to_Z (mkBig 0 [1]))) with 1.
    change (Z.abs (to_Z (mkBig 0 [3]))) with 3. rewrite Z.mul_1_l. now apply Hpow. }
  exists r, cache'.
  change (to_Z (mkBig 0 [1])) with 1 in Vr. change (to_Z (mkBig 0 [3])) with 3 in Vr.
  rewrite Z.mul_1_l, Z2Nat.id in Vr by lia.
  split.
  { unfold tritjs_power_big, is_small_value, to_small_int, len, digit.
    cbn [sign digits Z.eqb negb List.length Nat.eqb nth andb].
    rewrite (proj2 (Z.ltb_lt e 81)) by lia. cbn [negb].
    destruct (Z.gtb_spec e 1000); [lia|]. rewrite E. reflexivity. }
  split; [assumption|]. split; [assumption|]. split; [|assumption].
  apply canonical_small; [assumption|]. rewrite Vr.
  rewrite Z.abs_eq by (apply Z.pow_nonneg; lia).
  specialize (Hpow (Z.to_nat e) ltac:(lia)). now rewrite Z2Nat.id in Hpow by lia.
Qed.

Lemma left_shift_by_exponent (cache : MulCache) (a : T81BigInt) (shift e : Z) :
  0 <= shift -> 0 <= e <= 59 ->
  parse_trit_string (text (snprintf_d shift)) = Ok (mkBig 0 [e]) ->
  canonical a = true -> (len a <= 15)%nat -> cache_sound cache ->
  exists (R : T81BigInt) (cache' : MulCache),
    tritjs_left_shift cache a shift = Some (Ok R, cache')
    /\ canonical R = true /\ to_Z R = to_Z a * 3 ^ e /\ cache_sound cache'.
Proof.
  intros Hshift He Hparse Ca La Hs.
  destruct (power_of_three cache e He Hs) as (m & cache1 & Ep & Cm & Vm & Lm & Hs1).
  destruct (multiply_with_cache_small cache1 a m Ca Cm La Lm Hs1) as (cache2 & Em & Hs2).
  destruct (multiply_small a m Ca Cm ltac:(lia) ltac:(lia)) as (Cr & Vr).
  exists (t81bigint_karatsuba_multiply a m), cache2.
  unfold tritjs_left_shift. destruct (Z.ltb_spec shift 0); [lia|].
  rewrite Hparse, Ep. unfold tritjs_multiply_big. rewrite Em.
  split; [reflexivity|]. split; [assumption|]. split; [now rewrite Vr, Vm | assumption].
Qed.

End Shift.

(** X15: [tritjs_left_shift].  A negative shift is error 2
    (InvalidInput).  The shift count reaches the power as its decimal
    text read as a ternary numeral: a shift from 3 to 9 is error 1 for
    every operand, and for a canonical operand of at most 15 limbs and a
    cache that holds only computed products, a shift of 0, 1 or 2
    multiplies by 3 to that power, while a shift of 10 multiplies by
    3^3. *)
Theorem left_shift_behaviour (cache : MulCache) (a : T81BigInt) :
  (forall shift : Z, shift < 0 ->
     tritjs_left_shift cache a shift = Some (Err InvalidInput, cache))
  /\ (forall shift : Z, 3 <= shift <= 9 ->
        tritjs_left_shift cache a shift = Some (Err MemAlloc, cache))
  /\ (canonical a = true -> (len a <= 15)%nat -> cache_sound cache ->
      forall shift : Z, 0 <= shift <= 2 \/ shift = 10 ->
        exists (R : T81BigInt) (cache' : MulCache),
          tritjs_left_shift cache a shift = Some (Ok R, cache')
          /\ canonical R = true
          /\ to_Z R = to_Z a * 3 ^ (if shift =? 10 then 3 else shift)
          /\ cache_sound cache').
Proof.
  split; [|split].
  - intros shift H. unfold tritjs_left_shift.
    destruct (Z.ltb_spec shift 0); [reflexivity | lia].
  - intros shift H. unfold tritjs_left_shift.
    destruct (Z.ltb_spec shift 0); [lia|].
    assert (E : shift = 3 \/ shift = 4 \/ shift = 5 \/ shift = 6 \/ shift = 7
                \/ shift = 8 \/ shift = 9) by lia.
    destruct E as [->|[->|[->|[->|[->|[->| ->]]]]]]; reflexivity.
  - intros Ca La Hs shift H.
    assert (E : shift = 0 \/ shift = 1 \/ shift = 2 \/ shift = 10) by lia.
    destruct E as [->|[->|[->| ->]]]; cbn [Z.eqb Pos.eqb]; cbv iota;
      apply left_shift_by_exponent; auto; try lia; reflexivity.
Qed.

Lemma left_shift_behaviour_witness :
  (forall shift : Z, shift < 0 ->
     tritjs_left_shift mul_cache_init (mkBig 1 [5]) shift
     = Some (Err InvalidInput, mul_cache_init))
  /\ (forall shift : Z, 3 <= shift <= 9 ->
        tritjs_left_shift mul_cache_init (mkBig 1 [5]) shift
        = Some (Err MemAlloc, mul_cache_init))
  /\ (canonical (mkBig 1 [5]) = true -> Nat.le (len (mkBig 1 [5])) 15 ->
      cache_sound mul_cache_init ->
      forall shift : Z, 0 <= shift <= 2 \/ shift = 10 ->
        exists (R : T81BigInt) (cache' : MulCache),
          tritjs_left_shift mul_cache_init (mkBig 1 [5]) shift = Some (Ok R, cache')
          /\ canonical R = true
          /\ to_Z R = to_Z (mkBig 1 [5]) * 3 ^ (if shift =? 10 then 3 else shift)
          /\ cache_sound cache').
Proof.
  apply (left_shift_behaviour mul_cache_init (mkBig 1 [5])).
Defined.


(** *** The helpers of the Karatsuba product *)

Section ModularHelpers.

Lemma mod_pow81_unique (v target q : Z) (n : nat) :
  0 <= v < BASE_81 ^ Z.of_nat n ->
  v + q * BASE_81 ^ Z.of_nat n = target ->
  v = target mod BASE_81 ^ Z.of_nat n.
Proof.
  intros Hv E. apply (Z.mod_unique target (BASE_81 ^ Z.of_nat n) q v); [left; lia | lia].
Qed.

Lemma add_shifted_loop (dest src : list Z) (slen shift : nat) :
  limbs_ok dest -> limbs_ok src ->
  let st := for_up slen (fun i st =>
              let '(d, carry) := st in
              let idx := (i + shift)%nat in
              if (List.length dest <=? idx)%nat then st
              else
                let sum := nth idx d 0 + nth i src 0 + carry in
                (upd d idx (u8 (Z.rem sum BASE_81)), Z.quot sum BASE_81)) (dest, 0) in
  limbs_ok (fst st) /\ List.length (fst st) = List.length dest
  /\ 0 <= snd st <= 1
  /\ exists q : Z,
       value (fst st)
       + (if (slen + shift <=? List.length dest)%nat
          then snd st * BASE_81 ^ Z.of_nat (slen + shift) else 0)
       + q * BASE_81 ^ Z.of_nat (List.length dest)
       = value dest + BASE_81 ^ Z.of_nat shift * value (firstn slen src).
Proof.
  intros Hd Hs. cbv zeta.
  set (body := fun (i : nat) (st : list Z * Z) => _).
  apply (for_up_inv (fun i st =>
           limbs_ok (fst st) /\ List.length (fst st) = List.length dest
           /\ 0 <= snd st <= 1
           /\ exists q : Z,
                value (fst st)
                + (if (i + shift <=? List.length dest)%nat
                   then snd st * BASE_81 ^ Z.of_nat (i + shift) else 0)
                + q * BASE_81 ^ Z.of_nat (List.length dest)
                = value dest + BASE_81 ^ Z.of_nat shift * value (firstn i src))).
  - cbn [fst snd]. split; [assumption|]. split; [reflexivity|]. split; [lia|].
    exists 0. rewrite firstn_O. cbn [value]. destruct (_ <=? _)%nat; lia.
  - intros i [d carry] Hi (Hl & Hlen & Hc & q & E). cbn [fst snd] in *.
    unfold body. rewrite value_firstn_S.
    pose proof (limbs_ok_nth src i Hs) as Hsi. unfold limb_ok in Hsi.
    pose proof (pow81_pos shift) as Hps.
    destruct (Nat.leb_spec (List.length dest) (i + shift)) as [Hout|Hin].
    + cbn [fst snd]. split; [assumption|]. split; [assumption|]. split; [assumption|].
      destruct (Nat.leb_spec (S i + shift) (List.length dest)) as [H|_]; [lia|].
      assert (Hw : exists k : nat, (i + shift = List.length dest + k)%nat)
        by (exists (i + shift - List.length dest)%nat; lia).
      destruct Hw as (k & Hk).
      assert (Hpow : BASE_81 ^ Z.of_nat shift * BASE_81 ^ Z.of_nat i
                     = BASE_81 ^ Z.of_nat (List.length dest) * BASE_81 ^ Z.of_nat k).
      { rewrite <- !Z.pow_add_r by lia. f_equal. lia. }
      destruct (Nat.leb_spec (i + shift) (List.length dest)) as [Heq|Hgt].
      * exists (q + carry + nth i src 0 * BASE_81 ^ Z.of_nat k).
        replace (i + shift)%nat with (List.length dest) in E by lia.
        set (P := BASE_81 ^ Z.of_nat (List.length dest)) in *.
        set (K := BASE_81 ^ Z.of_nat k) in *.
        set (Sh := BASE_81 ^ Z.of_nat shift) in *.
        set (Pi := BASE_81 ^ Z.of_nat i) in *. nia.
      * exists (q + nth i src 0 * BASE_81 ^ Z.of_nat k).
        set (P := BASE_81 ^ Z.of_nat (List.length dest)) in *.
        set (K := BASE_81 ^ Z.of_nat k) in *.
        set (Sh := BASE_81 ^ Z.of_nat shift) in *.
        set (Pi := BASE_81 ^ Z.of_nat i) in *. nia.
    + pose proof (limbs_ok_nth d (i + shift) Hl) as Hdi. unfold limb_ok in Hdi.
      destruct (rem_quot_nonneg (nth (i + shift) d 0 + nth i src 0 + carry) ltac:(lia))
        as (Hrem & Hq).
      pose proof (Z.quot_rem' (nth (i + shift) d 0 + nth i src 0 + carry) BASE_81) as Hqr.
      rewrite u8_byte by (unfold is_byte; lia). cbn [fst snd].
      split; [apply Forall_upd; [assumption | unfold limb_ok; lia]|].
      split; [now rewrite length_upd|].
      split; [unfold BASE_81 in *; lia|].
      exists q.
      destruct (Nat.leb_spec (i + shift) (List.length dest)) as [_|H]; [|lia].
      destruct (Nat.leb_spec (S i + shift) (List.length dest)) as [_|H]; [|lia].
      rewrite value_upd by lia.
      replace (Z.of_nat (S i + shift)) with (Z.succ (Z.of_nat (i + shift))) by lia.
      rewrite Z.pow_succ_r by lia.
      assert (Hpow : BASE_81 ^ Z.of_nat shift * BASE_81 ^ Z.of_nat i
                     = BASE_81 ^ Z.of_nat (i + shift)).
      { rewrite <- Z.pow_add_r by lia. f_equal. lia. }
      set (W := BASE_81 ^ Z.of_nat (i + shift)) in *.
      set (P := BASE_81 ^ Z.of_nat (List.length dest)) in *.
      set (Sh := BASE_81 ^ Z.of_nat shift) in *.
      set (Pi := BASE_81 ^ Z.of_nat i) in *.
      set (qq := Z.quot (nth (i + shift) d 0 + nth i src 0 + carry) BASE_81) in *.
      set (rr := Z.rem (nth (i + shift) d 0 + nth i src 0 + carry) BASE_81) in *.
      nia.
Qed.

End ModularHelpers.

(** X26: [add_shifted] adds modulo the size of its destination.  For a
    destination and a source of base-81 limbs, it leaves in the
    destination, limb by limb in [0, 80], the number
    [dest + 81^shift * src] reduced modulo [81^dlen], where src is the
    magnitude of the first [slen] limbs of the source. *)
Theorem add_shifted_mod (dest src : list Z) (slen shift : nat) :
  limbs_ok dest -> limbs_ok src ->
  limbs_ok (add_shifted dest src slen shift)
  /\ List.length (add_shifted dest src slen shift) = List.length dest
  /\ value (add_shifted dest src slen shift)
     = (value dest + BASE_81 ^ Z.of_nat shift * value (firstn slen src))
       mod BASE_81 ^ Z.of_nat (List.length dest).
Proof.
  intros Hd Hs.
  pose proof (add_shifted_loop dest src slen shift Hd Hs) as H. cbv zeta in H.
  unfold add_shifted.
  destruct (for_up slen _ (dest, 0)) as [d1 carry]. cbn [fst snd] in H.
  destruct H as (Hl & Hlen & Hc & q & E).
  destruct (ripple_spec (List.length dest) d1 (slen + shift) carry Hl ltac:(lia))
    as (Hr & Hrlen).
  split; [assumption|]. split; [lia|].
  pose proof (value_bound _ Hr) as Hb. rewrite Hrlen, Hlen in Hb.
  destruct (Nat.leb_spec (slen + shift) (List.length dest)) as [Hin|Hout].
  - destruct (ripple_value (List.length dest) d1 (slen + shift) carry Hl ltac:(lia))
      as (cout & Hcout & Er); [lia | lia |].
    rewrite Hlen in Er.
    apply (mod_pow81_unique _ _ (cout + q)); [assumption | lia].
  - assert (Ed : ripple (List.length dest) d1 (slen + shift) carry = d1).
    { destruct (List.length dest) as [|f] eqn:El; [reflexivity|].
      cbn [ripple]. destruct (Nat.ltb_spec (slen + shift) (List.length d1)) as [H|H];
        [lia|]. cbn [negb]. now rewrite orb_true_r. }
    rewrite Ed in *. apply (mod_pow81_unique _ _ q); [assumption | lia].
Qed.

Lemma add_shifted_mod_witness :
  limbs_ok (add_shifted [80; 80; 0] [5; 80; 80] 3 1)
  /\ List.length (add_shifted [80; 80; 0] [5; 80; 80] 3 1) = List.length [80; 80; 0]
  /\ value (add_shifted [80; 80; 0] [5; 80; 80] 3 1)
     = (value [80; 80; 0] + BASE_81 ^ Z.of_nat 1 * value (firstn 3 [5; 80; 80]))
       mod BASE_81 ^ Z.of_nat (List.length [80; 80; 0]).
Proof.
  apply (add_shifted_mod [80; 80; 0] [5; 80; 80] 3 1);
    repeat constructor; unfold limb_ok; lia.
Defined.

(** X27: [sub_inplace] subtracts modulo its length.  For an array and a
    source of base-81 limbs, subtracting over the whole length of the
    array leaves in it, limb by limb in [0, 80], the difference
    [out - src] reduced modulo [81^length]; a final borrow is dropped. *)
Theorem sub_inplace_mod (out src : list Z) :
  limbs_ok out -> limbs_ok src ->
  limbs_ok (sub_inplace out src (List.length out))
  /\ List.length (sub_inplace out src (List.length out)) = List.length out
  /\ value (sub_inplace out src (List.length out))
     = (value out - value (firstn (List.length out) src))
       mod BASE_81 ^ Z.of_nat (List.length out).
Proof.
  intros Ho Hs. unfold sub_inplace.
  set (body := fun (i : nat) (st : list Z * Z) => _).
  assert (H : let st := for_up (List.length out) body (out, 0) in
              limbs_ok (fst st) /\ List.length (fst st) = List.length out
              /\ 0 <= snd st <= 1
              /\ value (fst st) - snd st * BASE_81 ^ Z.of_nat (List.length out)
                 = value out - value (firstn (List.length out) src)).
  { cbv zeta.
    apply (for_up_inv (fun i st =>
             limbs_ok (fst st) /\ List.length (fst st) = List.length out
             /\ 0 <= snd st <= 1
             /\ value (fst st) - snd st * BASE_81 ^ Z.of_nat i
                = value out - value (firstn i src))).
    - cbn [fst snd]. split; [assumption|]. split; [reflexivity|]. split; [lia|].
      rewrite firstn_O. cbn [value]. lia.
    - intros i [o b] Hi (Hl & Hlen & Hb & E). cbn [fst snd] in *. unfold body.
      pose proof (limbs_ok_nth o i Hl) as Hoi. unfold limb_ok in Hoi.
      pose proof (limbs_ok_nth src i Hs) as Hsi. unfold limb_ok in Hsi.
      rewrite value_firstn_S, Nat2Z.inj_succ, Z.pow_succ_r by lia.
      set (P := BASE_81 ^ Z.of_nat i) in *.
      destruct (Z.ltb_spec (nth i o 0 - nth i src 0 - b) 0) as [Hneg|Hpos].
      + rewrite u8_byte by (unfold is_byte, BASE_81; lia). cbn [fst snd].
        split; [apply Forall_upd; [assumption | unfold limb_ok, BASE_81; lia]|].
        split; [now rewrite length_upd|]. split; [lia|].
        rewrite value_upd by lia. fold P. unfold BASE_81 in *. lia.
      + rewrite u8_byte by (unfold is_byte; lia). cbn [fst snd].
        split; [apply Forall_upd; [assumption | unfold limb_ok; lia]|].
        split; [now rewrite length_upd|]. split; [lia|].
        rewrite value_upd by lia. fold P. lia. }
  cbv zeta in H. destruct (for_up _ body (out, 0)) as [o b]. cbn [fst snd] in *.
  destruct H as (Hl & Hlen & Hb & E).
  split; [assumption|]. split; [assumption|].
  pose proof (value_bound _ Hl) as Hv. rewrite Hlen in Hv.
  apply (mod_pow81_unique _ _ (- b)); [assumption | lia].
Qed.

Lemma sub_inplace_mod_witness :
  limbs_ok (sub_inplace [0; 1; 0] [5; 80; 80] (List.length [0; 1; 0]))
  /\ List.length (sub_inplace [0; 1; 0] [5; 80; 80] (List.length [0; 1; 0]))
     = List.length [0; 1; 0]
  /\ value (sub_inplace [0; 1; 0] [5; 80; 80] (List.length [0; 1; 0]))
     = (value [0; 1; 0] - value (firstn (List.length [0; 1; 0]) [5; 80; 80]))
       mod BASE_81 ^ Z.of_nat (List.length [0; 1; 0]).
Proof.
  apply (sub_inplace_mod [0; 1; 0] [5; 80; 80]);
    repeat constructor; unfold limb_ok; lia.
Defined.

(** *** Addition undone by subtraction *)

Section Canonical.

Lemma canonical_unique (x y : T81BigInt) :
  canonical x = true -> canonical y = true -> to_Z x = to_Z y -> x = y.
Proof.
  intros Cx Cy E.
  destruct (canonical_sign_of_value x Cx) as [Px Nx].
  destruct (canonical_sign_of_value y Cy) as [Py Ny].
  pose proof Cx as Cx'. pose proof Cy as Cy'.
  apply canonical_iff in Cx' as (Lx & Sx & _). apply canonical_iff in Cy' as (Ly & Sy & _).
  pose proof (to_Z_abs x Lx) as Ax. pose proof (to_Z_abs y Ly) as Ay.
  assert (Hd : digits x = digits y).
  { apply stripped_unique; try assumption. rewrite <- Ax, <- Ay, E. reflexivity. }
  assert (Hs : sign x = sign y).
  { destruct (Z.lt_ge_cases (to_Z x) 0) as [H|H].
    - destruct (Nx H) as [-> _]. destruct (Ny ltac:(lia)) as [-> _]. reflexivity.
    - rewrite (Px H), (Py ltac:(lia)). reflexivity. }
  rewrite <- (big_eta x), <- (big_eta y), Hd, Hs. reflexivity.
Qed.

End Canonical.

(** X28: subtraction undoes addition.  For all canonical BigInts A and B,
    subtracting B from the sum A + B gives back A itself, limb for limb,
    and adding B to the difference A - B does too. *)
Theorem add_subtract_roundtrip (A B : T81BigInt) :
  canonical A = true -> canonical B = true ->
  (exists Sum : T81BigInt,
      tritjs_add_big A B = Ok Sum /\ tritjs_subtract_big Sum B = Ok A)
  /\ (exists D : T81BigInt,
         tritjs_subtract_big A B = Ok D /\ tritjs_add_big D B = Ok A).
Proof.
  intros CA CB.
  pose proof (canonical_sign01 A CA) as GA. pose proof (canonical_sign01 B CB) as GB.
  pose proof CA as CA'. pose proof CB as CB'.
  apply canonical_iff in CA' as (LA & SA & _). apply canonical_iff in CB' as (LB & SB & _).
  set (tmp := mkBig (if sign B =? 0 then 1 else 0) (digits B)).
  assert (Gt : sign tmp = 0 \/ sign tmp = 1).
  { unfold tmp. cbn [sign]. destruct (sign B =? 0); auto. }
  assert (Vt : to_Z tmp = - to_Z B).
  { unfold to_Z, tmp. cbn [sign digits].
    destruct GB as [-> | ->]; cbn [Z.eqb]; lia. }
  split.
  - destruct (add_big_signed A B LA SA GA LB SB GB (or_introl CA)) as (Sm & E1 & C1 & V1).
    exists Sm. split; [assumption|].
    pose proof (canonical_sign01 Sm C1) as GS.
    pose proof C1 as C1'. apply canonical_iff in C1' as (LS & SS & _).
    unfold tritjs_subtract_big. fold tmp.
    destruct (add_big_signed Sm tmp LS SS GS LB SB Gt (or_introl C1))
      as (R & E2 & C2 & V2).
    rewrite E2. f_equal. apply canonical_unique; try assumption. lia.
  - unfold tritjs_subtract_big. fold tmp.
    destruct (add_big_signed A tmp LA SA GA LB SB Gt (or_introl CA))
      as (D & E1 & C1 & V1).
    exists D. split; [assumption|].
    pose proof (canonical_sign01 D C1) as GD.
    pose proof C1 as C1'. apply canonical_iff in C1' as (LD & SD & _).
    destruct (add_big_signed D B LD SD GD LB SB GB (or_introl C1))
      as (R & E2 & C2 & V2).
    rewrite E2. f_equal. apply canonical_unique; try assumption. lia.
Qed.

Lemma add_subtract_roundtrip_witness :
  (exists Sum : T81BigInt,
      tritjs_add_big (mkBig 1 [80; 80]) (mkBig 0 [1; 0; 1]) = Ok Sum
      /\ tritjs_subtract_big Sum (mkBig 0 [1; 0; 1]) = Ok (mkBig 1 [80; 80]))
  /\ (exists D : T81BigInt,
         tritjs_subtract_big (mkBig 1 [80; 80]) (mkBig 0 [1; 0; 1]) = Ok D
         /\ tritjs_add_big D (mkBig 0 [1; 0; 1]) = Ok (mkBig 1 [80; 80])).
Proof.
  apply (add_subtract_roundtrip (mkBig 1 [80; 80]) (mkBig 0 [1; 0; 1])); reflexivity.
Defined.

(** ** Further properties of the balanced trits of tritsys-1.0.c

    Read off the code of [tritsys-1.0.c]: the conversions between [int]
    and balanced trits, the opcode codec, the addition and subtraction
    of balanced trits, the trit-wise minimum and maximum, and the
    execution of an encoded opcode. *)

Section BalancedTrits.

Lemma s8_trit (d : Z) : trit_ok d -> -1 <= s8 d <= 1.
Proof. intros [->|[->| ->]]; cbn; lia. Qed.

Lemma bal3_app (a b : list Z) :
  bal3 (a ++ b) = bal3 a + 3 ^ Z.of_nat (List.length a) * bal3 b.
Proof.
  induction a as [|d a IH]; cbn [app bal3 List.length].
  - change (Z.of_nat 0) with 0. rewrite Z.pow_0_r. lia.
  - rewrite IH, Nat2Z.inj_succ, Z.pow_succ_r by lia. lia.
Qed.

Lemma bal3_bound (ds : list Z) :
  Forall trit_ok ds -> 2 * Z.abs (bal3 ds) < 3 ^ Z.of_nat (List.length ds).
Proof.
  induction 1 as [|d ds Hd _ IH]; cbn [bal3 List.length].
  - cbn. lia.
  - rewrite Nat2Z.inj_succ, Z.pow_succ_r by lia.
    apply s8_trit in Hd. lia.
Qed.

Lemma bal3_repeat0 (n : nat) : bal3 (repeat 0 n) = 0.
Proof. induction n as [|n IH]; cbn [repeat bal3]; [|rewrite IH]; reflexivity. Qed.

Lemma trits_repeat0 (n : nat) : Forall trit_ok (repeat 0 n).
Proof. apply Forall_forall. intros x Hx. apply repeat_spec in Hx. now left. Qed.

Lemma count_trits_zero (fuel : nat) : TritSys.count_trits fuel 0 = 0%nat.
Proof. destruct fuel; reflexivity. Qed.

Lemma count_trits_spec (fuel : nat) :
  forall m : Z,
    0 < m < 3 ^ Z.of_nat fuel ->
    m < 3 ^ Z.of_nat (TritSys.count_trits fuel m)
    /\ 3 ^ Z.of_nat (TritSys.count_trits fuel m) <= 3 * m.
Proof.
  induction fuel as [|fuel IH]; intros m Hm.
  - change (3 ^ Z.of_nat 0) with 1 in Hm. lia.
  - cbn [TritSys.count_trits]. destruct (Z.gtb_spec m 0); [|lia].
    rewrite Nat2Z.inj_succ, Z.pow_succ_r in Hm by lia.
    rewrite Nat2Z.inj_succ, Z.pow_succ_r by lia.
    rewrite Z.quot_div_nonneg by lia.
    destruct (Z.eq_dec (m / 3) 0) as [E|E].
    + rewrite E, count_trits_zero. change (3 ^ Z.of_nat 0) with 1.
      Z.to_euclidean_division_equations. lia.
    + destruct (IH (m / 3)) as (H1 & H2).
      { Z.to_euclidean_division_equations. lia. }
      set (P := 3 ^ Z.of_nat (TritSys.count_trits fuel (m / 3))) in *.
      Z.to_euclidean_division_equations. lia.
Qed.

Lemma fill_trits_spec (l : nat) :
  forall m : Z,
    0 <= m ->
    Forall trit_ok (TritSys.fill_trits l m)
    /\ List.length (TritSys.fill_trits l m) = l
    /\ exists rest : Z,
         0 <= rest /\ bal3 (TritSys.fill_trits l m) + 3 ^ Z.of_nat l * rest = m.
Proof.
  induction l as [|l IH]; intros m Hm.
  - cbn [TritSys.fill_trits bal3 List.length]. change (3 ^ Z.of_nat 0) with 1.
    split; [constructor|]. split; [reflexivity|]. exists m. split; lia.
  - cbn [TritSys.fill_trits]. destruct (Z.gtb_spec m 0) as [Hpos|Hz].
    + rewrite Z.rem_mod_nonneg, Z.quot_div_nonneg by lia.
      assert (Hr : m mod 3 = 0 \/ m mod 3 = 1 \/ m mod 3 = 2)
        by (Z.to_euclidean_division_equations; lia).
      set (m' := if m mod 3 =? 2 then m / 3 + 1 else m / 3).
      assert (Hm' : 0 <= m').
      { unfold m'. destruct (m mod 3 =? 2); Z.to_euclidean_division_equations; lia. }
      destruct (IH m' Hm') as (H1 & H2 & rest & Hrest & E).
      set (d := u8 (if m mod 3 =? 2 then -1 else m mod 3)).
      assert (Hd : trit_ok d /\ m = s8 d + 3 * m').
      { unfold d, m', trit_ok. destruct Hr as [R|[R|R]]; rewrite R.
        - change (u8 (if 0 =? 2 then -1 else 0)) with 0. change (0 =? 2) with false.
          change (s8 0) with 0. cbv iota.
          split; [lia | Z.to_euclidean_division_equations; lia].
        - change (u8 (if 1 =? 2 then -1 else 1)) with 1. change (1 =? 2) with false.
          change (s8 1) with 1. cbv iota.
          split; [lia | Z.to_euclidean_division_equations; lia].
        - change (u8 (if 2 =? 2 then -1 else 2)) with 255. change (2 =? 2) with true.
          change (s8 255) with (-1). cbv iota.
          split; [lia | Z.to_euclidean_division_equations; lia]. }
      destruct Hd as (Hd1 & Hd2).
      split; [now constructor|]. split; [cbn [List.length]; now rewrite H2|].
      exists rest. split; [assumption|]. cbn [bal3].
      rewrite Nat2Z.inj_succ, Z.pow_succ_r by lia. lia.
    + assert (m = 0) by lia. subst m.
      split; [apply trits_repeat0|]. split; [apply repeat_length|].
      exists 0. split; [lia|]. rewrite bal3_repeat0. lia.
Qed.

Lemma to_int_loop_spec (tops : list Z) :
  forall (acc : Z) (k : nat),
    Forall trit_ok tops -> 2 * Z.abs acc < 3 ^ Z.of_nat k ->
    (k + List.length tops <= 20)%nat ->
    TritSys.to_int_loop tops acc
    = TritSys.Int (acc * 3 ^ Z.of_nat (List.length tops) + bal3 (rev tops)).
Proof.
  induction tops as [|d tl IH]; intros acc k Htops Hacc Hk.
  - cbn. f_equal. lia.
  - inversion Htops as [|? ? Hd Htl]; subst. cbn [List.length] in Hk.
    pose proof (s8_trit d Hd) as Hs.
    assert (Hp : 3 ^ Z.of_nat k <= 3 ^ 19).
    { apply Z.pow_le_mono_r; lia. }
    change (3 ^ 19) with 1162261467 in Hp.
    cbn [TritSys.to_int_loop].
    assert (Hq : Z.quot (TritSys.INT_MAX - Z.abs (s8 d)) 3 = 715827882).
    { unfold TritSys.INT_MAX.
      assert (E : Z.abs (s8 d) = 0 \/ Z.abs (s8 d) = 1) by lia.
      destruct E as [-> | ->]; reflexivity. }
    rewrite Hq. destruct (Z.gtb_spec acc 715827882); [lia|].
    unfold TritSys.in_int, TritSys.INT_MIN, TritSys.INT_MAX.
    destruct (Z.leb_spec (-2147483648) (acc * 3)); [|lia].
    destruct (Z.leb_spec (acc * 3) 2147483647); [|lia].
    destruct (Z.leb_spec (-2147483648) (acc * 3 + s8 d)); [|lia].
    destruct (Z.leb_spec (acc * 3 + s8 d) 2147483647); [|lia].
    cbn [andb].
    rewrite (IH (acc * 3 + s8 d) (S k) Htl); [| |lia].
    + f_equal. cbn [rev List.length]. rewrite bal3_app, length_rev.
      cbn [bal3]. rewrite Nat2Z.inj_succ, Z.pow_succ_r by lia. ring.
    + rewrite Nat2Z.inj_succ, Z.pow_succ_r by lia. lia.
Qed.

End BalancedTrits.

(** X16: [t81bigint_from_int] and back.  For every [int] n other than
    [INT_MIN], the BigInt built from n holds stored trits only, carries
    the sign of n and has as many trits as |n| has base-3 digits; the
    carry out of the top trit is dropped, so [t81bigint_to_int] takes the
    BigInt back to n exactly when 2|n| < 3^len, and to n - sgn(n) * 3^len
    otherwise (2 comes back as -1, 5 as -4). *)
Theorem from_int_to_int (n : Z) :
  - TritSys.INT_MAX <= n <= TritSys.INT_MAX ->
  let x := TritSys.t81bigint_from_int n in
  let l := Z.of_nat (List.length (TritSys.digits x)) in
  Forall trit_ok (TritSys.digits x)
  /\ TritSys.sign x = Z.sgn n
  /\ (n <> 0 -> Z.abs n < 3 ^ l <= 3 * Z.abs n)
  /\ TritSys.t81bigint_to_int x
     = TritSys.Int (if 2 * Z.abs n <? 3 ^ l then n else n - Z.sgn n * 3 ^ l).
Proof.
  intros Hn. unfold TritSys.INT_MAX in Hn.
  unfold TritSys.t81bigint_from_int.
  destruct (Z.eqb_spec n 0) as [->|Hnz].
  - cbn. split; [repeat constructor|]. split; [reflexivity|]. split; [congruence|].
    reflexivity.
  - cbv zeta. cbn [TritSys.digits TritSys.sign].
    set (m := Z.abs n). set (l := TritSys.count_trits 32 m).
    assert (Hm : 0 < m < 3 ^ Z.of_nat 32).
    { unfold m. change (3 ^ Z.of_nat 32) with 1853020188851841. lia. }
    destruct (count_trits_spec 32 m Hm) as (Hl1 & Hl2). fold l in Hl1, Hl2.
    destruct (fill_trits_spec l m ltac:(lia)) as (Ht & Hlen & rest & Hrest & E).
    rewrite Hlen.
    assert (Hl20 : (l <= 20)%nat).
    { destruct (Nat.le_gt_cases l 20) as [H|H]; [assumption|exfalso].
      assert (3 ^ 21 <= 3 ^ Z.of_nat l) by (apply Z.pow_le_mono_r; lia).
      change (3 ^ 21) with 10460353203 in *. unfold m in *. lia. }
    pose proof (bal3_bound _ Ht) as Hb. rewrite Hlen in Hb.
    assert (Hsgn : (if n <? 0 then TritSys.TERNARY_NEGATIVE else TritSys.TERNARY_POSITIVE)
                   = Z.sgn n).
    { destruct (Z.ltb_spec n 0).
      - rewrite Z.sgn_neg by lia. reflexivity.
      - rewrite Z.sgn_pos by lia. reflexivity. }
    rewrite Hsgn.
    split; [assumption|]. split; [reflexivity|]. split; [intros _; lia|].
    unfold TritSys.t81bigint_to_int. cbn [TritSys.sign TritSys.digits].
    unfold TritSys.TERNARY_ZERO.
    destruct (Z.eqb_spec (Z.sgn n) 0) as [H0|_].
    { exfalso. apply Hnz. now apply Z.sgn_null_iff. }
    rewrite (to_int_loop_spec _ 0 0); [|now apply Forall_rev | cbn; lia
                                       | rewrite length_rev, Hlen; lia].
    rewrite rev_involutive, Z.mul_0_l, Z.add_0_l.
    set (P := 3 ^ Z.of_nat l) in *.
    assert (Hp : P <= 3 ^ 20) by (apply Z.pow_le_mono_r; lia).
    change (3 ^ 20) with 3486784401 in Hp.
    assert (Hrest01 : rest = 0 \/ rest = 1) by nia.
    assert (Hs : Z.sgn n = 1 /\ n = m \/ Z.sgn n = -1 /\ n = - m).
    { unfold m. destruct (Z.lt_trichotomy n 0) as [H|[H|H]]; [right|congruence|left].
      - rewrite Z.sgn_neg by lia. lia.
      - rewrite Z.sgn_pos by lia. lia. }
    unfold TritSys.in_int, TritSys.INT_MIN, TritSys.INT_MAX.
    destruct Hrest01 as [-> | ->].
    + assert (Eb : bal3 (TritSys.fill_trits l m) = m) by lia. rewrite Eb.
      destruct (Z.ltb_spec (2 * m) P); [|lia].
      destruct Hs as [(-> & Hn')|(-> & Hn')].
      * destruct (Z.leb_spec (-2147483648) (m * 1)); [|lia].
        destruct (Z.leb_spec (m * 1) 2147483647); [|lia].
        cbn [andb]. f_equal. lia.
      * destruct (Z.leb_spec (-2147483648) (m * -1)); [|lia].
        destruct (Z.leb_spec (m * -1) 2147483647); [|lia].
        cbn [andb]. f_equal. lia.
    + assert (Eb : bal3 (TritSys.fill_trits l m) = m - P) by lia. rewrite Eb.
      destruct (Z.ltb_spec (2 * m) P); [lia|].
      destruct Hs as [(-> & Hn')|(-> & Hn')].
      * destruct (Z.leb_spec (-2147483648) ((m - P) * 1)); [|lia].
        destruct (Z.leb_spec ((m - P) * 1) 2147483647); [|lia].
        cbn [andb]. f_equal. lia.
      * destruct (Z.leb_spec (-2147483648) ((m - P) * -1)); [|lia].
        destruct (Z.leb_spec ((m - P) * -1) 2147483647); [|lia].
        cbn [andb]. f_equal. lia.
Qed.

Lemma from_int_to_int_witness :
  let x := TritSys.t81bigint_from_int 5 in
  let l := Z.of_nat (List.length (TritSys.digits x)) in
  Forall trit_ok (TritSys.digits x)
  /\ TritSys.sign x = Z.sgn 5
  /\ (5 <> 0 -> Z.abs 5 < 3 ^ l <= 3 * Z.abs 5)
  /\ TritSys.t81bigint_to_int x
     = TritSys.Int (if 2 * Z.abs 5 <? 3 ^ l then 5 else 5 - Z.sgn 5 * 3 ^ l).
Proof.
  apply (from_int_to_int 5). unfold TritSys.INT_MAX. lia.
Defined.

(** *** The opcode codec *)

Section Codec.

Lemma trit_char_codes (b : Z) : digit_char (TritSys.trit_char b).
Proof.
  unfold TritSys.trit_char, digit_char.
  destruct (s8 b =? 1); [right; left; reflexivity|].
  destruct (s8 b =? -1); [right; right; reflexivity | left; reflexivity].
Qed.

Lemma to_string_codes (num : TritSys.T81BigInt) :
  TritSys.sign num <> TritSys.TERNARY_NEGATIVE ->
  TritSys.t81bigint_to_string num <> []
  /\ Forall digit_char (TritSys.t81bigint_to_string num).
Proof.
  intros Hs. unfold TritSys.t81bigint_to_string.
  destruct (TritSys.sign num =? TritSys.TERNARY_ZERO).
  { split; [discriminate|]. repeat constructor. }
  destruct (TritSys.drop_zeros (rev (TritSys.digits num))) as [|d ds].
  { split; [discriminate|]. repeat constructor. }
  destruct (Z.eqb_spec (TritSys.sign num) TritSys.TERNARY_NEGATIVE); [contradiction|].
  cbn [app]. split; [discriminate|].
  apply Forall_forall. intros c Hc. apply in_map_iff in Hc as (b & <- & _).
  apply trit_char_codes.
Qed.

Lemma validate_after_checksum (buf : list Z) :
  forall (rest : list Z) (c : Z),
    Forall digit_char buf ->
    TritSys.validate_sum (buf ++ rest) c
    = TritSys.validate_sum rest (TritSys.encode_checksum buf c).
Proof.
  induction buf as [|ch buf IH]; intros rest c Hbuf; [reflexivity|].
  inversion Hbuf as [|? ? Hch Hbuf']; subst.
  cbn [app TritSys.validate_sum TritSys.encode_checksum].
  change (code "T") with 84. change (code "-") with 45.
  change (code "0") with 48. change (code "2") with 50.
  destruct Hch as [->|[->| ->]]; cbn [Z.eqb Pos.eqb Z.ltb Z.gtb Z.compare Pos.compare
    Pos.compare_cont negb andb orb]; now apply IH.
Qed.

Lemma checksum_range (buf : list Z) :
  forall c : Z, -8 <= c <= 8 -> -8 <= TritSys.encode_checksum buf c <= 8.
Proof.
  induction buf as [|ch buf IH]; intros c Hc; cbn [TritSys.encode_checksum]; [assumption|].
  destruct (ch =? code "-"); [assumption|]. apply IH.
  pose proof (Z.rem_bound_abs (c + TritSys.trit_value ch) 9). lia.
Qed.

Lemma sprintf_checksum (c : Z) :
  -8 <= c <= 8 ->
  TritSys.sprintf_d c = if c <? 0 then [45; 48 - c] else [48 + c].
Proof.
  intros Hc.
  assert (H : forall c, -8 <= c < -8 + Z.of_nat 17 ->
              digits_eqb (TritSys.sprintf_d c)
                         (if c <? 0 then [45; 48 - c] else [48 + c]) = true).
  { apply range_check. vm_compute. reflexivity. }
  apply digits_eqb_eq, H. lia.
Qed.

End Codec.

(** X17: which encodings validate.  For every opcode that is not
    negative, [discrete_opcode_validate] accepts what
    [discrete_opcode_encode] writes exactly when the checksum the encoder
    computed, the running sum of the trit values under C's [% 9], is not
    negative. *)
Theorem encoding_validates_iff (opcode : Z) :
  0 <= opcode ->
  TritSys.discrete_opcode_validate (TritSys.discrete_opcode_encode opcode)
  = (0 <=? TritSys.encode_checksum
             (TritSys.t81bigint_to_string (TritSys.t81bigint_from_int opcode)) 0).
Proof.
  intros Hop. unfold TritSys.discrete_opcode_encode.
  set (buf := TritSys.t81bigint_to_string (TritSys.t81bigint_from_int opcode)).
  destruct (to_string_codes (TritSys.t81bigint_from_int opcode)) as (Hne & Hcodes).
  { unfold TritSys.t81bigint_from_int.
    destruct (opcode =? 0); [discriminate|]. cbn [TritSys.sign].
    destruct (Z.ltb_spec opcode 0); [lia | discriminate]. }
  fold buf in Hne, Hcodes.
  pose proof (checksum_range buf 0 ltac:(lia)) as Hc.
  set (c := TritSys.encode_checksum buf 0) in *.
  rewrite (sprintf_checksum c Hc).
  assert (Hlen : (1 <= List.length buf)%nat).
  { destruct buf; [congruence | cbn; lia]. }
  unfold TritSys.discrete_opcode_validate.
  destruct (Z.ltb_spec c 0) as [Hneg|Hpos].
  - rewrite length_app. cbn [List.length].
    replace (List.length buf + 2 - 1)%nat with (List.length buf + 1)%nat by lia.
    rewrite app_nth2 by lia.
    replace (List.length buf + 1 - List.length buf)%nat with 1%nat by lia.
    cbn [nth]. destruct (Nat.ltb_spec (List.length buf + 2) 2); [lia|].
    assert (Hd : TritSys.isdigit (48 - c) = true).
    { unfold TritSys.isdigit. change (code "0") with 48. change (code "9") with 57.
      apply andb_true_iff. split; apply Z.leb_le; lia. }
    rewrite Hd. cbn [negb orb].
    replace (firstn (List.length buf + 1) (buf ++ [45; 48 - c])) with (buf ++ [45]).
    2:{ rewrite firstn_app, firstn_all2 by lia.
        replace (List.length buf + 1 - List.length buf)%nat with 1%nat by lia.
        reflexivity. }
    rewrite (validate_after_checksum buf [45] 0 Hcodes). fold c.
    cbn [TritSys.validate_sum]. change (code "T") with 84. change (code "-") with 45.
    cbn [Z.eqb Pos.eqb negb andb]. change (code "0") with 48.
    unfold TritSys.trit_value. change (code "T") with 84. change (code "0") with 48.
    cbn [Z.eqb Pos.eqb]. change (45 - 48) with (-3).
    pose proof (Z.rem_bound_pos_neg (c + -3) 9 ltac:(lia) ltac:(lia)) as Hr.
    destruct (Z.eqb_spec (Z.rem (c + -3) 9) (48 - c - 48)); [lia|].
    destruct (Z.leb_spec 0 c); [lia | reflexivity].
  - rewrite length_app. cbn [List.length].
    replace (List.length buf + 1 - 1)%nat with (List.length buf) by lia.
    rewrite app_nth2 by lia. rewrite Nat.sub_diag. cbn [nth].
    destruct (Nat.ltb_spec (List.length buf + 1) 2); [lia|].
    assert (Hd : TritSys.isdigit (48 + c) = true).
    { unfold TritSys.isdigit. change (code "0") with 48. change (code "9") with 57.
      apply andb_true_iff. split; apply Z.leb_le; lia. }
    rewrite Hd. cbn [negb orb].
    replace (firstn (List.length buf) (buf ++ [48 + c])) with (buf ++ []).
    2:{ rewrite firstn_app, firstn_all, Nat.sub_diag. reflexivity. }
    rewrite (validate_after_checksum buf [] 0 Hcodes). fold c.
    cbn [TritSys.validate_sum]. change (code "0") with 48.
    destruct (Z.eqb_spec c (48 + c - 48)); [|lia].
    destruct (Z.leb_spec 0 c); [reflexivity | lia].
Qed.

Lemma encoding_validates_iff_witness :
  TritSys.discrete_opcode_validate (TritSys.discrete_opcode_encode 5)
  = (0 <=? TritSys.encode_checksum
             (TritSys.t81bigint_to_string (TritSys.t81bigint_from_int 5)) 0).
Proof.
  apply (encoding_validates_iff 5). lia.
Defined.

(** *** Addition of balanced trits *)

Section BalancedAdd.

Lemma normalise_spec (sum : Z) :
  -3 <= sum <= 3 ->
  let '(s1, c1) := TritSys.normalise sum in
  sum = s1 + 3 * c1 /\ -1 <= s1 <= 1 /\ -1 <= c1 <= 1
  /\ (-1 <= sum <= 1 -> c1 = 0)
  /\ trit_ok (u8 s1) /\ s8 (u8 s1) = s1.
Proof.
  intros H.
  assert (E : sum = -3 \/ sum = -2 \/ sum = -1 \/ sum = 0 \/ sum = 1 \/ sum = 2 \/ sum = 3)
    by lia.
  unfold trit_ok.
  destruct E as [->|[->|[->|[->|[->|[->| ->]]]]]]; vm_compute; repeat split;
    try discriminate; try tauto; intros; try lia; auto.
Qed.

Lemma signed_trit_range (x : TritSys.T81BigInt) (i : nat) :
  trits_wf x -> -1 <= TritSys.signed_trit x i <= 1.
Proof.
  intros (Ht & Hs). unfold TritSys.signed_trit, TritSys.len.
  destruct (Nat.ltb_spec i (List.length (TritSys.digits x))) as [Hi|Hi]; [|lia].
  assert (Hd : trit_ok (nth i (TritSys.digits x) 0)).
  { rewrite Forall_forall in Ht. apply Ht, nth_In, Hi. }
  apply s8_trit in Hd. nia.
Qed.

Lemma signed_tail_step (x : TritSys.T81BigInt) (i : nat) :
  signed_tail x i = TritSys.signed_trit x i + 3 * signed_tail x (S i).
Proof.
  unfold signed_tail, TritSys.signed_trit, TritSys.len.
  destruct (Nat.ltb_spec i (List.length (TritSys.digits x))) as [Hi|Hi].
  - rewrite (skipn_nth_cons (TritSys.digits x) i Hi). cbn [bal3]. ring.
  - rewrite !skipn_all2 by lia. cbn [bal3]. ring.
Qed.

Lemma signed_tail_beyond (x : TritSys.T81BigInt) (i : nat) :
  (TritSys.len x <= i)%nat -> signed_tail x i = 0.
Proof.
  intros Hi. unfold signed_tail. unfold TritSys.len in Hi.
  rewrite skipn_all2 by lia. cbn [bal3]. ring.
Qed.

Lemma bal3_upd (l : list Z) :
  forall (i : nat) (v : Z),
    (i < List.length l)%nat ->
    bal3 (upd l i v) = bal3 l + (s8 v - s8 (nth i l 0)) * 3 ^ Z.of_nat i.
Proof.
  induction l as [|x l IH]; intros [|i] v H; cbn [upd bal3 nth List.length] in *; try lia.
  rewrite IH by lia. rewrite Nat2Z.inj_succ, Z.pow_succ_r by lia. lia.
Qed.

Variables a b : TritSys.T81BigInt.
Hypothesis Ha : trits_wf a.
Hypothesis Hb : trits_wf b.

Variable max_len : nat.
Hypothesis Hmax : max_len = Nat.max (TritSys.len a) (TritSys.len b).

Lemma add_loop_spec (fuel : nat) :
  forall (i : nat) (res : list Z) (carry : Z),
    List.length res = (max_len + 1)%nat ->
    -1 <= carry <= 1 ->
    (i <= max_len)%nat \/ (i = (max_len + 1)%nat /\ carry = 0) ->
    (max_len + 2 - i <= fuel)%nat ->
    Forall trit_ok res ->
    (forall k : nat, (i <= k)%nat -> nth k res 0 = 0) ->
    snd (TritSys.add_loop fuel a b max_len i res carry) = 0
    /\ List.length (fst (TritSys.add_loop fuel a b max_len i res carry))
       = (max_len + 1)%nat
    /\ Forall trit_ok (fst (TritSys.add_loop fuel a b max_len i res carry))
    /\ bal3 (fst (TritSys.add_loop fuel a b max_len i res carry))
       = bal3 res + 3 ^ Z.of_nat i * (carry + signed_tail a i + signed_tail b i).
Proof.
  induction fuel as [|fuel IH]; intros i res carry Hlen Hc Hi Hfuel Hres Hzero.
  - lia.
  - cbn [TritSys.add_loop].
    destruct (Nat.ltb_spec i max_len) as [Hlt|Hge]; cbn [orb].
    + destruct (Nat.leb_spec (List.length res) i) as [H|_]; [lia|].
      pose proof (signed_trit_range a i Ha) as Hta.
      pose proof (signed_trit_range b i Hb) as Htb.
      pose proof (normalise_spec (TritSys.signed_trit a i + TritSys.signed_trit b i + carry)
                                 ltac:(lia)) as Hn.
      destruct (TritSys.normalise _) as [s1 c1].
      destruct Hn as (Esum & Hs1 & Hc1 & _ & Hok & Hs8).
      destruct (IH (S i) (upd res i (u8 s1)) c1) as (I1 & I2 & I3 & I4).
      * now rewrite length_upd.
      * assumption.
      * left. lia.
      * lia.
      * now apply Forall_upd.
      * intros k Hk. rewrite nth_upd_other by lia. apply Hzero. lia.
      * split; [assumption|]. split; [assumption|]. split; [assumption|].
        rewrite I4, bal3_upd, Hs8, (Hzero i) by lia.
        rewrite (signed_tail_step a i), (signed_tail_step b i).
        rewrite Nat2Z.inj_succ, Z.pow_succ_r by lia. change (s8 0) with 0.
        set (P := 3 ^ Z.of_nat i). lia.
    + destruct (Z.eqb_spec carry 0) as [Hz|Hnz]; cbn [negb].
      * subst carry. cbn [fst snd]. split; [reflexivity|]. split; [assumption|].
        split; [assumption|].
        rewrite !signed_tail_beyond by lia. lia.
      * destruct Hi as [Hi|(_ & Hi)]; [|contradiction].
        assert (i = max_len) by lia. subst i.
        destruct (Nat.leb_spec (List.length res) max_len) as [H|_]; [lia|].
        assert (Eta : TritSys.signed_trit a max_len = 0).
        { unfold TritSys.signed_trit.
          destruct (Nat.ltb_spec max_len (TritSys.len a)); [lia|].
          reflexivity. }
        assert (Etb : TritSys.signed_trit b max_len = 0).
        { unfold TritSys.signed_trit.
          destruct (Nat.ltb_spec max_len (TritSys.len b)); [lia|].
          reflexivity. }
        rewrite Eta, Etb.
        pose proof (normalise_spec (0 + 0 + carry) ltac:(lia)) as Hn.
        destruct (TritSys.normalise _) as [s1 c1].
        destruct Hn as (Esum & Hs1 & Hc1 & Hc0 & Hok & Hs8).
        specialize (Hc0 ltac:(lia)). subst c1.
        destruct (IH (S max_len) (upd res max_len (u8 s1)) 0) as (I1 & I2 & I3 & I4).
        -- now rewrite length_upd.
        -- lia.
        -- right. lia.
        -- lia.
        -- now apply Forall_upd.
        -- intros k Hk. rewrite nth_upd_other by lia. apply Hzero. lia.
        -- split; [assumption|]. split; [assumption|]. split; [assumption|].
           rewrite I4, bal3_upd, Hs8, (Hzero max_len) by lia.
           rewrite !signed_tail_beyond by lia.
           change (s8 0) with 0. lia.
Qed.

Lemma add_spec :
  TritSys.sign (TritSys.t81bigint_add a b) = TritSys.TERNARY_ZERO
  /\ List.length (TritSys.digits (TritSys.t81bigint_add a b)) = (max_len + 1)%nat
  /\ Forall trit_ok (TritSys.digits (TritSys.t81bigint_add a b))
  /\ bal3 (TritSys.digits (TritSys.t81bigint_add a b))
     = signed_value a + signed_value b.
Proof.
  unfold TritSys.t81bigint_add. rewrite <- Hmax.
  destruct (add_loop_spec (max_len + 2) 0 (repeat 0 (max_len + 1)) 0)
    as (H1 & H2 & H3 & H4).
  - apply repeat_length.
  - lia.
  - left. lia.
  - lia.
  - apply trits_repeat0.
  - intros k _. destruct (Nat.lt_ge_cases k (max_len + 1)) as [H|H].
    + apply nth_repeat_lt. assumption.
    + apply nth_overflow. rewrite repeat_length. lia.
  - destruct (TritSys.add_loop _ _ _ _ _ _ _) as [res carry]. cbn [fst snd] in *.
    subst carry. cbn [Z.ltb Z.gtb Z.compare TritSys.sign TritSys.digits].
    split; [reflexivity|]. split; [assumption|]. split; [assumption|].
    rewrite H4, bal3_repeat0. unfold signed_tail, signed_value. cbn [skipn].
    change (3 ^ Z.of_nat 0) with 1. lia.
Qed.

End BalancedAdd.

(** X18: [t81bigint_add] never signs its result.  For operands of stored
    trits with signs in -1, 0, 1, the carry that leaves the loop is 0, so
    the sign field of the result is TERNARY_ZERO: the result has one
    trit more than the longer operand, its trits are the balanced
    ternary digits of the sum of the two signed values, and yet
    [t81bigint_to_string] prints it as "0" and [t81bigint_to_int] returns
    0. *)
Theorem balanced_add_sign_zero (a b : TritSys.T81BigInt) :
  trits_wf a -> trits_wf b ->
  TritSys.sign (TritSys.t81bigint_add a b) = TritSys.TERNARY_ZERO
  /\ List.length (TritSys.digits (TritSys.t81bigint_add a b))
     = (Nat.max (TritSys.len a) (TritSys.len b) + 1)%nat
  /\ Forall trit_ok (TritSys.digits (TritSys.t81bigint_add a b))
  /\ bal3 (TritSys.digits (TritSys.t81bigint_add a b))
     = signed_value a + signed_value b
  /\ TritSys.t81bigint_to_string (TritSys.t81bigint_add a b) = [code "0"]
  /\ TritSys.t81bigint_to_int (TritSys.t81bigint_add a b) = TritSys.Int 0.
Proof.
  intros Ha Hb.
  destruct (add_spec a b Ha Hb _ eq_refl) as (H1 & H2 & H3 & H4).
  split; [assumption|]. split; [assumption|]. split; [assumption|].
  split; [assumption|].
  unfold TritSys.t81bigint_to_string, TritSys.t81bigint_to_int. rewrite H1.
  split; reflexivity.
Qed.

Lemma balanced_add_sign_zero_witness :
  TritSys.sign (TritSys.t81bigint_add (TritSys.mkBig 1 [1; 1]) (TritSys.mkBig (-1) [1]))
  = TritSys.TERNARY_ZERO
  /\ List.length (TritSys.digits
       (TritSys.t81bigint_add (TritSys.mkBig 1 [1; 1]) (TritSys.mkBig (-1) [1])))
     = Nat.add (Nat.max (TritSys.len (TritSys.mkBig 1 [1; 1]))
                        (TritSys.len (TritSys.mkBig (-1) [1]))) 1
  /\ Forall trit_ok (TritSys.digits
       (TritSys.t81bigint_add (TritSys.mkBig 1 [1; 1]) (TritSys.mkBig (-1) [1])))
  /\ bal3 (TritSys.digits
       (TritSys.t81bigint_add (TritSys.mkBig 1 [1; 1]) (TritSys.mkBig (-1) [1])))
     = signed_value (TritSys.mkBig 1 [1; 1]) + signed_value (TritSys.mkBig (-1) [1])
  /\ TritSys.t81bigint_to_string
       (TritSys.t81bigint_add (TritSys.mkBig 1 [1; 1]) (TritSys.mkBig (-1) [1]))
     = [code "0"]
  /\ TritSys.t81bigint_to_int
       (TritSys.t81bigint_add (TritSys.mkBig 1 [1; 1]) (TritSys.mkBig (-1) [1]))
     = TritSys.Int 0.
Proof.
  apply (balanced_add_sign_zero (TritSys.mkBig 1 [1; 1]) (TritSys.mkBig (-1) [1]));
    (split; [repeat (apply Forall_cons; [unfold trit_ok; lia|]); apply Forall_nil
            | cbn; lia]).
Defined.

(** X19: [t81bigint_sub] likewise: the trits of the result are the
    balanced ternary digits of the difference of the two signed values,
    the sign field is TERNARY_ZERO, and the result prints as "0" and
    converts to 0. *)
Theorem balanced_sub_sign_zero (a b : TritSys.T81BigInt) :
  trits_wf a -> trits_wf b ->
  TritSys.sign (TritSys.t81bigint_sub a b) = TritSys.TERNARY_ZERO
  /\ bal3 (TritSys.digits (TritSys.t81bigint_sub a b))
     = signed_value a - signed_value b
  /\ TritSys.t81bigint_to_string (TritSys.t81bigint_sub a b) = [code "0"]
  /\ TritSys.t81bigint_to_int (TritSys.t81bigint_sub a b) = TritSys.Int 0.
Proof.
  intros Ha Hb. unfold TritSys.t81bigint_sub.
  set (neg_b := TritSys.mkBig _ (TritSys.digits b)).
  assert (Hn : trits_wf neg_b /\ signed_value neg_b = - signed_value b).
  { destruct Hb as (Ht & Hs). unfold trits_wf, signed_value, neg_b.
    cbn [TritSys.sign TritSys.digits].
    unfold TritSys.TERNARY_POSITIVE, TritSys.TERNARY_NEGATIVE, TritSys.TERNARY_ZERO.
    assert (E : TritSys.sign b = -1 \/ TritSys.sign b = 0 \/ TritSys.sign b = 1) by lia.
    destruct E as [->|[->| ->]]; cbn [Z.eqb Pos.eqb]; (split; [split; [assumption|lia]|lia]). }
  destruct Hn as (Hn & Hv).
  destruct (add_spec a neg_b Ha Hn _ eq_refl) as (H1 & H2 & H3 & H4).
  split; [assumption|]. split; [rewrite H4, Hv; lia|].
  unfold TritSys.t81bigint_to_string, TritSys.t81bigint_to_int. rewrite H1.
  split; reflexivity.
Qed.

Lemma balanced_sub_sign_zero_witness :
  TritSys.sign (TritSys.t81bigint_sub (TritSys.mkBig 1 [1; 1]) (TritSys.mkBig 1 [1]))
  = TritSys.TERNARY_ZERO
  /\ bal3 (TritSys.digits
       (TritSys.t81bigint_sub (TritSys.mkBig 1 [1; 1]) (TritSys.mkBig 1 [1])))
     = signed_value (TritSys.mkBig 1 [1; 1]) - signed_value (TritSys.mkBig 1 [1])
  /\ TritSys.t81bigint_to_string
       (TritSys.t81bigint_sub (TritSys.mkBig 1 [1; 1]) (TritSys.mkBig 1 [1]))
     = [code "0"]
  /\ TritSys.t81bigint_to_int
       (TritSys.t81bigint_sub (TritSys.mkBig 1 [1; 1]) (TritSys.mkBig 1 [1]))
     = TritSys.Int 0.
Proof.
  apply (balanced_sub_sign_zero (TritSys.mkBig 1 [1; 1]) (TritSys.mkBig 1 [1]));
    (split; [repeat (apply Forall_cons; [unfold trit_ok; lia|]); apply Forall_nil
            | cbn; lia]).
Defined.

(** *** Trit-wise minimum and maximum *)

Section TritWise.

Lemma small_trit (m : Z) :
  -1 <= m <= 1 -> trit_ok (u8 m) /\ s8 (u8 m) = m /\ (u8 m = 0 -> m = 0).
Proof.
  intros H. assert (E : m = -1 \/ m = 0 \/ m = 1) by lia. unfold trit_ok.
  destruct E as [->|[->| ->]]; vm_compute; repeat split; auto; discriminate.
Qed.

Lemma trit_binary_spec (f : Z -> Z -> Z) (a b : TritSys.T81BigInt) :
  (forall x y, -1 <= x <= 1 -> -1 <= y <= 1 -> -1 <= f x y <= 1) ->
  f 0 0 = 0 ->
  trits_wf a -> trits_wf b ->
  trits_wf (TritSys.trit_binary f a b)
  /\ forall i : nat,
       TritSys.signed_trit (TritSys.trit_binary f a b) i
       = f (TritSys.signed_trit a i) (TritSys.signed_trit b i).
Proof.
  intros Hf H0 Ha Hb. unfold TritSys.trit_binary.
  set (n := Nat.max (TritSys.len a) (TritSys.len b)).
  set (g := fun i : nat => u8 (f (TritSys.signed_trit a i) (TritSys.signed_trit b i))).
  assert (Hm : forall i, -1 <= f (TritSys.signed_trit a i) (TritSys.signed_trit b i) <= 1).
  { intros i. apply Hf; now apply signed_trit_range. }
  split.
  - split; cbn [TritSys.digits TritSys.sign].
    + apply Forall_forall. intros d Hd. apply in_map_iff in Hd as (i & <- & _).
      apply small_trit, Hm.
    + unfold TritSys.TERNARY_ZERO, TritSys.TERNARY_POSITIVE.
      destruct (forallb _ _); lia.
  - intros i. unfold TritSys.signed_trit at 1. unfold TritSys.len.
    cbn [TritSys.digits TritSys.sign]. rewrite length_map, length_seq.
    rewrite (nth_map_seq g n i).
    destruct (Nat.ltb_spec i n) as [Hi|Hi].
    + destruct (small_trit _ (Hm i)) as (_ & Hs & Hz).
      destruct (forallb (fun d => d =? 0) (map g (seq 0 n))) eqn:E.
      * rewrite forallb_forall in E.
        assert (Hg : g i = 0).
        { apply Z.eqb_eq, E, in_map, in_seq. lia. }
        unfold g. rewrite Hs.
        unfold TritSys.TERNARY_ZERO. rewrite (Hz Hg). lia.
      * unfold g. rewrite Hs. unfold TritSys.TERNARY_POSITIVE. lia.
    + assert (Ea : TritSys.signed_trit a i = 0).
      { unfold TritSys.signed_trit.
        destruct (Nat.ltb_spec i (TritSys.len a)); [unfold n in Hi; lia | reflexivity]. }
      assert (Eb : TritSys.signed_trit b i = 0).
      { unfold TritSys.signed_trit.
        destruct (Nat.ltb_spec i (TritSys.len b)); [unfold n in Hi; lia | reflexivity]. }
      rewrite Ea, Eb, H0. reflexivity.
Qed.

End TritWise.

(** X20: [t81bigint_tand] and [t81bigint_tor] are the trit-wise minimum
    and maximum.  For operands of stored trits with signs in -1, 0, 1,
    the results are again such BigInts, and at every position the signed
    trit of the result (its stored trit times its sign, 0 beyond its
    length) is the minimum, for [t81bigint_tor] the maximum, of the
    signed trits of the operands. *)
Theorem tand_tor_tritwise (a b : TritSys.T81BigInt) :
  trits_wf a -> trits_wf b ->
  trits_wf (TritSys.t81bigint_tand a b)
  /\ trits_wf (TritSys.t81bigint_tor a b)
  /\ forall i : nat,
       TritSys.signed_trit (TritSys.t81bigint_tand a b) i
       = Z.min (TritSys.signed_trit a i) (TritSys.signed_trit b i)
       /\ TritSys.signed_trit (TritSys.t81bigint_tor a b) i
          = Z.max (TritSys.signed_trit a i) (TritSys.signed_trit b i).
Proof.
  intros Ha Hb.
  destruct (trit_binary_spec (fun x y => if x <? y then x else y) a b) as (W1 & E1);
    try assumption; try reflexivity.
  { intros x y Hx Hy. destruct (x <? y); lia. }
  destruct (trit_binary_spec (fun x y => if x >? y then x else y) a b) as (W2 & E2);
    try assumption; try reflexivity.
  { intros x y Hx Hy. destruct (x >? y); lia. }
  split; [exact W1|]. split; [exact W2|]. intros i. split.
  - unfold TritSys.t81bigint_tand. rewrite E1.
    destruct (Z.ltb_spec (TritSys.signed_trit a i) (TritSys.signed_trit b i)); lia.
  - unfold TritSys.t81bigint_tor. rewrite E2.
    destruct (Z.gtb_spec (TritSys.signed_trit a i) (TritSys.signed_trit b i)); lia.
Qed.

Lemma tand_tor_tritwise_witness :
  trits_wf (TritSys.t81bigint_tand (TritSys.mkBig 1 [1; 255]) (TritSys.mkBig (-1) [1]))
  /\ trits_wf (TritSys.t81bigint_tor (TritSys.mkBig 1 [1; 255]) (TritSys.mkBig (-1) [1]))
  /\ forall i : nat,
       TritSys.signed_trit
         (TritSys.t81bigint_tand (TritSys.mkBig 1 [1; 255]) (TritSys.mkBig (-1) [1])) i
       = Z.min (TritSys.signed_trit (TritSys.mkBig 1 [1; 255]) i)
               (TritSys.signed_trit (TritSys.mkBig (-1) [1]) i)
       /\ TritSys.signed_trit
            (TritSys.t81bigint_tor (TritSys.mkBig 1 [1; 255]) (TritSys.mkBig (-1) [1])) i
          = Z.max (TritSys.signed_trit (TritSys.mkBig 1 [1; 255]) i)
                  (TritSys.signed_trit (TritSys.mkBig (-1) [1]) i).
Proof.
  apply (tand_tor_tritwise (TritSys.mkBig 1 [1; 255]) (TritSys.mkBig (-1) [1]));
    (split; [repeat (apply Forall_cons; [unfold trit_ok; lia|]); apply Forall_nil
            | cbn; lia]).
Defined.

(** *** Executing an encoded opcode *)

Section Execute.

Lemma execute_decoded (enc : list Z) (op a b : Z) :
  TritSys.discrete_opcode_validate enc = true ->
  (64 <? List.length enc)%nat = false ->
  TritSys.decode_opcode (firstn (List.length enc - 1) enc) 0 = Some op ->
  a <= 1073741823 -> b <= 1073741823 ->
  TritSys.discrete_opcode_execute enc a b = TritSys.opcode_switch op a b.
Proof.
  intros Hv Hl Hd Ha Hb. unfold TritSys.discrete_opcode_execute.
  rewrite Hv, Hl, Hd. cbn [negb].
  change (Z.quot TritSys.INT_MAX 2) with 1073741823.
  destruct (Z.gtb_spec a 1073741823); [lia|].
  destruct (Z.gtb_spec b 1073741823); [lia|]. reflexivity.
Qed.

Lemma chk_in (z : Z) :
  TritSys.INT_MIN <= z <= TritSys.INT_MAX -> TritSys.chk z = Some z.
Proof.
  intros H. unfold TritSys.chk, TritSys.in_int.
  destruct (Z.leb_spec TritSys.INT_MIN z); [|lia].
  destruct (Z.leb_spec z TritSys.INT_MAX); [reflexivity | lia].
Qed.

Lemma gcd_loop_spec (fuel : nat) :
  forall a b : Z,
    0 <= a -> 0 <= b -> (Z.to_nat b < fuel)%nat ->
    TritSys.gcd_loop fuel a b = Z.gcd a b.
Proof.
  induction fuel as [|fuel IH]; intros a b Ha Hb Hf; [lia|].
  cbn [TritSys.gcd_loop]. destruct (Z.eqb_spec b 0) as [->|Hnz].
  - rewrite Z.gcd_0_r. lia.
  - rewrite Z.rem_mod_nonneg by lia.
    pose proof (Z.mod_pos_bound a b ltac:(lia)) as Hm.
    rewrite IH by lia.
    rewrite Z.gcd_comm, Z.gcd_mod by lia. apply Z.gcd_comm.
Qed.

Lemma exp_loop_spec (rounds : nat) :
  forall a result : Z,
    0 < a -> 0 < result <= TritSys.INT_MAX ->
    TritSys.exp_loop rounds a result
    = Some (if result * a ^ Z.of_nat rounds <=? TritSys.INT_MAX
            then result * a ^ Z.of_nat rounds else 0).
Proof.
  induction rounds as [|rounds IH]; intros a result Ha Hr.
  - cbn [TritSys.exp_loop]. change (a ^ Z.of_nat 0) with (a ^ 0).
    rewrite Z.pow_0_r, Z.mul_1_r.
    destruct (Z.leb_spec result TritSys.INT_MAX); [reflexivity | lia].
  - cbn [TritSys.exp_loop]. destruct (Z.eqb_spec a 0); [lia|].
    rewrite Nat2Z.inj_succ, Z.pow_succ_r by lia.
    assert (Hp : 0 < a ^ Z.of_nat rounds) by (apply Z.pow_pos_nonneg; lia).
    rewrite Z.quot_div_nonneg by (unfold TritSys.INT_MAX; lia).
    destruct (Z.gtb_spec result (TritSys.INT_MAX / a)) as [Hbig|Hsmall].
    + assert (TritSys.INT_MAX < result * a).
      { unfold TritSys.INT_MAX in *. Z.to_euclidean_division_equations. nia. }
      destruct (Z.leb_spec (result * (a * a ^ Z.of_nat rounds)) TritSys.INT_MAX);
        [nia | reflexivity].
    + assert (result * a <= TritSys.INT_MAX).
      { unfold TritSys.INT_MAX in *. Z.to_euclidean_division_equations. nia. }
      rewrite chk_in by (unfold TritSys.INT_MIN; nia).
      rewrite IH by nia.
      replace (result * a * a ^ Z.of_nat rounds)
        with (result * (a * a ^ Z.of_nat rounds)) by ring.
      reflexivity.
Qed.

End Execute.

(** X21: what [discrete_opcode_execute] refuses.  A string that does not
    validate is answered with 0, whatever the operands; and since the
    encodings of TSUB, TAND, TOR and TMAT_ADD do not validate, executing
    the encoding of one of these four opcodes returns 0 for all operands:
    they cannot be run through the codec. *)
Theorem execute_refuses (a b : Z) :
  (forall enc : list Z,
      TritSys.discrete_opcode_validate enc = false ->
      TritSys.discrete_opcode_execute enc a b = Some 0)
  /\ forall op : Z,
       In op [TritSys.TSUB; TritSys.TAND; TritSys.TOR; TritSys.TMAT_ADD] ->
       TritSys.discrete_opcode_execute (TritSys.discrete_opcode_encode op) a b = Some 0.
Proof.
  assert (H : forall enc : list Z,
             TritSys.discrete_opcode_validate enc = false ->
             TritSys.discrete_opcode_execute enc a b = Some 0).
  { intros enc Hv. unfold TritSys.discrete_opcode_execute. now rewrite Hv. }
  split; [exact H|].
  intros op [<-|[<-|[<-|[<-|[]]]]]; apply H; vm_compute; reflexivity.
Qed.

(** X22: the arithmetic opcodes.  For operands of at most [INT_MAX / 2],
    executing the encoding of TADD returns the sum, that of TMUL the
    product and that of TMAT_MUL twice the product, whenever the value
    lies in the range of [int]. *)
Theorem execute_arithmetic (a b : Z) :
  TritSys.INT_MIN <= a <= 1073741823 -> TritSys.INT_MIN <= b <= 1073741823 ->
  (TritSys.INT_MIN <= a + b ->
   TritSys.discrete_opcode_execute (TritSys.discrete_opcode_encode TritSys.TADD) a b
   = Some (a + b))
  /\ (TritSys.INT_MIN <= a * b <= TritSys.INT_MAX ->
      TritSys.discrete_opcode_execute (TritSys.discrete_opcode_encode TritSys.TMUL) a b
      = Some (a * b))
  /\ (TritSys.INT_MIN <= a * b * 2 <= TritSys.INT_MAX ->
      TritSys.discrete_opcode_execute (TritSys.discrete_opcode_encode TritSys.TMAT_MUL) a b
      = Some (a * b * 2)).
Proof.
  intros Ha Hb. split; [|split]; intros H.
  - rewrite (execute_decoded _ TritSys.TADD a b);
      [| vm_compute; reflexivity ..| lia | lia].
    change (TritSys.opcode_switch TritSys.TADD a b) with (TritSys.chk (a + b)).
    apply chk_in. unfold TritSys.INT_MAX. lia.
  - rewrite (execute_decoded _ TritSys.TMUL a b);
      [| vm_compute; reflexivity ..| lia | lia].
    change (TritSys.opcode_switch TritSys.TMUL a b) with (TritSys.chk (a * b)).
    now apply chk_in.
  - rewrite (execute_decoded _ TritSys.TMAT_MUL a b);
      [| vm_compute; reflexivity ..| lia | lia].
    change (TritSys.opcode_switch TritSys.TMAT_MUL a b)
      with (match TritSys.chk (a * b) with
            | Some prod => TritSys.chk (prod * 2)
            | None => None
            end).
    rewrite chk_in by (unfold TritSys.INT_MIN, TritSys.INT_MAX in *; lia).
    now apply chk_in.
Qed.

Lemma execute_arithmetic_witness :
  (TritSys.INT_MIN <= 7 + -9 ->
   TritSys.discrete_opcode_execute (TritSys.discrete_opcode_encode TritSys.TADD) 7 (-9)
   = Some (7 + -9))
  /\ (TritSys.INT_MIN <= 7 * -9 <= TritSys.INT_MAX ->
      TritSys.discrete_opcode_execute (TritSys.discrete_opcode_encode TritSys.TMUL) 7 (-9)
      = Some (7 * -9))
  /\ (TritSys.INT_MIN <= 7 * -9 * 2 <= TritSys.INT_MAX ->
      TritSys.discrete_opcode_execute (TritSys.discrete_opcode_encode TritSys.TMAT_MUL)
                                      7 (-9)
      = Some (7 * -9 * 2)).
Proof.
  apply (execute_arithmetic 7 (-9)); unfold TritSys.INT_MIN; lia.
Defined.

(** X23: TMOD is the remainder that is never negative.  For operands
    above [INT_MIN] and of at most [INT_MAX / 2], executing the encoding
    of TMOD returns 0 when the second operand is 0 and otherwise the
    remainder of the first operand modulo the absolute value of the
    second, a number from 0 to |b| - 1. *)
Theorem execute_TMOD (a b : Z) :
  TritSys.INT_MIN < a <= 1073741823 -> TritSys.INT_MIN < b <= 1073741823 ->
  TritSys.discrete_opcode_execute (TritSys.discrete_opcode_encode TritSys.TMOD) a b
  = Some (if b =? 0 then 0 else a mod Z.abs b).
Proof.
  intros Ha Hb. unfold TritSys.INT_MIN in *.
  rewrite (execute_decoded _ TritSys.TMOD a b);
    [| vm_compute; reflexivity ..| lia | lia].
  change (TritSys.opcode_switch TritSys.TMOD a b)
    with (if b =? 0 then Some 0
          else match TritSys.chk (Z.quot a b) with
               | None => None
               | Some _ =>
                   if Z.rem a b <? 0
                   then match TritSys.c_abs b with
                        | Some abs2 => Some (Z.rem a b + abs2)
                        | None => None
                        end
                   else Some (Z.rem a b)
               end).
  destruct (Z.eqb_spec b 0) as [Hz|Hnz]; [reflexivity|].
  pose proof (Z.quot_rem' a b) as Hqr.
  pose proof (Z.rem_bound_abs a b Hnz) as Hrb.
  assert (Hq : Z.abs (Z.quot a b) <= Z.abs a).
  { rewrite <- Z.quot_abs by assumption.
    rewrite Z.quot_div_nonneg by lia.
    apply Z.div_le_upper_bound; [lia|]. nia. }
  rewrite chk_in by (unfold TritSys.INT_MIN, TritSys.INT_MAX; lia).
  unfold TritSys.c_abs.
  rewrite chk_in by (unfold TritSys.INT_MIN, TritSys.INT_MAX; lia).
  destruct (Z.ltb_spec (Z.rem a b) 0) as [Hneg|Hpos]; f_equal.
  - destruct (Z.lt_trichotomy b 0) as [Hb0|[Hb0|Hb0]]; [|lia|].
    + rewrite (Z.abs_neq b) in * by lia.
      apply (Z.mod_unique a (- b) (- Z.quot a b - 1)); [left; lia | lia].
    + rewrite (Z.abs_eq b) in * by lia.
      apply (Z.mod_unique a b (Z.quot a b - 1)); [left; lia | lia].
  - destruct (Z.lt_trichotomy b 0) as [Hb0|[Hb0|Hb0]]; [|lia|].
    + rewrite (Z.abs_neq b) in * by lia.
      apply (Z.mod_unique a (- b) (- Z.quot a b)); [left; lia | lia].
    + rewrite (Z.abs_eq b) in * by lia.
      apply (Z.mod_unique a b (Z.quot a b)); [left; lia | lia].
Qed.

Lemma execute_TMOD_witness :
  TritSys.discrete_opcode_execute (TritSys.discrete_opcode_encode TritSys.TMOD) (-7) (-3)
  = Some (if -3 =? 0 then 0 else -7 mod Z.abs (-3)).
Proof.
  apply (execute_TMOD (-7) (-3)); unfold TritSys.INT_MIN; lia.
Defined.

(** X24: TGCD is the greatest common divisor.  For operands above
    [INT_MIN] and of at most [INT_MAX / 2], executing the encoding of
    TGCD returns the greatest common divisor of the two operands, which
    is not negative (and 0 only for two zeros). *)
Theorem execute_TGCD (a b : Z) :
  TritSys.INT_MIN < a <= 1073741823 -> TritSys.INT_MIN < b <= 1073741823 ->
  TritSys.discrete_opcode_execute (TritSys.discrete_opcode_encode TritSys.TGCD) a b
  = Some (Z.gcd a b).
Proof.
  intros Ha Hb. unfold TritSys.INT_MIN in *.
  rewrite (execute_decoded _ TritSys.TGCD a b);
    [| vm_compute; reflexivity ..| lia | lia].
  change (TritSys.opcode_switch TritSys.TGCD a b)
    with (match TritSys.c_abs a, TritSys.c_abs b with
          | Some x, Some y => Some (TritSys.gcd_loop (S (Z.to_nat y)) x y)
          | _, _ => None
          end).
  unfold TritSys.c_abs.
  rewrite !chk_in by (unfold TritSys.INT_MIN, TritSys.INT_MAX; lia).
  rewrite gcd_loop_spec by lia.
  now rewrite Z.gcd_abs_l, Z.gcd_abs_r.
Qed.

Lemma execute_TGCD_witness :
  TritSys.discrete_opcode_execute (TritSys.discrete_opcode_encode TritSys.TGCD) (-12) 18
  = Some (Z.gcd (-12) 18).
Proof.
  apply (execute_TGCD (-12) 18); unfold TritSys.INT_MIN; lia.
Defined.


